(** * Thompson NFA construction and search: a shallow embedding

    The development follows the two source modules of the repository:
    the recursive-descent parser (module-level [pattern] and [pos], the rule
    functions [expr], [term], [factor], [atom], [char], and [toParseTree]) and
    the NFA module (the state primitives, the seven fragment operators, the two
    compilers [toNFA] and [toNFAfromParseTree], and the simulation
    [addNextState] / [search] / [recognize]).

    Modelling conventions.
    - A JavaScript string is the list of its UTF-16 code units, a
      [jsstring]; a code unit is a number.  Index access [pattern[pos]]
      reads one code unit; [for ... of] iteration yields code points, a
      surrogate pair as one string of two code units ([codePoints]).
    - A value that may be [undefined] at run time is a [value].
    - [FA_State] objects live in a heap, a [list FA_State]; an object
      reference is its index.  [createState] allocates at the end of the list.
      Property assignment and [push] on an object are [alter] at its index.
    - The object used as a dictionary ([transition]) is a
      [gmap jsstring ref]; its keys are the strings the compilers pass to
      [fromSymbol] and, for an [undefined] label, the string [undefined].
      The properties an object inherits are not modelled: their names are
      longer than any string indexing or iteration yields.
    - The module-level variables of the parser are the record [globals],
      threaded through every rule function.
    - [throw] is the [Throw] outcome.  Recursion that the source leaves
      unbounded carries a fuel argument; [OutOfFuel] / [None] is shown
      never to be returned by the entry points. *)

From stdpp Require Import gmap strings list.
From Stdlib Require Import Ascii NArith.
From Stdlib Require String.

(** ** Strings *)

(** A UTF-16 code unit, as a number; the code units are the numbers below
    65536.  Nothing below depends on that bound: a larger number behaves as
    a code unit that is not a surrogate. *)
Abbreviation cu := N.

(** A JavaScript string: the list of its code units. *)
Abbreviation jsstring := (list cu).

(** Literals: an ASCII character is its code, a string literal the list of
    the codes of its characters. *)
Coercion N_of_ascii : ascii >-> N.
Arguments N_of_ascii : simpl never.

Definition js (s : string) : jsstring :=
  N_of_ascii <$> String.list_ascii_of_string s.
Arguments js s%_string : simpl never.
Coercion js : string >-> list.

Notation "'chars' s" := (js s) (at level 10, only parsing).

(** The surrogate ranges. *)
Definition is_high (c : cu) : bool := (0xD800 <=? c)%N && (c <=? 0xDBFF)%N.
Definition is_low (c : cu) : bool := (0xDC00 <=? c)%N && (c <=? 0xDFFF)%N.

(** [for (const x of s)]: the string iterator yields the code points of
    [s], each as a string: a high surrogate directly followed by a low
    surrogate as one string of two code units, any other code unit by
    itself. *)
Fixpoint codePoints (s : jsstring) : list jsstring :=
  match s with
  | [] => []
  | c :: s' =>
      match s' with
      | d :: s'' =>
          if is_high c && is_low d then [c; d] :: codePoints s''
          else [c] :: codePoints s'
      | [] => [[c]]
      end
  end.
Arguments codePoints : simpl never.

(** ** Values and outcomes *)

Inductive value :=
| undefined
| str (s : jsstring).
Arguments str s%_string.

#[global] Instance value_eq_dec : EqDecision value.
Proof. solve_decision. Defined.

(** [String(v)], as used by template literals, [+] and property keys. *)
Definition toString (v : value) : jsstring :=
  match v with
  | undefined => js "undefined"
  | str s => s
  end.

(** The string of one code unit. *)
Definition chr (c : cu) : jsstring := [c].

Inductive error :=
| Error (message : jsstring)
| TypeError.

Inductive outcome (A : Type) :=
| Ok (a : A)
| Throw (e : error)
| OutOfFuel.
Arguments Ok {A} a.
Arguments Throw {A} e.
Arguments OutOfFuel {A}.

(** ** The automaton data model *)

(** An object reference is an index into the heap. *)
Abbreviation ref := nat.

Record FA_State := {
  isEnd : bool;
  transition : gmap jsstring ref;
  epsilonTransitions : list ref
}.

Record NFA := { start : ref; end_ : ref }.

Abbreviation heap := (list FA_State).

(** Reading a field through a reference.  A reference outside the heap reads
    as a state without edges; the constructors never produce one. *)
Definition eps (h : heap) (q : ref) : list ref :=
  match h !! q with Some s => epsilonTransitions s | None => [] end.

Definition trans (h : heap) (q : ref) (k : jsstring) : option ref :=
  match h !! q with Some s => transition s !! k | None => None end.

Definition final (h : heap) (q : ref) : bool :=
  match h !! q with Some s => isEnd s | None => false end.

(** ** State primitives *)

Definition createState (accepting : bool) (h : heap) : ref * heap :=
  (length h,
   h ++ [{| isEnd := accepting; transition := ∅; epsilonTransitions := [] |}]).

Definition push_eps (to : ref) (s : FA_State) : FA_State :=
  {| isEnd := isEnd s;
     transition := transition s;
     epsilonTransitions := epsilonTransitions s ++ [to] |}.

Definition set_transition (k : jsstring) (to : ref) (s : FA_State) : FA_State :=
  {| isEnd := isEnd s;
     transition := <[k := to]> (transition s);
     epsilonTransitions := epsilonTransitions s |}.

Definition set_isEnd (b : bool) (s : FA_State) : FA_State :=
  {| isEnd := b;
     transition := transition s;
     epsilonTransitions := epsilonTransitions s |}.

Definition addEpsilonTransition (from to : ref) (h : heap) : heap :=
  alter (push_eps to) from h.

Definition addTransition (from to : ref) (symbol : value) (h : heap) : heap :=
  alter (set_transition (toString symbol) to) from h.

(** [q.isEnd = false] *)
Definition clearEnd (q : ref) (h : heap) : heap :=
  alter (set_isEnd false) q h.

(** ** Fragment operators *)

Definition fromEpsilon (h : heap) : NFA * heap :=
  let '(s, h) := createState false h in
  let '(e, h) := createState true h in
  let h := addEpsilonTransition s e h in
  ({| start := s; end_ := e |}, h).

Definition fromSymbol (symbol : value) (h : heap) : NFA * heap :=
  let '(s, h) := createState false h in
  let '(e, h) := createState true h in
  let h := addTransition s e symbol h in
  ({| start := s; end_ := e |}, h).

Definition concat (first second : NFA) (h : heap) : NFA * heap :=
  let h := addEpsilonTransition (end_ first) (start second) h in
  let h := clearEnd (end_ first) h in
  ({| start := start first; end_ := end_ second |}, h).

Definition union (first second : NFA) (h : heap) : NFA * heap :=
  let '(s, h) := createState false h in
  let h := addEpsilonTransition s (start first) h in
  let h := addEpsilonTransition s (start second) h in
  let '(e, h) := createState true h in
  let h := addEpsilonTransition (end_ first) e h in
  let h := clearEnd (end_ first) h in
  let h := addEpsilonTransition (end_ second) e h in
  let h := clearEnd (end_ second) h in
  ({| start := s; end_ := e |}, h).

Definition closure (nfa : NFA) (h : heap) : NFA * heap :=
  let '(s, h) := createState false h in
  let '(e, h) := createState true h in
  let h := addEpsilonTransition s e h in
  let h := addEpsilonTransition s (start nfa) h in
  let h := addEpsilonTransition (end_ nfa) e h in
  let h := addEpsilonTransition (end_ nfa) (start nfa) h in
  let h := clearEnd (end_ nfa) h in
  ({| start := s; end_ := e |}, h).

Definition zeroOrOne (nfa : NFA) (h : heap) : NFA * heap :=
  let '(s, h) := createState false h in
  let '(e, h) := createState true h in
  let h := addEpsilonTransition s e h in
  let h := addEpsilonTransition s (start nfa) h in
  let h := addEpsilonTransition (end_ nfa) e h in
  let h := clearEnd (end_ nfa) h in
  ({| start := s; end_ := e |}, h).

Definition oneOrMore (nfa : NFA) (h : heap) : NFA * heap :=
  let '(s, h) := createState false h in
  let '(e, h) := createState true h in
  let h := addEpsilonTransition s (start nfa) h in
  let h := addEpsilonTransition (end_ nfa) e h in
  let h := addEpsilonTransition (end_ nfa) (start nfa) h in
  let h := clearEnd (end_ nfa) h in
  ({| start := s; end_ := e |}, h).

(** ** The postfix compiler

    [stack] is the JavaScript array; its last element (the one [pop] returns)
    is the head of the list.  [pop] on an empty array returns [undefined] and
    leaves the array empty. *)

Abbreviation stack := (list NFA).

Definition pop (st : stack) : option NFA * stack :=
  match st with
  | [] => (None, [])
  | x :: st' => (Some x, st')
  end.

Definition unary (op : NFA → heap → NFA * heap) (st : stack) (h : heap)
  : stack * heap :=
  let '(s0, st) := pop st in
  match s0 with
  | Some s0 => let '(r, h) := op s0 h in (r :: st, h)
  | None => (st, h)
  end.

Definition binary (op : NFA → NFA → heap → NFA * heap) (st : stack) (h : heap)
  : stack * heap :=
  let '(right', st) := pop st in
  let '(left', st) := pop st in
  match right', left' with
  | Some right', Some left' => let '(r, h) := op left' right' h in (r :: st, h)
  | _, _ => (st, h)
  end.

(** One iteration of the [for (const token of postfixExp)] loop. *)
Definition toNFA_step (token : jsstring) (st : stack) (h : heap)
  : stack * heap :=
  if decide (token = js "*") then unary closure st h
  else if decide (token = js "?") then unary zeroOrOne st h
  else if decide (token = js "+") then unary oneOrMore st h
  else if decide (token = js "|") then binary union st h
  else if decide (token = js ".") then binary concat st h
  else let '(r, h) := fromSymbol (str token) h in (r :: st, h).

(** The loop, over the tokens the iteration yields. *)
Fixpoint toNFA_loop (tokens : list jsstring) (st : stack) (h : heap)
  : stack * heap :=
  match tokens with
  | [] => (st, h)
  | token :: rest =>
      let '(st, h) := toNFA_step token st h in toNFA_loop rest st h
  end.

(** The result is [None] where the source returns [undefined]. *)
Definition toNFA (postfixExp : jsstring) (h : heap) : option NFA * heap :=
  match postfixExp with
  | [] => let '(r, h) := fromEpsilon h in (Some r, h)
  | _ =>
      let '(st, h) := toNFA_loop (codePoints postfixExp) [] h in
      (fst (pop st), h)
  end.

(** ** The simulation *)

(** [visited.find(vs => vs === st)] as a truth value. *)
Definition found (st : ref) (visited : list ref) : bool :=
  bool_decide (st ∈ visited).

(** The body of the loop over [state.epsilonTransitions]; [rec] is the
    recursive call. *)
Definition visit (rec : ref → list ref → list ref → option (list ref * list ref))
    (acc : option (list ref * list ref)) (st : ref)
  : option (list ref * list ref) :=
  match acc with
  | None => None
  | Some (nextStates, visited) =>
      if found st visited then Some (nextStates, visited)
      else rec st nextStates (visited ++ [st])
  end.

(** [nextStates] and [visited] are arrays mutated in place; the function
    returns their contents after the call. *)
Fixpoint addNextState (fuel : nat) (h : heap) (state : ref)
    (nextStates visited : list ref) : option (list ref * list ref) :=
  match fuel with
  | 0 => None
  | S fuel =>
      match eps h state with
      | [] => Some (nextStates ++ [state], visited)
      | _ :: _ =>
          foldl (visit (addNextState fuel h)) (Some (nextStates, visited))
            (eps h state)
      end
  end.

(** Enough fuel for any heap: every nested call marks a new state. *)
Definition closure_fuel (h : heap) : nat := length h + 2.

(** The body of the inner loop of [search]: one current state. *)
Definition search_state (h : heap) (symbol : jsstring)
    (acc : option (list ref))
    (state : ref) : option (list ref) :=
  match acc with
  | None => None
  | Some nextStates =>
      match trans h state symbol with
      | Some nextState =>
          fst <$> addNextState (closure_fuel h) h nextState nextStates []
      | None => Some nextStates
      end
  end.

(** The loop of [search], over the symbols the iteration of [word]
    yields. *)
Fixpoint search_loop (h : heap) (symbols : list jsstring)
    (currentStates : list ref) : option (list ref) :=
  match symbols with
  | [] => Some currentStates
  | symbol :: symbols =>
      match foldl (search_state h symbol) (Some []) currentStates with
      | Some nextStates => search_loop h symbols nextStates
      | None => None
      end
  end.

Definition search (h : heap) (nfa : NFA) (word : jsstring) : option bool :=
  match addNextState (closure_fuel h) h (start nfa) [] [] with
  | Some (currentStates, _) =>
      match search_loop h (codePoints word) currentStates with
      | Some currentStates => Some (existsb (final h) currentStates)
      | None => None
      end
  | None => None
  end.

Definition recognize (h : heap) (nfa : NFA) (word : jsstring) : option bool :=
  search h nfa word.

(** ** The parser

    [pattern] and [pos] are module-level variables of the source. *)

Record globals := { pattern : jsstring; pos : nat }.

Unset Elimination Schemes.
Inductive TreeNode :=
| Node (label : value) (children : option (list TreeNode)).
Set Elimination Schemes.

Definition label (n : TreeNode) : value :=
  match n with Node l _ => l end.

Definition children (n : TreeNode) : option (list TreeNode) :=
  match n with Node _ c => c end.

(** [{label: l}] *)
Definition leaf (l : value) : TreeNode := Node l None.

(** A parser action: reads and updates the module variables, returns or
    throws. *)
Definition P (A : Type) : Type := globals → outcome A * globals.

Definition ret {A} (a : A) : P A := λ g, (Ok a, g).

Definition bind {A B} (m : P A) (k : A → P B) : P B :=
  λ g, match m g with
       | (Ok a, g) => k a g
       | (Throw e, g) => (Throw e, g)
       | (OutOfFuel, g) => (OutOfFuel, g)
       end.

Definition throw {A} (e : error) : P A := λ g, (Throw e, g).

Notation "'let*' x ':=' m 'in' k" := (bind m (λ x, k))
  (at level 10, x pattern, m at level 100, k at level 200).

Definition peek (g : globals) : value :=
  match pattern g !! pos g with
  | Some c => str (chr c)
  | None => undefined
  end.

Definition hasMoreChars (g : globals) : bool :=
  bool_decide (pos g < length (pattern g)).

Definition isMetaChar (ch : value) : bool :=
  bool_decide (ch = str "*") || bool_decide (ch = str "+")
  || bool_decide (ch = str "?").

(** [pos++] *)
Definition advance (g : globals) : globals :=
  {| pattern := pattern g; pos := S (pos g) |}.

(** [match] of the source. *)
Definition match_ (ch : value) : P unit :=
  λ g, if bool_decide (peek g ≠ ch)
       then throw (Error (js "Unexpected symbol " ++ toString ch)) g
       else (Ok tt, advance g).

Definition next : P value :=
  λ g, let ch := peek g in
       (let* _ := match_ ch in ret ch) g.

Definition char : P TreeNode :=
  λ g, if isMetaChar (peek g)
       then throw (Error (js "Unexpected meta char " ++ toString (peek g))) g
       else if bool_decide (peek g = str "\")
       then (let* _ := match_ (str "\") in
             let* c := next in
             ret (Node (str "Char") (Some [leaf (str "\"); leaf c]))) g
       else (let* c := next in
             ret (Node (str "Char") (Some [leaf c]))) g.

Fixpoint expr (fuel : nat) : P TreeNode :=
  match fuel with
  | 0 => λ g, (OutOfFuel, g)
  | S fuel =>
      let* trm := term fuel in
      λ g, if hasMoreChars g && bool_decide (peek g = str "|")
           then (let* _ := match_ (str "|") in
                 let* exp := expr fuel in
                 ret (Node (str "Expr") (Some [trm; leaf (str "|"); exp]))) g
           else ret (Node (str "Expr") (Some [trm])) g
  end
with term (fuel : nat) : P TreeNode :=
  match fuel with
  | 0 => λ g, (OutOfFuel, g)
  | S fuel =>
      let* factr := factor fuel in
      λ g, if hasMoreChars g && bool_decide (peek g ≠ str ")")
              && bool_decide (peek g ≠ str "|")
           then (let* trm := term fuel in
                 ret (Node (str "Term") (Some [factr; trm]))) g
           else ret (Node (str "Term") (Some [factr])) g
  end
with factor (fuel : nat) : P TreeNode :=
  match fuel with
  | 0 => λ g, (OutOfFuel, g)
  | S fuel =>
      let* atm := atom fuel in
      λ g, if hasMoreChars g && isMetaChar (peek g)
           then (let* meta := next in
                 ret (Node (str "Factor") (Some [atm; leaf meta]))) g
           else ret (Node (str "Factor") (Some [atm])) g
  end
with atom (fuel : nat) : P TreeNode :=
  match fuel with
  | 0 => λ g, (OutOfFuel, g)
  | S fuel =>
      λ g, if bool_decide (peek g = str "(")
           then (let* _ := match_ (str "(") in
                 let* exp := expr fuel in
                 let* _ := match_ (str ")") in
                 ret (Node (str "Atom")
                        (Some [leaf (str "("); exp; leaf (str ")")]))) g
           else (let* ch := char in
                 ret (Node (str "Atom") (Some [ch]))) g
  end.

(** Fuel that covers the deepest nesting of rule calls on [regex]: four
    nested calls per code unit. *)
Definition parse_fuel (regex : jsstring) : nat := 4 * length regex + 4.

Definition toParseTree (regex : jsstring) : P TreeNode :=
  λ _, expr (parse_fuel regex) {| pattern := regex; pos := 0 |}.

(** ** The tree compiler *)

(** Sequencing of heap actions that may throw. *)
Definition H (A : Type) : Type := heap → outcome A * heap.

Definition bindH {A B} (m : H A) (k : A → H B) : H B :=
  λ h, match m h with
       | (Ok a, h) => k a h
       | (Throw e, h) => (Throw e, h)
       | (OutOfFuel, h) => (OutOfFuel, h)
       end.

(** A fragment operator returns normally. *)
Definition liftH {A} (m : heap → A * heap) : H A :=
  λ h, let '(a, h) := m h in (Ok a, h).

Definition unrecognized {A} (l : value) : H A :=
  λ h, (Throw (Error (js "Unrecognized node label " ++ toString l)), h).

(** Reading [children] or [label] of [undefined]. *)
Definition typeError {A} : H A := λ h, (Throw TypeError, h).

Fixpoint toNFAfromParseTree (root : TreeNode) : H NFA :=
  match root with
  | Node lbl None => unrecognized lbl
  | Node lbl (Some cs) =>
      if bool_decide (lbl = str "Expr") then
        match cs with
        | [] => typeError
        | c0 :: rest =>
            bindH (toNFAfromParseTree c0) (λ trm,
              match rest with
              | [_; c2] =>
                  bindH (toNFAfromParseTree c2) (λ e, liftH (union trm e))
              | _ => liftH (pair trm)
              end)
        end
      else if bool_decide (lbl = str "Term") then
        match cs with
        | [] => typeError
        | c0 :: rest =>
            bindH (toNFAfromParseTree c0) (λ factr,
              match rest with
              | [c1] =>
                  bindH (toNFAfromParseTree c1) (λ t, liftH (concat factr t))
              | _ => liftH (pair factr)
              end)
        end
      else if bool_decide (lbl = str "Factor") then
        match cs with
        | [] => typeError
        | c0 :: rest =>
            bindH (toNFAfromParseTree c0) (λ atm,
              match rest with
              | [c1] =>
                  let meta := label c1 in
                  if bool_decide (meta = str "*") then liftH (closure atm)
                  else if bool_decide (meta = str "+") then liftH (oneOrMore atm)
                  else if bool_decide (meta = str "?") then liftH (zeroOrOne atm)
                  else liftH (pair atm)
              | _ => liftH (pair atm)
              end)
        end
      else if bool_decide (lbl = str "Atom") then
        match cs with
        | [_; c1; _] => toNFAfromParseTree c1
        | c0 :: _ => toNFAfromParseTree c0
        | [] => typeError
        end
      else if bool_decide (lbl = str "Char") then
        match cs with
        | [_; c1] => liftH (fromSymbol (label c1))
        | c0 :: _ => liftH (fromSymbol (label c0))
        | [] => typeError
        end
      else unrecognized lbl
  end.

(** The entry point reads and writes both the parser's module variables and
    the heap. *)
Definition toNFAFromInfixExp (infixExp : jsstring) (g : globals) (h : heap)
  : outcome NFA * globals * heap :=
  match infixExp with
  | [] => let '(r, h) := fromEpsilon h in (Ok r, g, h)
  | _ =>
      match toParseTree infixExp g with
      | (Ok tree, g) => let '(r, h) := toNFAfromParseTree tree h in (r, g, h)
      | (Throw e, g) => (Throw e, g, h)
      | (OutOfFuel, g) => (OutOfFuel, g, h)
      end
  end.

Local Open Scope char_scope.

(** * Specification vocabulary *)

(** ** Runs of an automaton, as the simulation reads the graph

    A word of an automaton is a list of symbols; a symbol is a string, the
    key of a symbol edge.  The simulation follows the epsilon edges of a
    state that has any, and looks at the symbol edges only of a state that
    has none. *)

Inductive run (h : heap) : ref → list jsstring → ref → Prop :=
| run_nil q : run h q [] q
| run_eps q q' w t :
    q' ∈ eps h q → run h q' w t → run h q w t
| run_sym q c q' w t :
    eps h q = [] → trans h q c = Some q' → run h q' w t →
    run h q (c :: w) t.

(** A word is accepted from [s] when a run ends in an accepting state that
    has no epsilon edge. *)
Definition accepts (h : heap) (s : ref) (w : list jsstring) : Prop :=
  ∃ t, run h s w t ∧ eps h t = [] ∧ final h t = true.

(** Epsilon steps only. *)
Definition estep (h : heap) (q q' : ref) : Prop := q' ∈ eps h q.

(** The states the simulation keeps after following epsilon edges from [s]. *)
Definition eclosure (h : heap) (s t : ref) : Prop :=
  rtc (estep h) s t ∧ eps h t = [].

(** Runs between states kept by the simulation: a symbol edge, then the
    epsilon closure of its target. *)
Fixpoint prun (h : heap) (q : ref) (w : list jsstring) (t : ref) : Prop :=
  match w with
  | [] => q = t
  | c :: w =>
      ∃ q' q'', trans h q c = Some q' ∧ eclosure h q' q'' ∧ prun h q'' w t
  end.

(** The number of states of the heap that are not yet marked. *)
Definition unmarked (h : heap) (visited : list ref) : nat :=
  length (filter (λ q, q ∉ visited) (seq 0 (length h))).

(** What one call of [addNextState], or one run of its loop, has done to the
    two arrays: both only grow, every state added to [nextStates] is in the
    closure of a root, and every newly marked state has been expanded. *)
Definition expanded (h : heap) (roots : ref → Prop)
    (ns vis ns' vis' : list ref) : Prop :=
  (∀ x, x ∈ vis → x ∈ vis') ∧
  (∀ x, x ∈ ns → x ∈ ns') ∧
  (∀ t, t ∈ ns' → t ∈ ns ∨ ∃ r, roots r ∧ eclosure h r t) ∧
  (∀ v, v ∈ vis' → v ∉ vis →
     (eps h v = [] → v ∈ ns') ∧ (∀ u, u ∈ eps h v → u ∈ vis')).

(** ** Fragments

    The states of a fragment are those its start state reaches along any
    edge of the graph. *)

Definition edge (h : heap) (q q' : ref) : Prop :=
  q' ∈ eps h q ∨ ∃ k, trans h q k = Some q'.

Definition reach (h : heap) : ref → ref → Prop := rtc (edge h).

(** A fragment as an operator leaves it: its end state is the one accepting
    state among its states and has no outgoing edge; no state mixes epsilon
    and symbol edges, and none has more than two epsilon edges. *)
Record Frag (h : heap) (A : NFA) : Prop := {
  frag_end_eps : eps h (end_ A) = [];
  frag_end_trans : ∀ k, trans h (end_ A) k = None;
  frag_end_final : final h (end_ A) = true;
  frag_reach_end : reach h (start A) (end_ A);
  frag_valid : ∀ q, reach h (start A) q → q < length h;
  frag_final : ∀ q, reach h (start A) q → final h q = true → q = end_ A;
  frag_pure : ∀ q, reach h (start A) q →
              eps h q = [] ∨ ∀ k, trans h q k = None;
  frag_two : ∀ q, reach h (start A) q → length (eps h q) ≤ 2
}.

(** The words that lead from the start state to the end state. *)
Definition lang (h : heap) (A : NFA) (w : list jsstring) : Prop :=
  run h (start A) w (end_ A).

(** Two fragments share no state. *)
Definition disjoint (h : heap) (A B : NFA) : Prop :=
  ∀ q, reach h (start A) q → reach h (start B) q → False.

(** What the simulation can observe of state [q] is the same in both heaps. *)
Definition same (h h' : heap) (q : ref) : Prop :=
  eps h' q = eps h q ∧ (∀ k, trans h' q k = trans h q k)
  ∧ final h' q = final h q.

(** [h'] keeps every state of [h] except those listed. *)
Definition keeps (h h' : heap) (changed : list ref) : Prop :=
  length h ≤ length h' ∧ ∀ q, q < length h → q ∉ changed → same h h' q.

(** The fragment [A] of [h] has been extended at its end state: the end has
    gained epsilon edges, back to the start of [A] or out of [A]; the other
    states of [A] have their edges. *)
Record Sink (h h' : heap) (A : NFA) : Prop := {
  sink_frag : Frag h A;
  sink_keep : ∀ q, reach h (start A) q → q ≠ end_ A →
    eps h' q = eps h q ∧ ∀ k, trans h' q k = trans h q k;
  sink_end_trans : ∀ k, trans h' (end_ A) k = None;
  sink_end_eps : ∀ o, o ∈ eps h' (end_ A) →
    o = start A ∨ ¬ reach h (start A) o
}.

(** A new start [length h] and a new end [S (length h)] have been put around
    the fragments [As] of [h]. *)
Record Wrapped (h h' : heap) (As : list NFA) : Prop := {
  wr_len : length h' = S (S (length h));
  wr_frags : ∀ A, A ∈ As → Frag h A;
  wr_sep : ∀ A B, A ∈ As → B ∈ As → A = B ∨ disjoint h A B;
  wr_trans : ∀ q k, trans h' q k = trans h q k;
  wr_start_eps : ∀ o, o ∈ eps h' (length h) →
    o = S (length h) ∨ ∃ A, A ∈ As ∧ o = start A;
  wr_start_in : ∃ A, A ∈ As ∧ start A ∈ eps h' (length h);
  wr_start_two : length (eps h' (length h)) ≤ 2;
  wr_new_end_eps : eps h' (S (length h)) = [];
  wr_new_end_final : final h' (S (length h)) = true;
  wr_new_start_final : final h' (length h) = false;
  wr_ends : ∀ A, A ∈ As →
    final h' (end_ A) = false ∧ S (length h) ∈ eps h' (end_ A)
    ∧ (∀ o, o ∈ eps h' (end_ A) → o = S (length h) ∨ o = start A)
    ∧ length (eps h' (end_ A)) ≤ 2;
  wr_other : ∀ q, q < length h → (∀ A, A ∈ As → q ≠ end_ A) →
    eps h' q = eps h q ∧ final h' q = final h q
}.

(** ** Languages

    The operations on languages, over any alphabet: symbols for the
    automata, code units for the patterns. *)

Definition lang_eps {A} : list A → Prop := λ w, w = [].

Definition lang_sym {A} (c : A) : list A → Prop := λ w, w = [c].

Definition lang_union {A} (L1 L2 : list A → Prop) : list A → Prop :=
  λ w, L1 w ∨ L2 w.

Definition lang_concat {A} (L1 L2 : list A → Prop) : list A → Prop :=
  λ w, ∃ u v, w = u ++ v ∧ L1 u ∧ L2 v.

(** Zero or more words of [L], one after the other. *)
Definition lang_star {A} (L : list A → Prop) : list A → Prop :=
  λ w, ∃ ws, w = mjoin ws ∧ Forall L ws.

(** One or more. *)
Definition lang_plus {A} (L : list A → Prop) : list A → Prop :=
  λ w, ∃ ws, ws ≠ [] ∧ w = mjoin ws ∧ Forall L ws.

Definition lang_opt {A} (L : list A → Prop) : list A → Prop :=
  λ w, w = [] ∨ L w.

(** The language of an automaton: a set of lists of symbols. *)
Definition language := list jsstring → Prop.

(** What an operator has built from the fragments [inputs] of [h]: a
    fragment [R] of [h'] with language [L], made of new states and of the
    states of the inputs; of the states of [h] only the ends of the inputs
    have changed. *)
Definition Op (h h' : heap) (R : NFA) (L : language) (inputs : list NFA)
  : Prop :=
  Frag h' R ∧ (∀ w, lang h' R w ↔ L w)
  ∧ (∀ q, reach h' (start R) q →
       length h ≤ q ∨ ∃ A, A ∈ inputs ∧ reach h (start A) q)
  ∧ keeps h h' (end_ <$> inputs).

(** ** The accepted regex surface

    Derivations of the grammar of the parser:
<<
    Expr -> Term | Term '|' Expr
    Term -> Factor | Factor Term
    Factor -> Atom | Atom MetaChar
    Atom -> Char | '(' Expr ')'
    Char -> AnyCharExceptMeta | '\' AnyChar
    MetaChar -> '?' | '*' | '+'
>>
    A character is a code unit: the parser reads the pattern one code unit
    at a time.  An unescaped literal is any code unit without a role in the
    syntax. *)

Inductive MetaChar := Star | Plus | Quest.

Inductive Char :=
| CLit (c : cu)
| CEsc (c : cu).

Inductive Expr :=
| ETerm (t : Term)
| EUnion (t : Term) (e : Expr)
with Term :=
| TFactor (f : Factor)
| TConcat (f : Factor) (t : Term)
with Factor :=
| FAtom (a : Atom)
| FMeta (a : Atom) (m : MetaChar)
with Atom :=
| AChar (c : Char)
| AGroup (e : Expr).

Scheme Expr_mut := Induction for Expr Sort Prop
  with Term_mut := Induction for Term Sort Prop
  with Factor_mut := Induction for Factor Sort Prop
  with Atom_mut := Induction for Atom Sort Prop.
Combined Scheme grammar_mutind from Expr_mut, Term_mut, Factor_mut, Atom_mut.

(** The characters with a role in the syntax. *)
Definition special (c : cu) : bool :=
  bool_decide (c ∈ js "*+?()|\").

Definition meta_char (m : MetaChar) : cu :=
  match m with Star => "*" | Plus => "+" | Quest => "?" end.

Definition wf_char (c : Char) : bool :=
  match c with CLit c => negb (special c) | CEsc _ => true end.

Fixpoint wf_expr (e : Expr) : bool :=
  match e with
  | ETerm t => wf_term t
  | EUnion t e => wf_term t && wf_expr e
  end
with wf_term (t : Term) : bool :=
  match t with
  | TFactor f => wf_factor f
  | TConcat f t => wf_factor f && wf_term t
  end
with wf_factor (f : Factor) : bool :=
  match f with
  | FAtom a => wf_atom a
  | FMeta a _ => wf_atom a
  end
with wf_atom (a : Atom) : bool :=
  match a with
  | AChar c => wf_char c
  | AGroup e => wf_expr e
  end.

(** The pattern text of a derivation. *)
Definition yield_char (c : Char) : jsstring :=
  match c with CLit c => [c] | CEsc c => ("\" : cu) :: [c] end.

Fixpoint yield_expr (e : Expr) : jsstring :=
  match e with
  | ETerm t => yield_term t
  | EUnion t e => yield_term t ++ ("|" : cu) :: yield_expr e
  end
with yield_term (t : Term) : jsstring :=
  match t with
  | TFactor f => yield_factor f
  | TConcat f t => yield_factor f ++ yield_term t
  end
with yield_factor (f : Factor) : jsstring :=
  match f with
  | FAtom a => yield_atom a
  | FMeta a m => yield_atom a ++ [meta_char m]
  end
with yield_atom (a : Atom) : jsstring :=
  match a with
  | AChar c => yield_char c
  | AGroup e => ("(" : cu) :: yield_expr e ++ [")" : cu]
  end.

(** The language of a derivation, under the standard semantics: a set of
    strings. *)
Definition den_char (c : Char) : jsstring → Prop :=
  match c with CLit c => lang_sym c | CEsc c => lang_sym c end.

Definition den_meta {A} (m : MetaChar) (L : list A → Prop) : list A → Prop :=
  match m with
  | Star => lang_star L
  | Plus => lang_plus L
  | Quest => lang_opt L
  end.

Fixpoint den_expr (e : Expr) : jsstring → Prop :=
  match e with
  | ETerm t => den_term t
  | EUnion t e => lang_union (den_term t) (den_expr e)
  end
with den_term (t : Term) : jsstring → Prop :=
  match t with
  | TFactor f => den_factor f
  | TConcat f t => lang_concat (den_factor f) (den_term t)
  end
with den_factor (f : Factor) : jsstring → Prop :=
  match f with
  | FAtom a => den_atom a
  | FMeta a m => den_meta m (den_atom a)
  end
with den_atom (a : Atom) : jsstring → Prop :=
  match a with
  | AChar c => den_char c
  | AGroup e => den_expr e
  end.

(** The parse tree of a derivation: one node per rule, the tokens as leaf
    children. *)
Definition lf (c : cu) : TreeNode := leaf (str (chr c)).

Definition tree_char (c : Char) : TreeNode :=
  match c with
  | CLit c => Node (str "Char") (Some [lf c])
  | CEsc c => Node (str "Char") (Some [lf "\"; lf c])
  end.

Fixpoint tree_expr (e : Expr) : TreeNode :=
  match e with
  | ETerm t => Node (str "Expr") (Some [tree_term t])
  | EUnion t e => Node (str "Expr") (Some [tree_term t; lf "|"; tree_expr e])
  end
with tree_term (t : Term) : TreeNode :=
  match t with
  | TFactor f => Node (str "Term") (Some [tree_factor f])
  | TConcat f t => Node (str "Term") (Some [tree_factor f; tree_term t])
  end
with tree_factor (f : Factor) : TreeNode :=
  match f with
  | FAtom a => Node (str "Factor") (Some [tree_atom a])
  | FMeta a m => Node (str "Factor") (Some [tree_atom a; lf (meta_char m)])
  end
with tree_atom (a : Atom) : TreeNode :=
  match a with
  | AChar c => Node (str "Atom") (Some [tree_char c])
  | AGroup e => Node (str "Atom") (Some [lf "("; tree_expr e; lf ")"])
  end.

(** The depth of nested rule calls on a derivation. *)
Fixpoint height_expr (e : Expr) : nat :=
  match e with
  | ETerm t => S (height_term t)
  | EUnion t e => S (height_term t `max` height_expr e)
  end
with height_term (t : Term) : nat :=
  match t with
  | TFactor f => S (height_factor f)
  | TConcat f t => S (height_factor f `max` height_term t)
  end
with height_factor (f : Factor) : nat :=
  match f with
  | FAtom a => S (height_atom a)
  | FMeta a _ => S (height_atom a)
  end
with height_atom (a : Atom) : nat :=
  match a with
  | AChar _ => 1
  | AGroup e => S (height_expr e)
  end.

(** A pattern is empty or the text of a derivation. *)
Inductive Pattern :=
| PEmpty
| PExpr (e : Expr).

Definition wf_pattern (p : Pattern) : bool :=
  match p with PEmpty => true | PExpr e => wf_expr e end.

Definition yield (p : Pattern) : jsstring :=
  match p with PEmpty => [] | PExpr e => yield_expr e end.

Definition den (p : Pattern) : jsstring → Prop :=
  match p with PEmpty => lang_eps | PExpr e => den_expr e end.

(** A language of strings, as the language of an automaton whose symbols
    are single code units: each code unit of a string is one symbol. *)
Definition units (L : jsstring → Prop) : language :=
  λ us, ∃ w, L w ∧ us = chr <$> w.

(** A high surrogate directly followed by a low surrogate occurs in the
    string: iteration does not yield it code unit by code unit. *)
Fixpoint has_pair (s : jsstring) : bool :=
  match s with
  | [] => false
  | c :: s' =>
      match s' with
      | d :: _ => (is_high c && is_low d) || has_pair s'
      | [] => false
      end
  end.
Arguments has_pair : simpl never.

(** ** Patterns with a group left open

    The text of a derivation cut off in a group: the input ends where the
    closing parenthesis of the innermost open group is due.  What has been
    read of the pattern is well formed.
<<
    OpenExpr -> OpenTerm | Term '|' OpenExpr
    OpenTerm -> OpenAtom | Factor OpenTerm
    OpenAtom -> '(' Expr | '(' OpenExpr
>> *)
Inductive OpenExpr :=
| OETerm (t : OpenTerm)
| OEUnion (t : Term) (e : OpenExpr)
with OpenTerm :=
| OTAtom (a : OpenAtom)
| OTConcat (f : Factor) (t : OpenTerm)
with OpenAtom :=
| OAGroup (e : Expr)
| OANest (e : OpenExpr).

Scheme OpenExpr_mut := Induction for OpenExpr Sort Prop
  with OpenTerm_mut := Induction for OpenTerm Sort Prop
  with OpenAtom_mut := Induction for OpenAtom Sort Prop.
Combined Scheme open_mutind from OpenExpr_mut, OpenTerm_mut, OpenAtom_mut.

Fixpoint wf_oexpr (e : OpenExpr) : bool :=
  match e with
  | OETerm t => wf_oterm t
  | OEUnion t e => wf_term t && wf_oexpr e
  end
with wf_oterm (t : OpenTerm) : bool :=
  match t with
  | OTAtom a => wf_oatom a
  | OTConcat f t => wf_factor f && wf_oterm t
  end
with wf_oatom (a : OpenAtom) : bool :=
  match a with
  | OAGroup e => wf_expr e
  | OANest e => wf_oexpr e
  end.

Fixpoint yield_oexpr (e : OpenExpr) : jsstring :=
  match e with
  | OETerm t => yield_oterm t
  | OEUnion t e => yield_term t ++ ("|" : cu) :: yield_oexpr e
  end
with yield_oterm (t : OpenTerm) : jsstring :=
  match t with
  | OTAtom a => yield_oatom a
  | OTConcat f t => yield_factor f ++ yield_oterm t
  end
with yield_oatom (a : OpenAtom) : jsstring :=
  match a with
  | OAGroup e => ("(" : cu) :: yield_expr e
  | OANest e => ("(" : cu) :: yield_oexpr e
  end.

(** ** The postfix form of a derivation

    Operands first, then the operator; [.] is the concatenation operator.
    The postfix form has no escape: a literal that is one of its operator
    tokens cannot be written in it. *)
Definition postfix_operator (c : cu) : bool :=
  bool_decide (c ∈ js "*?+|.").

Definition char_of (c : Char) : cu :=
  match c with CLit c => c | CEsc c => c end.

Fixpoint postfix_expr (e : Expr) : jsstring :=
  match e with
  | ETerm t => postfix_term t
  | EUnion t e => postfix_term t ++ postfix_expr e ++ ["|" : cu]
  end
with postfix_term (t : Term) : jsstring :=
  match t with
  | TFactor f => postfix_factor f
  | TConcat f t => postfix_factor f ++ postfix_term t ++ ["." : cu]
  end
with postfix_factor (f : Factor) : jsstring :=
  match f with
  | FAtom a => postfix_atom a
  | FMeta a m => postfix_atom a ++ [meta_char m]
  end
with postfix_atom (a : Atom) : jsstring :=
  match a with
  | AChar c => [char_of c]
  | AGroup e => postfix_expr e
  end.

(** Every literal of the derivation can be written as a postfix token. *)
Fixpoint postfix_ok_expr (e : Expr) : bool :=
  match e with
  | ETerm t => postfix_ok_term t
  | EUnion t e => postfix_ok_term t && postfix_ok_expr e
  end
with postfix_ok_term (t : Term) : bool :=
  match t with
  | TFactor f => postfix_ok_factor f
  | TConcat f t => postfix_ok_factor f && postfix_ok_term t
  end
with postfix_ok_factor (f : Factor) : bool :=
  match f with
  | FAtom a => postfix_ok_atom a
  | FMeta a _ => postfix_ok_atom a
  end
with postfix_ok_atom (a : Atom) : bool :=
  match a with
  | AChar c => negb (postfix_operator (char_of c))
  | AGroup e => postfix_ok_expr e
  end.

(** ** Parser states *)

(** The unread part of the pattern. *)
Definition rest (g : globals) : jsstring := drop (pos g) (pattern g).

(** What may follow a complete [Expr], [Term] and [Factor]. *)
Definition follow_expr (post : jsstring) : Prop :=
  match post with [] => True | c :: _ => c = ")" end.

Definition follow_term (post : jsstring) : Prop :=
  match post with [] => True | c :: _ => c = ")" ∨ c = "|" end.

Definition follow_factor (post : jsstring) : Prop :=
  match post with
  | [] => True
  | c :: _ => c ≠ "*" ∧ c ≠ "+" ∧ c ≠ "?"
  end.

(** The characters a [Term] can start with. *)
Definition first_ok (c : cu) : Prop :=
  c ≠ "*" ∧ c ≠ "+" ∧ c ≠ "?" ∧ c ≠ ")" ∧ c ≠ "|".

(** The fragment [R] of [h'] has language [L] and was built on top of [h],
    which it left as it was. *)
Definition Built (h h' : heap) (R : NFA) (L : language) : Prop :=
  Frag h' R ∧ (∀ w, lang h' R w ↔ L w)
  ∧ (∀ q, reach h' (start R) q → length h ≤ q)
  ∧ length h ≤ length h' ∧ (∀ q, q < length h → same h h' q).

(** ** What a rule of the parser leaves behind *)

Inductive rule := RExpr | RTerm | RFactor | RAtom.

(** The unread input after a rule has returned. *)
Definition follow_of (r : rule) (post : jsstring) : Prop :=
  match r with
  | RExpr => follow_expr post
  | RTerm => follow_term post
  | RFactor | RAtom => True
  end.

(** The two errors of the parser, and where the cursor is when they are
    thrown: [match] fails only on [)] at the end of the input; [char]
    rejects a quantifier that is the next character. *)
Definition parse_error (e : error) (g : globals) : Prop :=
  (e = Error (js "Unexpected symbol )") ∧ rest g = [])
  ∨ (∃ c r, e = Error (js "Unexpected meta char " ++ chr c)
            ∧ rest g = c :: r ∧ (c = "*" ∨ c = "+" ∨ c = "?")).

Definition rule_post (r : rule) (g : globals)
    (res : outcome TreeNode * globals) : Prop :=
  pattern (snd res) = pattern g ∧
  match fst res with
  | Ok _ =>
      length (rest (snd res)) ≤ length (rest g) - 1
      ∧ follow_of r (rest (snd res))
  | Throw e => parse_error e (snd res)
  | OutOfFuel => True
  end.

(** Fuel that is enough for a rule on the unread input. *)
Definition rule_fuel (r : rule) (g : globals) : nat :=
  4 * length (rest g) +
  match r with RExpr => 4 | RTerm => 3 | RFactor => 2 | RAtom => 1 end.

Definition rule_fun (r : rule) : nat → P TreeNode :=
  match r with
  | RExpr => expr
  | RTerm => term
  | RFactor => factor
  | RAtom => atom
  end.

(** ** The stack of the postfix compiler *)

(** Every entry is a fragment, and two entries share no state. *)
Definition StackOK (h : heap) (st : list NFA) : Prop :=
  (∀ A, A ∈ st → Frag h A)
  ∧ (∀ i j A B, st !! i = Some A → st !! j = Some B → i ≠ j → disjoint h A B).

(** The invariants of the states of an automaton: at most two epsilon edges
    per state, and no state with both kinds of edge. *)
Definition thompson_states (h : heap) (A : NFA) : Prop :=
  ∀ q, reach h (start A) q →
    length (eps h q) ≤ 2 ∧ (eps h q = [] ∨ ∀ k, trans h q k = None).

(** Exactly one accepting state among the states of a fragment: its end. *)
Definition single_accept (h : heap) (A : NFA) : Prop :=
  reach h (start A) (end_ A)
  ∧ ∀ q, reach h (start A) q → (final h q = true ↔ q = end_ A).

(** ** Results of the parser and of the compilers on a derivation *)

(** The result of a rule on the text of a derivation: the tree, the cursor
    after the text, the pattern untouched. *)
Definition parsed (r : outcome TreeNode * globals) (g : globals)
    (t : TreeNode) (post : jsstring) : Prop :=
  ∃ g', r = (Ok t, g') ∧ rest g' = post ∧ pattern g' = pattern g.

(** The result of a rule on a text that ends in an open group: the error
    [match] builds for the closing parenthesis, with the input exhausted. *)
Definition unclosed (r : outcome TreeNode * globals) (g : globals) : Prop :=
  ∃ g', r = (Throw (Error (js "Unexpected symbol )")), g')
        ∧ rest g' = [] ∧ pattern g' = pattern g.

(** The operator a quantifier stands for. *)
Definition meta_op (m : MetaChar) : NFA → heap → NFA * heap :=
  match m with
  | Star => closure
  | Plus => oneOrMore
  | Quest => zeroOrOne
  end.

(** Compiling the tree builds a fragment with language [L]. *)
Definition compiled (t : TreeNode) (L : language) : Prop :=
  ∀ h, ∃ R h', toNFAfromParseTree t h = (Ok R, h') ∧ Built h h' R L.

(** Running the tokens of a derivation, one token per code unit of its
    postfix form, pushes its fragment. *)
Definition pushed (ts : jsstring) (L : language) : Prop :=
  ∀ st h, ∃ R h',
    toNFA_loop (chr <$> ts) st h = (R :: st, h') ∧ Built h h' R L.

(** ** Concrete inputs *)

(** The module variables as the source initialises them. *)
Definition g0 : globals := {| pattern := []; pos := 0 |}.

(** The derivation of [(a|b)*c]. *)
Definition ex_star : Expr :=
  ETerm
    (TConcat
       (FMeta
          (AGroup
             (EUnion (TFactor (FAtom (AChar (CLit "a"))))
                (ETerm (TFactor (FAtom (AChar (CLit "b")))))))
          Star)
       (TFactor (FAtom (AChar (CLit "c"))))).

(** The derivation of [a\*]: the literal [a], then the escaped [*]. *)
Definition ex_escape : Expr :=
  ETerm
    (TConcat (FAtom (AChar (CLit "a")))
       (TFactor (FAtom (AChar (CEsc "*"))))).

(** The derivation of [ab|c]. *)
Definition ex_plain : Expr :=
  EUnion
    (TConcat (FAtom (AChar (CLit "a"))) (TFactor (FAtom (AChar (CLit "b")))))
    (ETerm (TFactor (FAtom (AChar (CLit "c"))))).

(** The two code units of U+1F600, a character outside the Basic
    Multilingual Plane, and the derivation of the pattern that is this one
    character: to the parser, two literals. *)
Definition astral : jsstring := [0xD83D; 0xDE00]%N.

Definition ex_astral : Expr :=
  ETerm
    (TConcat (FAtom (AChar (CLit 0xD83D%N)))
       (TFactor (FAtom (AChar (CLit 0xDE00%N))))).

(** The derivation of [ab|c(d*(e]: two groups left open. *)
Definition ex_open_inner : OpenAtom :=
  OAGroup (ETerm (TFactor (FAtom (AChar (CLit "e"))))).

Definition ex_open_outer : OpenAtom :=
  OANest
    (OETerm (OTConcat (FMeta (AChar (CLit "d")) Star) (OTAtom ex_open_inner))).

Definition ex_open : OpenExpr :=
  OEUnion
    (TConcat (FAtom (AChar (CLit "a"))) (TFactor (FAtom (AChar (CLit "b")))))
    (OETerm (OTConcat (FAtom (AChar (CLit "c"))) (OTAtom ex_open_outer))).

(** Two fragments fresh from [fromSymbol], in one heap. *)
Definition ex_A : NFA := fst (fromSymbol (str "a") []).
Definition ex_h1 : heap := snd (fromSymbol (str "a") []).
Definition ex_B : NFA := fst (fromSymbol (str "b") ex_h1).
Definition ex_h2 : heap := snd (fromSymbol (str "b") ex_h1).

(** A fragment that matches each half of the surrogate pair: the union of
    the fragments of the two code units. *)
Definition ex_hi : NFA * heap := fromSymbol (str [0xD83D%N]) [].
Definition ex_lo : NFA * heap := fromSymbol (str [0xDE00%N]) (snd ex_hi).
Definition ex_U : NFA := fst (union (fst ex_hi) (fst ex_lo) (snd ex_lo)).
Definition ex_hU : heap := snd (union (fst ex_hi) (fst ex_lo) (snd ex_lo)).

(** A leaf whose label is [undefined] occurs in the tree. *)
Fixpoint has_undefined (t : TreeNode) : bool :=
  match t with
  | Node l cs =>
      bool_decide (l = undefined)
      || match cs with
         | None => false
         | Some cs => existsb has_undefined cs
         end
  end.

(** ** The matcher module

    [createMatcher] compiles once and returns a closure over the compiled
    automaton.  The closure reads the heap when it is called. *)
Definition createMatcher (exp : jsstring) (g : globals) (h : heap)
  : outcome (jsstring → heap → option bool) * globals * heap :=
  match toNFAFromInfixExp exp g h with
  | (Ok nfa, g, h) => (Ok (λ word h, recognize h nfa word), g, h)
  | (Throw e, g, h) => (Throw e, g, h)
  | (OutOfFuel, g, h) => (OutOfFuel, g, h)
  end.

(** ** More vocabulary *)

(** [h'] is [h] after more allocation: the states of [h] are as they were. *)
Definition extends (h h' : heap) : Prop :=
  length h ≤ length h' ∧ ∀ q, q < length h → same h h' q.

(** The labels of the leaves of a tree, from left to right. *)
Fixpoint leaves (t : TreeNode) : list value :=
  match t with
  | Node l None => [l]
  | Node _ (Some cs) => mjoin (leaves <$> cs)
  end.

(** What [peek] reads at position [i] of a pattern. *)
Definition peek_at (pat : jsstring) (i : nat) : value :=
  match pat !! i with
  | Some c => str (chr c)
  | None => undefined
  end.

(** What the cursor has passed over between two parser states. *)
Definition passed (g g' : globals) : list value :=
  peek_at (pattern g) <$> seq (pos g) (pos g' - pos g).

(** A quantifier character, as a label. *)
Definition meta_label (v : value) : Prop :=
  v = str "*" ∨ v = str "+" ∨ v = str "?".

(** The shapes of the trees the rules of the parser return. *)
Inductive shaped : rule → TreeNode → Prop :=
| shaped_expr1 t :
    shaped RTerm t → shaped RExpr (Node (str "Expr") (Some [t]))
| shaped_expr3 t e :
    shaped RTerm t → shaped RExpr e →
    shaped RExpr (Node (str "Expr") (Some [t; leaf (str "|"); e]))
| shaped_term1 f :
    shaped RFactor f → shaped RTerm (Node (str "Term") (Some [f]))
| shaped_term2 f t :
    shaped RFactor f → shaped RTerm t →
    shaped RTerm (Node (str "Term") (Some [f; t]))
| shaped_factor1 a :
    shaped RAtom a → shaped RFactor (Node (str "Factor") (Some [a]))
| shaped_factor2 a m :
    shaped RAtom a → meta_label m →
    shaped RFactor (Node (str "Factor") (Some [a; leaf m]))
| shaped_atom1 v :
    shaped RAtom
      (Node (str "Atom") (Some [Node (str "Char") (Some [leaf v])]))
| shaped_atom2 v :
    shaped RAtom
      (Node (str "Atom")
         (Some [Node (str "Char") (Some [leaf (str "\"); leaf v])]))
| shaped_atom3 e :
    shaped RExpr e →
    shaped RAtom (Node (str "Atom") (Some [leaf (str "("); e; leaf (str ")")])).

(** Every entry of the stack is made of states at or above [n]. *)
Definition stack_above (n : nat) (h : heap) (st : list NFA) : Prop :=
  ∀ A q, A ∈ st → reach h (start A) q → n ≤ q.

(** * Strings: code units and code points *)

(** Induction that follows the iteration: it moves on by one code unit or
    by two. *)
Lemma jsstring_ind2 (P : jsstring → Prop) :
  P [] → (∀ c, P [c]) →
  (∀ c d s, P s → P (d :: s) → P (c :: d :: s)) →
  ∀ s, P s.
Proof.
  intros H0 H1 H2 s.
  assert (P s ∧ ∀ c, P (c :: s)) as [? _]; [|done].
  induction s as [|d s [IH1 IH2]]; [by split|].
  split; [apply IH2|]. intros c. by apply H2.
Qed.

Lemma codePoints_cons2 c d s :
  codePoints (c :: d :: s)
  = if is_high c && is_low d then [c; d] :: codePoints s
    else [c] :: codePoints (d :: s).
Proof. done. Qed.

Lemma has_pair_cons2 c d s :
  has_pair (c :: d :: s) = (is_high c && is_low d) || has_pair (d :: s).
Proof. done. Qed.

(** The code points of a string, one after the other, are the string. *)
Lemma mjoin_codePoints s : mjoin (codePoints s) = s.
Proof.
  induction s as [|c|c d s IH1 IH2] using jsstring_ind2; [done..|].
  rewrite codePoints_cons2. destruct (is_high c && is_low d).
  - change (c :: d :: mjoin (codePoints s) = c :: d :: s). by rewrite IH1.
  - change (c :: mjoin (codePoints (d :: s)) = c :: d :: s). by rewrite IH2.
Qed.

Lemma mjoin_chr (w : jsstring) : mjoin (chr <$> w) = w.
Proof.
  induction w as [|c w IH]; [done|].
  change (c :: mjoin (chr <$> w) = c :: w). by f_equal.
Qed.

Lemma codePoints_nil s : codePoints s = [] ↔ s = [].
Proof.
  split; [|by intros ->]. intros E.
  by rewrite <- (mjoin_codePoints s), E.
Qed.

(** Iteration yields strings of one or two code units. *)
Lemma codePoints_short s :
  Forall (λ u, 1 ≤ length u ≤ 2) (codePoints s).
Proof.
  induction s as [|c|c d s IH1 IH2] using jsstring_ind2.
  - constructor.
  - repeat constructor.
  - rewrite codePoints_cons2. destruct (is_high c && is_low d);
      constructor; simpl; auto; lia.
Qed.

Lemma length_codePoints s : length (codePoints s) ≤ length s.
Proof.
  induction s as [|c|c d s IH1 IH2] using jsstring_ind2; [done..|].
  rewrite codePoints_cons2. destruct (is_high c && is_low d); simpl in *; lia.
Qed.

(** Iteration yields a string code unit by code unit exactly when the
    string has no surrogate pair. *)
Lemma codePoints_units s : codePoints s = chr <$> s ↔ has_pair s = false.
Proof.
  induction s as [|c|c d s IH1 IH2] using jsstring_ind2; [done..|].
  rewrite codePoints_cons2, has_pair_cons2.
  destruct (is_high c && is_low d).
  - split; [|done]. rewrite !fmap_cons. by intros [=].
  - rewrite orb_false_l, <- IH2, fmap_cons.
    split; [by intros [= ?]|by intros ->].
Qed.

Lemma codePoints_chr_inv s w : codePoints s = chr <$> w → s = w.
Proof.
  intros E. by rewrite <- (mjoin_codePoints s), E, mjoin_chr.
Qed.

(** The words of single code units the iteration of a string can yield. *)
Lemma units_codePoints (L : jsstring → Prop) s :
  units L (codePoints s) ↔ L s ∧ has_pair s = false.
Proof.
  unfold units. split.
  - intros (w & Hw & E). pose proof (codePoints_chr_inv _ _ E) as ->.
    split; [done|]. by apply codePoints_units.
  - intros [HL Hp%codePoints_units]. by exists s.
Qed.

(** A string without low surrogates is read code unit by code unit,
    whatever precedes it. *)
Lemma codePoints_app_units u v :
  Forall (λ c, is_low c = false) v →
  codePoints (u ++ v) = codePoints u ++ (chr <$> v).
Proof.
  intros Hv.
  assert (codePoints v = chr <$> v) as Hv'.
  { clear u. induction v as [|c|c d s IH1 IH2] using jsstring_ind2; [done..|].
    rewrite codePoints_cons2.
    apply Forall_cons in Hv as [_ Hv]. pose proof Hv as [-> _]%Forall_cons.
    rewrite andb_false_r, fmap_cons. f_equal. by apply IH2. }
  rewrite <- Hv'. clear Hv'.
  induction u as [|c|c d s IH1 IH2] using jsstring_ind2.
  - done.
  - destruct v as [|d v]; [done|].
    change (codePoints (c :: d :: v) = [c] :: codePoints (d :: v)).
    rewrite codePoints_cons2. apply Forall_cons in Hv as [-> _].
    by rewrite andb_false_r.
  - simpl app. rewrite !codePoints_cons2.
    destruct (is_high c && is_low d); simpl app; f_equal; [exact IH1|exact IH2].
Qed.

(** ** Splitting a string where its code points split *)

Lemma codePoints_app_inv us1 : ∀ s us2,
  codePoints s = us1 ++ us2 →
  ∃ s1 s2, s = s1 ++ s2 ∧ codePoints s1 = us1 ∧ codePoints s2 = us2.
Proof.
  induction us1 as [|u us1 IH]; intros s us2 E.
  { by exists [], s. }
  destruct s as [|c [|d s]].
  - done.
  - change (codePoints [c]) with [[c]] in E. simpl in E. injection E as <- E.
    symmetry in E. apply app_eq_nil in E as [-> ->]. by exists [c], [].
  - rewrite codePoints_cons2 in E.
    destruct (is_high c && is_low d) eqn:Hp; simpl in E; injection E as <- E.
    + destruct (IH _ _ E) as (s1 & s2 & -> & <- & <-).
      exists (c :: d :: s1), s2. split; [done|]. split; [|done].
      by rewrite codePoints_cons2, Hp.
    + destruct (IH _ _ E) as (s1 & s2 & Es & <- & <-).
      exists (c :: s1), s2. split; [simpl; by rewrite Es|]. split; [|done].
      destruct s1 as [|d' s1]; [done|]. injection Es as <- _.
      by rewrite codePoints_cons2, Hp.
Qed.

Lemma codePoints_join_inv uss : ∀ s,
  codePoints s = mjoin uss →
  ∃ ws, s = mjoin ws ∧ codePoints <$> ws = uss.
Proof.
  induction uss as [|us uss IH]; intros s E; simpl in E.
  - apply codePoints_nil in E as ->. by exists [].
  - destruct (codePoints_app_inv _ _ _ E) as (s1 & s2 & -> & <- & E2).
    destruct (IH _ E2) as (ws & -> & <-). by exists (s1 :: ws).
Qed.

(** ** Languages of strings as languages of one-unit symbols *)

Lemma units_eps us : units lang_eps us ↔ lang_eps us.
Proof.
  unfold units, lang_eps. split.
  - by intros (w & -> & ->).
  - intros ->. by exists [].
Qed.

Lemma units_sym c us : units (lang_sym c) us ↔ lang_sym (chr c) us.
Proof.
  unfold units, lang_sym. split.
  - by intros (w & -> & ->).
  - intros ->. by exists [c].
Qed.

Lemma units_union L1 L2 us :
  units (lang_union L1 L2) us ↔ lang_union (units L1) (units L2) us.
Proof.
  unfold units, lang_union. split.
  - intros (w & [H|H] & ->); [left|right]; by exists w.
  - intros [(w & H & ->)|(w & H & ->)]; exists w; auto.
Qed.

Lemma units_concat L1 L2 us :
  units (lang_concat L1 L2) us ↔ lang_concat (units L1) (units L2) us.
Proof.
  unfold units, lang_concat. split.
  - intros (w & (u & v & -> & Hu & Hv) & ->).
    exists (chr <$> u), (chr <$> v). rewrite fmap_app.
    split; [done|]. split; [by exists u|by exists v].
  - intros (us1 & us2 & -> & (u & Hu & ->) & (v & Hv & ->)).
    exists (u ++ v). rewrite fmap_app. split; [|done]. by exists u, v.
Qed.

Lemma units_Forall L uss :
  Forall (units L) uss ↔ ∃ ws, Forall L ws ∧ uss = fmap (M:=list) chr <$> ws.
Proof.
  split.
  - induction 1 as [|us uss (w & Hw & ->) _ (ws & Hws & ->)].
    + by exists [].
    + exists (w :: ws). split; [by constructor|done].
  - intros (ws & Hws & ->). induction Hws as [|w ws Hw _ IH]; [constructor|].
    rewrite fmap_cons. constructor; [by exists w|done].
Qed.

Lemma fmap_chr_join (ws : list jsstring) :
  chr <$> mjoin ws = mjoin (fmap (M:=list) chr <$> ws).
Proof.
  induction ws as [|w ws IH]; [done|].
  rewrite fmap_cons. simpl. by rewrite fmap_app, IH.
Qed.

Lemma units_star L us : units (lang_star L) us ↔ lang_star (units L) us.
Proof.
  unfold lang_star. setoid_rewrite units_Forall. unfold units. split.
  - intros (w & (ws & -> & Hws) & ->). exists (fmap (M:=list) chr <$> ws).
    split; [apply fmap_chr_join|]. by exists ws.
  - intros (uss & -> & ws & Hws & ->). exists (mjoin ws).
    split; [by exists ws|]. by rewrite fmap_chr_join.
Qed.

Lemma units_plus L us : units (lang_plus L) us ↔ lang_plus (units L) us.
Proof.
  unfold lang_plus. setoid_rewrite units_Forall. unfold units. split.
  - intros (w & (ws & Hne & -> & Hws) & ->). exists (fmap (M:=list) chr <$> ws).
    split; [by destruct ws|]. split; [apply fmap_chr_join|]. by exists ws.
  - intros (uss & Hne & -> & ws & Hws & ->). exists (mjoin ws).
    split; [|by rewrite fmap_chr_join]. exists ws.
    split; [by destruct ws|done].
Qed.

Lemma units_opt L us : units (lang_opt L) us ↔ lang_opt (units L) us.
Proof.
  unfold lang_opt, units. split.
  - intros (w & [->|H] & ->); [by left|right; by exists w].
  - intros [->|(w & H & ->)]; [exists []|exists w]; auto.
Qed.

Lemma units_meta m L us :
  units (den_meta m L) us ↔ den_meta m (units L) us.
Proof.
  destruct m; [apply units_star|apply units_plus|apply units_opt].
Qed.

(** * The simulation computes the accepted words *)

Section filter_length.
Context {A : Type} (P Q : A → Prop).
Context `{!∀ x, Decision (P x)} `{!∀ x, Decision (Q x)}.

Lemma filter_length_mono (l : list A) :
  (∀ x, P x → Q x) → length (filter P l) ≤ length (filter Q l).
Proof.
  intros HPQ. induction l as [|a l IH]; [done|].
  rewrite !filter_cons.
  destruct (decide (P a)) as [Hp|Hp], (decide (Q a)) as [Hq|Hq]; simpl; try lia.
  exfalso; auto.
Qed.

Lemma filter_length_strict (l : list A) (x : A) :
  (∀ x, P x → Q x) → x ∈ l → Q x → ¬ P x →
  length (filter P l) < length (filter Q l).
Proof.
  intros HPQ Hin Hq Hp. induction l as [|a l IH]; [by apply elem_of_nil in Hin|].
  rewrite !filter_cons. apply elem_of_cons in Hin as [<-|Hin].
  - rewrite decide_False, decide_True by done. simpl.
    pose proof (filter_length_mono l HPQ). lia.
  - specialize (IH Hin).
    destruct (decide (P a)), (decide (Q a)); simpl; try lia.
    exfalso; auto.
Qed.
End filter_length.

Lemma unmarked_mono h vis vis' :
  (∀ x, x ∈ vis → x ∈ vis') → unmarked h vis' ≤ unmarked h vis.
Proof. intros Hin. apply filter_length_mono. naive_solver. Qed.

Lemma unmarked_push h vis st :
  st < length h → st ∉ vis → unmarked h (vis ++ [st]) < unmarked h vis.
Proof.
  intros Hlt Hnin. apply (filter_length_strict _ _ _ st).
  - intros x Hx Hx'. apply Hx. apply elem_of_app. by left.
  - apply elem_of_seq. lia.
  - done.
  - intros Hx. apply Hx. apply elem_of_app. right. by apply list_elem_of_singleton.
Qed.

Lemma unmarked_nil h : unmarked h [] = length h.
Proof.
  unfold unmarked. transitivity (length (seq 0 (length h))); [|apply length_seq].
  f_equal. induction (seq 0 (length h)) as [|a l IH]; [done|].
  rewrite filter_cons, decide_True by apply not_elem_of_nil. by f_equal.
Qed.

Lemma eps_valid h q : eps h q ≠ [] → q < length h.
Proof.
  unfold eps. destruct (h !! q) eqn:E; [|done].
  intros _. by eapply lookup_lt_Some.
Qed.

Lemma trans_valid h q k r : trans h q k = Some r → q < length h.
Proof.
  unfold trans. destruct (h !! q) eqn:E; [|done].
  intros _. by eapply lookup_lt_Some.
Qed.

(** ** Termination: the fuel of [closure_fuel] is enough *)

Lemma visit_fold_total (rec : ref → list ref → list ref → option (list ref * list ref))
    (P : list ref → Prop) (targets : list ref) :
  (∀ vis vis', P vis → (∀ x, x ∈ vis → x ∈ vis') → P vis') →
  (∀ st ns vis, P vis → st ∉ vis →
     ∃ ns' vis', rec st ns (vis ++ [st]) = Some (ns', vis')
                 ∧ ∀ x, x ∈ vis → x ∈ vis') →
  ∀ ns vis, P vis →
    ∃ ns' vis', foldl (visit rec) (Some (ns, vis)) targets = Some (ns', vis')
                ∧ ∀ x, x ∈ vis → x ∈ vis'.
Proof.
  intros HP Hrec. induction targets as [|st targets IH]; intros ns vis Hvis; simpl.
  - eauto.
  - unfold found. case_bool_decide as Hf.
    + by apply IH.
    + destruct (Hrec st ns vis Hvis Hf) as (ns1 & vis1 & -> & Hsub).
      destruct (IH ns1 vis1) as (ns2 & vis2 & -> & Hsub2); [by eapply HP|].
      exists ns2, vis2. split; [done|]. intros x Hx. by apply Hsub2, Hsub.
Qed.

Lemma addNextState_total fuel h s ns vis :
  1 ≤ fuel → (eps h s ≠ [] → unmarked h vis + 2 ≤ fuel) →
  ∃ ns' vis', addNextState fuel h s ns vis = Some (ns', vis')
              ∧ ∀ x, x ∈ vis → x ∈ vis'.
Proof.
  revert s ns vis. induction fuel as [|fuel IH]; intros s ns vis Hf Hfuel; [lia|].
  simpl. destruct (eps h s) as [|t0 ts] eqn:E; [by eexists _, _|].
  assert (unmarked h vis + 2 ≤ S fuel) as Hu by (apply Hfuel; done).
  apply (visit_fold_total _ (λ v, unmarked h v + 1 ≤ fuel)).
  - intros v v' Hv Hsub. pose proof (unmarked_mono h v v' Hsub). lia.
  - intros st ns1 vis1 Hv Hnin. simpl in Hv.
    destruct (IH st ns1 (vis1 ++ [st])) as (ns' & vis' & -> & Hsub); [lia| |].
    + intros Hne. apply eps_valid in Hne.
      pose proof (unmarked_push h vis1 st Hne Hnin). lia.
    + eexists _, _. split; [done|]. intros x Hx. apply Hsub, elem_of_app. by left.
  - lia.
Qed.

Lemma addNextState_closure_fuel h s ns :
  ∃ ns' vis', addNextState (closure_fuel h) h s ns [] = Some (ns', vis').
Proof.
  destruct (addNextState_total (closure_fuel h) h s ns []) as (ns' & vis' & ? & _).
  - unfold closure_fuel. lia.
  - intros _. rewrite unmarked_nil. unfold closure_fuel. lia.
  - eauto.
Qed.

(** ** What [addNextState] adds *)

Lemma visit_fold_None rec targets : foldl (visit rec) None targets = None.
Proof. induction targets; simpl; auto. Qed.

Lemma visit_fold_spec h rec (targets : list ref) :
  (∀ st ns vis ns' vis',
     rec st ns vis = Some (ns', vis') →
     expanded h (eq st) ns vis ns' vis'
     ∧ (eps h st = [] → st ∈ ns') ∧ (∀ u, u ∈ eps h st → u ∈ vis')) →
  ∀ ns vis ns' vis',
    foldl (visit rec) (Some (ns, vis)) targets = Some (ns', vis') →
    expanded h (λ r, r ∈ targets) ns vis ns' vis'
    ∧ (∀ u, u ∈ targets → u ∈ vis').
Proof.
  intros Hrec. induction targets as [|st targets IH]; intros ns vis ns' vis'; simpl.
  - intros [= <- <-]. split; [|by intros u ?%elem_of_nil].
    repeat split; auto; done.
  - unfold found. case_bool_decide as Hf.
    + intros Hfold. destruct (IH _ _ _ _ Hfold) as [(Hv & Hn & Hs & Hnew) Hts].
      split.
      * repeat split; auto; try (by apply Hnew).
        intros t Ht. destruct (Hs t Ht) as [?|(r & Hr & Hc)]; [by left|].
        right. exists r. split; [by apply elem_of_cons; right|done].
      * intros u [->|Hu]%elem_of_cons; auto.
    + destruct (rec st ns (vis ++ [st])) as [[ns1 vis1]|] eqn:Erec;
        [|by rewrite visit_fold_None].
      intros Hfold.
      destruct (Hrec _ _ _ _ _ Erec) as [(Hv1 & Hn1 & Hs1 & Hnew1) [Hr1 Hr2]].
      destruct (IH _ _ _ _ Hfold) as [(Hv & Hn & Hs & Hnew) Hts].
      assert (st ∈ vis1) as Hst.
      { apply Hv1, elem_of_app. right. by apply list_elem_of_singleton. }
      split.
      * split; [|split; [|split]].
        -- intros x Hx. apply Hv, Hv1, elem_of_app. by left.
        -- auto.
        -- intros t Ht. destruct (Hs t Ht) as [Ht1|(r & Hr & Hc)].
           ++ destruct (Hs1 t Ht1) as [?|(r & <- & Hc)]; [by left|].
              right. exists st. split; [by apply elem_of_cons; left|done].
           ++ right. exists r. split; [by apply elem_of_cons; right|done].
        -- intros v Hv' Hnv. destruct (decide (v ∈ vis1)) as [Hin|Hnin].
           ++ destruct (decide (v = st)) as [->|Hne].
              ** split; [auto|]. intros u Hu. auto.
              ** destruct (Hnew1 v Hin) as [Ha Hb].
                 { intros [?|?%list_elem_of_singleton]%elem_of_app; done. }
                 split; [auto|]. intros u Hu. auto.
           ++ by apply Hnew.
      * intros u [->|Hu]%elem_of_cons; auto.
Qed.

Lemma addNextState_spec fuel h : ∀ s ns vis ns' vis',
  addNextState fuel h s ns vis = Some (ns', vis') →
  expanded h (eq s) ns vis ns' vis'
  ∧ (eps h s = [] → s ∈ ns') ∧ (∀ u, u ∈ eps h s → u ∈ vis').
Proof.
  induction fuel as [|fuel IH]; intros s ns vis ns' vis'; [done|].
  simpl. destruct (eps h s) as [|t0 ts] eqn:E.
  - intros [= <- <-]. split; [|split].
    + split; [auto|split; [|split]].
      * intros x Hx. apply elem_of_app. by left.
      * intros t [Ht|Ht%list_elem_of_singleton]%elem_of_app; [by left|subst t].
        right. exists s. split; [done|]. split; [apply rtc_refl|done].
      * done.
    + intros _. apply elem_of_app. right. by apply list_elem_of_singleton.
    + by intros u ?%elem_of_nil.
  - intros Hfold.
    destruct (visit_fold_spec h _ _ IH _ _ _ _ Hfold) as [(Hv & Hn & Hs & Hnew) Hts].
    split; [|split; [done|auto]].
    split; [auto|split; [auto|split; [|auto]]].
    intros t Ht. destruct (Hs t Ht) as [?|(r & Hr & Hrt & Hnil)]; [by left|].
    right. exists s. split; [done|]. split; [|done].
    eapply rtc_l; [|done]. unfold estep. by rewrite E.
Qed.

(** A call with an empty [visited] adds exactly the closure of [s]. *)
Lemma addNextState_closure fuel h s ns ns' vis' :
  addNextState fuel h s ns [] = Some (ns', vis') →
  ∀ t, t ∈ ns' ↔ t ∈ ns ∨ eclosure h s t.
Proof.
  intros Hcall.
  destruct (addNextState_spec _ _ _ _ _ _ _ Hcall) as [(Hv & Hn & Hs & Hnew) [Hr1 Hr2]].
  intros t. split.
  - intros Ht. destruct (Hs t Ht) as [?|(r & <- & ?)]; auto.
  - intros [Ht|[Hrtc Hnil]]; [auto|].
    assert (∀ v, rtc (estep h) v t → v = s ∨ v ∈ vis' → t ∈ ns') as Hgo.
    { clear Hrtc. intros v Hrtc. induction Hrtc as [v|v u t Hstep Hrtc IH].
      - intros [->|Hin]; [auto|].
        destruct (Hnew v) as [Ha _]; [done|apply not_elem_of_nil|auto].
      - intros [->|Hin]; apply IH; try done; right.
        + by apply Hr2.
        + destruct (Hnew v) as [_ Hb]; [done|apply not_elem_of_nil|auto]. }
    apply (Hgo s); auto.
Qed.

Lemma eclosure_eps h s t : eclosure h s t → eps h t = [].
Proof. by intros [_ ?]. Qed.

(** ** The loop over the word *)

Lemma search_state_fold_None h c S : foldl (search_state h c) None S = None.
Proof. induction S; simpl; auto. Qed.

Lemma search_state_fold_total h c S : ∀ ns,
  ∃ ns', foldl (search_state h c) (Some ns) S = Some ns'.
Proof.
  induction S as [|q S IH]; intros ns; simpl; [eauto|].
  destruct (trans h q c) as [q'|]; [|apply IH].
  destruct (addNextState_closure_fuel h q' ns) as (ns1 & vis1 & ->). simpl. apply IH.
Qed.

Lemma search_state_fold_spec h c S : ∀ ns ns',
  foldl (search_state h c) (Some ns) S = Some ns' →
  ∀ t, t ∈ ns' ↔
       t ∈ ns ∨ ∃ q q', q ∈ S ∧ trans h q c = Some q' ∧ eclosure h q' t.
Proof.
  induction S as [|q S IH]; intros ns ns'; simpl.
  - intros [= <-] t. split; [auto|]. intros [?|(q & q' & []%elem_of_nil & _)]. done.
  - destruct (trans h q c) as [q'|] eqn:Et.
    + destruct (addNextState (closure_fuel h) h q' ns []) as [[ns1 vis1]|] eqn:Ec;
        simpl; [|by rewrite search_state_fold_None].
      intros Hfold t. rewrite (IH _ _ Hfold t), (addNextState_closure _ _ _ _ _ _ Ec t).
      split.
      * intros [[?|?]|(q1 & q1' & ? & ? & ?)]; [by left| |].
        -- right. exists q, q'. split; [by apply elem_of_cons; left|done].
        -- right. exists q1, q1'. split; [by apply elem_of_cons; right|done].
      * intros [?|(q1 & q1' & [->|?]%elem_of_cons & Ht1 & ?)]; [by left; left| |].
        -- left; right. congruence.
        -- right. by exists q1, q1'.
    + intros Hfold t. rewrite (IH _ _ Hfold t). split.
      * intros [?|(q1 & q1' & ? & ? & ?)]; [by left|].
        right. exists q1, q1'. split; [by apply elem_of_cons; right|done].
      * intros [?|(q1 & q1' & [->|?]%elem_of_cons & Ht1 & ?)]; [by left|congruence|].
        right. by exists q1, q1'.
Qed.

Lemma search_loop_total h w : ∀ S, ∃ S', search_loop h w S = Some S'.
Proof.
  induction w as [|c w IH]; intros S; simpl; [eauto|].
  destruct (search_state_fold_total h c S []) as [ns ->]. apply IH.
Qed.

Lemma search_loop_spec h w : ∀ S S',
  search_loop h w S = Some S' →
  ∀ t, t ∈ S' ↔ ∃ q, q ∈ S ∧ prun h q w t.
Proof.
  induction w as [|c w IH]; intros S S'; simpl.
  - intros [= <-] t. split; [eauto|]. by intros (q & ? & ->).
  - destruct (foldl (search_state h c) (Some []) S) as [ns|] eqn:Ef; [|done].
    intros Hloop t. rewrite (IH _ _ Hloop t). split.
    + intros (q'' & Hq'' & Hrun).
      apply (search_state_fold_spec _ _ _ _ _ Ef) in Hq''
        as [[]%elem_of_nil|(q & q' & ? & ? & ?)].
      exists q. split; [done|]. by exists q', q''.
    + intros (q & Hq & q' & q'' & ? & ? & ?). exists q''. split; [|done].
      apply (search_state_fold_spec _ _ _ _ _ Ef). right. by exists q, q'.
Qed.

(** ** Runs and the sets the simulation keeps *)

Lemma run_rtc h a b w t : rtc (estep h) a b → run h b w t → run h a w t.
Proof.
  induction 1 as [|a a' b Hstep _ IH]; [done|].
  intros Hrun. eapply run_eps; [exact Hstep|auto].
Qed.

Lemma run_app h q w1 m w2 t :
  run h q w1 m → run h m w2 t → run h q (w1 ++ w2) t.
Proof.
  induction 1; intros; simpl; [done|..].
  - eapply run_eps; eauto.
  - eapply run_sym; eauto.
Qed.

Lemma run_prun h s w t :
  run h s w t → eps h t = [] → ∃ q, eclosure h s q ∧ prun h q w t.
Proof.
  induction 1 as [q|q q' w t Hstep Hrun IH|q c q' w t Hnil Htr Hrun IH]; intros Ht.
  - exists q. split; [|done]. split; [apply rtc_refl|done].
  - destruct (IH Ht) as (p & [Hrtc Hp] & Hprun). exists p. split; [|done].
    split; [|done]. by eapply rtc_l.
  - destruct (IH Ht) as (p & Hcl & Hprun). exists q. split.
    + split; [apply rtc_refl|done].
    + simpl. by exists q', p.
Qed.

Lemma prun_run h w : ∀ q t,
  prun h q w t → eps h q = [] → run h q w t ∧ eps h t = [].
Proof.
  induction w as [|c w IH]; intros q t; simpl.
  - intros <- Hq. split; [constructor|done].
  - intros (q' & q'' & Htr & [Hrtc Hq''] & Hprun) Hq.
    destruct (IH _ _ Hprun Hq'') as [Hrun Ht]. split; [|done].
    eapply run_sym; [done..|]. by eapply run_rtc.
Qed.

(** ** [search] decides acceptance, on every heap *)

Lemma search_spec h nfa w :
  ∃ b, search h nfa w = Some b
       ∧ (b = true ↔ accepts h (start nfa) (codePoints w)).
Proof.
  unfold search.
  destruct (addNextState_closure_fuel h (start nfa) []) as (S0 & vis0 & Hinit).
  rewrite Hinit.
  destruct (search_loop_total h (codePoints w) S0) as [S' Hloop]. rewrite Hloop.
  eexists. split; [done|].
  pose proof (addNextState_closure _ _ _ _ _ _ Hinit) as HS0.
  pose proof (search_loop_spec _ _ _ _ Hloop) as HS'.
  rewrite existsb_exists. split.
  - intros (t & Hin%list_elem_of_In & Hfin).
    apply HS' in Hin as (q & Hq & Hprun).
    apply HS0 in Hq as [[]%elem_of_nil|[Hrtc Hq]].
    destruct (prun_run _ _ _ _ Hprun Hq) as [Hrun Ht].
    exists t. split; [|done]. by eapply run_rtc.
  - intros (t & Hrun & Ht & Hfin).
    destruct (run_prun _ _ _ _ Hrun Ht) as (q & Hcl & Hprun).
    exists t. split; [|done]. apply list_elem_of_In, HS'.
    exists q. split; [|done]. apply HS0. by right.
Qed.

Lemma recognize_spec h nfa w :
  ∃ b, recognize h nfa w = Some b
       ∧ (b = true ↔ accepts h (start nfa) (codePoints w)).
Proof. apply search_spec. Qed.

Lemma recognize_true h nfa w :
  recognize h nfa w = Some true ↔ accepts h (start nfa) (codePoints w).
Proof.
  destruct (recognize_spec h nfa w) as (b & -> & Hb). split.
  - intros [= ->]. by apply Hb.
  - intros Ha. f_equal. by apply Hb.
Qed.

Lemma recognize_false h nfa w :
  recognize h nfa w = Some false ↔ ¬ accepts h (start nfa) (codePoints w).
Proof.
  destruct (recognize_spec h nfa w) as (b & -> & Hb). split.
  - intros [= ->] Ha. by apply Hb in Ha.
  - intros Ha. f_equal. destruct b; [|done]. exfalso. by apply Ha, Hb.
Qed.

(** * Reading the heap after the state primitives *)

Lemma eps_alloc b h q :
  eps (h ++ [{| isEnd := b; transition := ∅; epsilonTransitions := [] |}]) q
  = eps h q.
Proof.
  unfold eps. destruct (decide (q < length h)) as [Hlt|Hge].
  - by rewrite lookup_app_l.
  - rewrite lookup_app_r, (lookup_ge_None_2 h q) by lia.
    by destruct (q - length h) as [|[|?]].
Qed.

Lemma trans_alloc b h q k :
  trans (h ++ [{| isEnd := b; transition := ∅; epsilonTransitions := [] |}]) q k
  = trans h q k.
Proof.
  unfold trans. destruct (decide (q < length h)) as [Hlt|Hge].
  - by rewrite lookup_app_l.
  - rewrite lookup_app_r, (lookup_ge_None_2 h q) by lia.
    by destruct (q - length h) as [|[|?]].
Qed.

Lemma final_alloc b h q :
  final (h ++ [{| isEnd := b; transition := ∅; epsilonTransitions := [] |}]) q
  = if decide (q = length h) then b else final h q.
Proof.
  unfold final. destruct (decide (q < length h)) as [Hlt|Hge].
  - rewrite lookup_app_l, decide_False by lia. done.
  - rewrite lookup_app_r, (lookup_ge_None_2 h q) by lia.
    case_decide as Hq.
    + by replace (q - length h) with 0 by lia.
    + by destruct (q - length h) as [|[|?]] eqn:E; [lia|..].
Qed.

Lemma eps_addEps a b h q :
  eps (addEpsilonTransition a b h) q
  = if decide (q = a ∧ a < length h) then eps h q ++ [b] else eps h q.
Proof.
  unfold eps, addEpsilonTransition. destruct (decide (a = q)) as [->|Hne].
  - rewrite list_lookup_alter_eq. destruct (h !! q) eqn:E; simpl.
    + apply lookup_lt_Some in E. by rewrite decide_True.
    + apply lookup_ge_None in E. rewrite decide_False by lia. done.
  - rewrite list_lookup_alter_ne by done. rewrite decide_False by (intros [? _]; congruence). done.
Qed.

Lemma trans_addEps a b h q k :
  trans (addEpsilonTransition a b h) q k = trans h q k.
Proof.
  unfold trans, addEpsilonTransition. destruct (decide (a = q)) as [->|Hne].
  - rewrite list_lookup_alter_eq. by destruct (h !! q).
  - by rewrite list_lookup_alter_ne.
Qed.

Lemma final_addEps a b h q :
  final (addEpsilonTransition a b h) q = final h q.
Proof.
  unfold final, addEpsilonTransition. destruct (decide (a = q)) as [->|Hne].
  - rewrite list_lookup_alter_eq. by destruct (h !! q).
  - by rewrite list_lookup_alter_ne.
Qed.

Lemma length_addEps a b h : length (addEpsilonTransition a b h) = length h.
Proof. apply length_alter. Qed.

Lemma eps_clearEnd a h q : eps (clearEnd a h) q = eps h q.
Proof.
  unfold eps, clearEnd. destruct (decide (a = q)) as [->|Hne].
  - rewrite list_lookup_alter_eq. by destruct (h !! q).
  - by rewrite list_lookup_alter_ne.
Qed.

Lemma trans_clearEnd a h q k : trans (clearEnd a h) q k = trans h q k.
Proof.
  unfold trans, clearEnd. destruct (decide (a = q)) as [->|Hne].
  - rewrite list_lookup_alter_eq. by destruct (h !! q).
  - by rewrite list_lookup_alter_ne.
Qed.

Lemma final_clearEnd a h q :
  final (clearEnd a h) q = if decide (q = a) then false else final h q.
Proof.
  unfold final, clearEnd. destruct (decide (a = q)) as [->|Hne].
  - rewrite list_lookup_alter_eq, decide_True by done. by destruct (h !! q).
  - rewrite list_lookup_alter_ne, decide_False by done. done.
Qed.

Lemma length_clearEnd a h : length (clearEnd a h) = length h.
Proof. apply length_alter. Qed.

Lemma eps_addTransition a b v h q :
  eps (addTransition a b v h) q = eps h q.
Proof.
  unfold eps, addTransition. destruct (decide (a = q)) as [->|Hne].
  - rewrite list_lookup_alter_eq. by destruct (h !! q).
  - by rewrite list_lookup_alter_ne.
Qed.

Lemma trans_addTransition a b v h q k :
  trans (addTransition a b v h) q k
  = if decide (q = a ∧ a < length h ∧ k = toString v) then Some b
    else trans h q k.
Proof.
  unfold trans, addTransition. destruct (decide (a = q)) as [->|Hne].
  - rewrite list_lookup_alter_eq. destruct (h !! q) eqn:E; simpl.
    + apply lookup_lt_Some in E. destruct (decide (k = toString v)) as [->|Hk].
      * rewrite decide_True by done. apply lookup_insert_eq.
      * rewrite decide_False by (intros (_ & _ & ?); congruence). by apply lookup_insert_ne.
    + apply lookup_ge_None in E. rewrite decide_False; [done|]. lia.
  - rewrite list_lookup_alter_ne by done. rewrite decide_False by (intros [? _]; congruence). done.
Qed.

Lemma final_addTransition a b v h q :
  final (addTransition a b v h) q = final h q.
Proof.
  unfold final, addTransition. destruct (decide (a = q)) as [->|Hne].
  - rewrite list_lookup_alter_eq. by destruct (h !! q).
  - by rewrite list_lookup_alter_ne.
Qed.

Lemma length_addTransition a b v h : length (addTransition a b v h) = length h.
Proof. apply length_alter. Qed.

Lemma eps_invalid h q : length h ≤ q → eps h q = [].
Proof. intros. unfold eps. by rewrite lookup_ge_None_2. Qed.

Lemma trans_invalid h q k : length h ≤ q → trans h q k = None.
Proof. intros. unfold trans. by rewrite lookup_ge_None_2. Qed.

Lemma final_invalid h q : length h ≤ q → final h q = false.
Proof. intros. unfold final. by rewrite lookup_ge_None_2. Qed.

Lemma length_alloc (x : FA_State) h : length (h ++ [x]) = S (length h).
Proof. rewrite length_app. simpl. lia. Qed.

(** Rewriting the observations of a heap built by the primitives down to
    observations of the heap it was built from. *)
Ltac obs :=
  repeat first
    [ rewrite eps_addEps | rewrite trans_addEps | rewrite final_addEps
    | rewrite length_addEps
    | rewrite eps_clearEnd | rewrite trans_clearEnd | rewrite final_clearEnd
    | rewrite length_clearEnd
    | rewrite eps_addTransition | rewrite trans_addTransition
    | rewrite final_addTransition | rewrite length_addTransition
    | rewrite eps_alloc | rewrite trans_alloc | rewrite final_alloc
    | rewrite length_alloc ].

(** ... and deciding the case distinctions this leaves. *)
Ltac obs_cases :=
  intros; obs; repeat case_decide; destruct_and?; destruct_or?; subst; try lia;
  rewrite ?eps_invalid, ?final_invalid by lia;
  rewrite <- ?app_assoc, ?app_nil_r;
  simpl; try done;
  try (exfalso;
       match goal with
       | H : ¬ _ |- _ => apply H; clear H; intuition (try lia; try congruence)
       end).

(** * Reading the heap after the fragment operators *)

Lemma fromEpsilon_obs h :
  let '(R, h') := fromEpsilon h in
  start R = length h ∧ end_ R = S (length h) ∧ length h' = S (S (length h)) ∧
  (∀ q, eps h' q = if decide (q = length h) then [S (length h)] else eps h q) ∧
  (∀ q k, trans h' q k = trans h q k) ∧
  (∀ q, final h' q = if decide (q = S (length h)) then true
                     else if decide (q = length h) then false else final h q).
Proof.
  unfold fromEpsilon, createState. simpl. repeat split.
  all: obs_cases.
Qed.

Lemma fromSymbol_obs v h :
  let '(R, h') := fromSymbol v h in
  start R = length h ∧ end_ R = S (length h) ∧ length h' = S (S (length h)) ∧
  (∀ q, eps h' q = eps h q) ∧
  (∀ q k, trans h' q k = if decide (q = length h ∧ k = toString v)
                         then Some (S (length h)) else trans h q k) ∧
  (∀ q, final h' q = if decide (q = S (length h)) then true
                     else if decide (q = length h) then false else final h q).
Proof.
  unfold fromSymbol, createState. simpl. repeat split.
  all: obs_cases.
Qed.

Lemma concat_obs A B h :
  end_ A < length h →
  let '(R, h') := concat A B h in
  start R = start A ∧ end_ R = end_ B ∧ length h' = length h ∧
  (∀ q, eps h' q = eps h q ++ if decide (q = end_ A) then [start B] else []) ∧
  (∀ q k, trans h' q k = trans h q k) ∧
  (∀ q, final h' q = if decide (q = end_ A) then false else final h q).
Proof.
  intros HA. unfold concat. simpl. repeat split.
  all: obs_cases.
Qed.

Lemma union_obs A B h :
  end_ A < length h → end_ B < length h →
  let '(R, h') := union A B h in
  start R = length h ∧ end_ R = S (length h) ∧ length h' = S (S (length h)) ∧
  (∀ q, eps h' q =
        if decide (q = length h) then [start A; start B]
        else eps h q ++ (if decide (q = end_ A) then [S (length h)] else [])
                     ++ (if decide (q = end_ B) then [S (length h)] else [])) ∧
  (∀ q k, trans h' q k = trans h q k) ∧
  (∀ q, final h' q = if decide (q = S (length h)) then true
                     else if decide (q = end_ A ∨ q = end_ B) then false
                     else final h q).
Proof.
  intros HA HB. unfold union, createState. simpl. repeat split.
  all: obs_cases.
Qed.

Lemma closure_obs A h :
  end_ A < length h →
  let '(R, h') := closure A h in
  start R = length h ∧ end_ R = S (length h) ∧ length h' = S (S (length h)) ∧
  (∀ q, eps h' q =
        if decide (q = length h) then [S (length h); start A]
        else eps h q ++ (if decide (q = end_ A)
                         then [S (length h); start A] else [])) ∧
  (∀ q k, trans h' q k = trans h q k) ∧
  (∀ q, final h' q = if decide (q = S (length h)) then true
                     else if decide (q = end_ A) then false else final h q).
Proof.
  intros HA. unfold closure, createState. simpl. repeat split.
  all: obs_cases.
Qed.

Lemma zeroOrOne_obs A h :
  end_ A < length h →
  let '(R, h') := zeroOrOne A h in
  start R = length h ∧ end_ R = S (length h) ∧ length h' = S (S (length h)) ∧
  (∀ q, eps h' q =
        if decide (q = length h) then [S (length h); start A]
        else eps h q ++ (if decide (q = end_ A) then [S (length h)] else [])) ∧
  (∀ q k, trans h' q k = trans h q k) ∧
  (∀ q, final h' q = if decide (q = S (length h)) then true
                     else if decide (q = end_ A) then false else final h q).
Proof.
  intros HA. unfold zeroOrOne, createState. simpl. repeat split.
  all: obs_cases.
Qed.

Lemma oneOrMore_obs A h :
  end_ A < length h →
  let '(R, h') := oneOrMore A h in
  start R = length h ∧ end_ R = S (length h) ∧ length h' = S (S (length h)) ∧
  (∀ q, eps h' q =
        if decide (q = length h) then [start A]
        else eps h q ++ (if decide (q = end_ A)
                         then [S (length h); start A] else [])) ∧
  (∀ q k, trans h' q k = trans h q k) ∧
  (∀ q, final h' q = if decide (q = S (length h)) then true
                     else if decide (q = end_ A) then false else final h q).
Proof.
  intros HA. unfold oneOrMore, createState. simpl. repeat split.
  all: obs_cases.
Qed.

(** * Runs and reachability *)

Lemma run_reach h q w t : run h q w t → reach h q t.
Proof.
  induction 1 as [q|q q' w t Hstep _ IH|q c q' w t _ Htr _ IH].
  - apply rtc_refl.
  - eapply rtc_l; [|exact IH]. by left.
  - eapply rtc_l; [|exact IH]. right. eauto.
Qed.

Lemma run_stuck h q w t :
  eps h q = [] → (∀ k, trans h q k = None) → run h q w t → w = [] ∧ t = q.
Proof.
  intros He Ht. inversion 1 as [|? ? ? ? Hin|? ? ? ? ? ? Htr]; subst.
  - done.
  - rewrite He in Hin. by apply elem_of_nil in Hin.
  - by rewrite Ht in Htr.
Qed.

Lemma reach_stuck h q t :
  eps h q = [] → (∀ k, trans h q k = None) → reach h q t → t = q.
Proof.
  intros He Ht. inversion 1 as [|? ? ? [Hin|[k Htr]]]; subst.
  - done.
  - rewrite He in Hin. by apply elem_of_nil in Hin.
  - by rewrite Ht in Htr.
Qed.

(** Two heaps that agree on what a start state reaches have the same runs
    from it. *)
Section agree.
Context (h h' : heap) (s : ref).
Hypothesis Hsame : ∀ q, reach h s q →
  eps h' q = eps h q ∧ ∀ k, trans h' q k = trans h q k.

Lemma agree_edge q q' : reach h s q → edge h' q q' ↔ edge h q q'.
Proof.
  intros Hq. destruct (Hsame q Hq) as [He Ht]. unfold edge.
  rewrite He. by setoid_rewrite Ht.
Qed.

Lemma agree_reach_1 q t : reach h s q → reach h q t → reach h' q t.
Proof.
  intros Hq Hqt. induction Hqt as [|q q' t Hstep Hqt IH]; [apply rtc_refl|].
  eapply rtc_l; [by apply agree_edge|]. apply IH.
  eapply rtc_r; [exact Hq|exact Hstep].
Qed.

Lemma agree_reach_2 q t : reach h s q → reach h' q t → reach h q t.
Proof.
  intros Hq Hqt. induction Hqt as [|q q' t Hstep Hqt IH]; [apply rtc_refl|].
  apply agree_edge in Hstep; [|done].
  eapply rtc_l; [exact Hstep|]. apply IH.
  eapply rtc_r; [exact Hq|exact Hstep].
Qed.

Lemma agree_reach t : reach h' s t ↔ reach h s t.
Proof.
  split; [apply agree_reach_2|apply agree_reach_1]; apply rtc_refl.
Qed.

Lemma agree_run_1 q w t : reach h s q → run h q w t → run h' q w t.
Proof.
  intros Hq Hrun.
  induction Hrun as [q|q q' w t Hstep Hrun IH|q c q' w t Hnil Htr Hrun IH].
  - constructor.
  - destruct (Hsame q Hq) as [He Ht].
    eapply run_eps; [by rewrite He|]. apply IH.
    eapply rtc_r; [exact Hq|by left].
  - destruct (Hsame q Hq) as [He Ht].
    eapply run_sym; [by rewrite He|by rewrite Ht|]. apply IH.
    eapply rtc_r; [exact Hq|right; eauto].
Qed.

Lemma agree_run_2 q w t : reach h s q → run h' q w t → run h q w t.
Proof.
  intros Hq Hrun.
  induction Hrun as [q|q q' w t Hstep Hrun IH|q c q' w t Hnil Htr Hrun IH].
  - constructor.
  - destruct (Hsame q Hq) as [He Ht]. rewrite He in Hstep.
    eapply run_eps; [done|]. apply IH.
    eapply rtc_r; [exact Hq|by left].
  - destruct (Hsame q Hq) as [He Ht]. rewrite He in Hnil. rewrite Ht in Htr.
    eapply run_sym; [done..|]. apply IH.
    eapply rtc_r; [exact Hq|right; eauto].
Qed.

Lemma agree_run w t : run h' s w t ↔ run h s w t.
Proof.
  split; [apply agree_run_2|apply agree_run_1]; apply rtc_refl.
Qed.
End agree.

(** A fragment is untouched by changes to states outside it. *)
Lemma frag_same h h' A :
  Frag h A → length h ≤ length h' →
  (∀ q, reach h (start A) q → same h h' q) →
  Frag h' A ∧ (∀ w, lang h' A w ↔ lang h A w)
  ∧ (∀ q, reach h' (start A) q ↔ reach h (start A) q).
Proof.
  intros HF Hlen Hsame.
  assert (∀ q, reach h (start A) q →
            eps h' q = eps h q ∧ ∀ k, trans h' q k = trans h q k) as Hs.
  { intros q Hq. destruct (Hsame q Hq) as (? & ? & ?). done. }
  pose proof (agree_reach h h' (start A) Hs) as Hreach.
  destruct (Hsame (end_ A) (frag_reach_end _ _ HF)) as (He & Ht & Hf).
  split; [|split; [|done]].
  - split.
    + rewrite He. apply HF.
    + intros k. rewrite Ht. apply HF.
    + rewrite Hf. apply HF.
    + apply Hreach, HF.
    + intros q Hq%Hreach. pose proof (frag_valid _ _ HF q Hq). lia.
    + intros q Hq%Hreach. destruct (Hsame q Hq) as (_ & _ & ->). by apply HF.
    + intros q Hq%Hreach. destruct (Hsame q Hq) as (-> & Ht' & _).
      destruct (frag_pure _ _ HF q Hq) as [?|Hn]; [by left|right].
      intros k. by rewrite Ht'.
    + intros q Hq%Hreach. destruct (Hsame q Hq) as (-> & _ & _). by apply HF.
  - intros w. apply agree_run. done.
Qed.

(** Acceptance from the start of a fragment is reaching its end. *)
Lemma accepts_lang h A w : Frag h A → accepts h (start A) w ↔ lang h A w.
Proof.
  intros HF. split.
  - intros (t & Hrun & He & Hf).
    rewrite (frag_final _ _ HF t) in Hrun; [done| |done]. by eapply run_reach.
  - intros Hrun. exists (end_ A). split; [done|]. split; apply HF.
Qed.

Lemma recognize_lang h A w :
  Frag h A → recognize h A w = Some true ↔ lang h A (codePoints w).
Proof. intros HF. rewrite recognize_true. by apply accepts_lang. Qed.

(** * Extending a fragment at its end state

    The operators change a fragment only at its end state, which gains
    epsilon edges: back to the fragment's own start, or to states outside the
    fragment. *)
Section sink.
Context (h h' : heap) (A : NFA).
Hypothesis HS : Sink h h' A.
Let HF := sink_frag _ _ _ HS.
Let Hkeep := sink_keep _ _ _ HS.
Let Hend_trans := sink_end_trans _ _ _ HS.
Let Hend_eps := sink_end_eps _ _ _ HS.

Lemma sink_not_end q q' : edge h q q' → q ≠ end_ A.
Proof.
  intros [Hin|[k Htr]] ->.
  - rewrite (frag_end_eps _ _ HF) in Hin. by apply elem_of_nil in Hin.
  - by rewrite (frag_end_trans _ _ HF) in Htr.
Qed.

Lemma into_run q w t : reach h (start A) q → run h q w t → run h' q w t.
Proof.
  intros Hq Hrun.
  induction Hrun as [q|q q' w t Hstep Hrun IH|q c q' w t Hnil Htr Hrun IH].
  - constructor.
  - destruct (Hkeep q Hq) as [He Ht]; [eapply sink_not_end; by left|].
    eapply run_eps; [by rewrite He|]. apply IH.
    eapply rtc_r; [exact Hq|by left].
  - destruct (Hkeep q Hq) as [He Ht]; [eapply sink_not_end; right; eauto|].
    eapply run_sym; [by rewrite He|by rewrite Ht|]. apply IH.
    eapply rtc_r; [exact Hq|right; eauto].
Qed.

Lemma into_reach q t : reach h (start A) q → reach h q t → reach h' q t.
Proof.
  intros Hq Hqt. induction Hqt as [|q q' t Hstep Hqt IH]; [apply rtc_refl|].
  destruct (Hkeep q Hq) as [He Ht]; [by eapply sink_not_end|].
  eapply rtc_l.
  - destruct Hstep as [Hin|[k Htr]]; [left; by rewrite He|right].
    exists k. by rewrite Ht.
  - apply IH. eapply rtc_r; [exact Hq|exact Hstep].
Qed.

(** A run that leaves the fragment passes through it zero or more times
    and then takes an epsilon edge of the end state to the outside. *)
Lemma out_run q w t :
  run h' q w t → reach h (start A) q → ¬ reach h (start A) t →
  ∃ u ws w2 o,
    w = u ++ mjoin ws ++ w2 ∧ run h q u (end_ A) ∧ Forall (lang h A) ws
    ∧ (ws ≠ [] → start A ∈ eps h' (end_ A))
    ∧ o ∈ eps h' (end_ A) ∧ ¬ reach h (start A) o ∧ run h' o w2 t.
Proof.
  intros Hrun.
  induction Hrun as [q|q q' w t Hstep Hrun IH|q c q' w t Hnil Htr Hrun IH];
    intros Hq Hout.
  - done.
  - destruct (decide (q = end_ A)) as [->|Hne].
    + destruct (Hend_eps q' Hstep) as [->|Hq'].
      * destruct IH as (u & ws & w2 & o & -> & Hu & Hws & Hloop & Ho & Hno & Hrest);
          [apply rtc_refl|done|].
        exists [], (u :: ws), w2, o. simpl. rewrite app_assoc.
        repeat split; try done. constructor. by constructor.
      * exists [], [], w, q'. simpl. repeat split; try done. constructor.
    + destruct (Hkeep q Hq Hne) as [He Ht]. rewrite He in Hstep.
      destruct IH as (u & ws & w2 & o & -> & Hu & Hws & Hloop & Ho & Hno & Hrest);
        [eapply rtc_r; [exact Hq|by left]|done|].
      exists u, ws, w2, o. repeat split; try done. by eapply run_eps.
  - destruct (decide (q = end_ A)) as [->|Hne]; [by rewrite Hend_trans in Htr|].
    destruct (Hkeep q Hq Hne) as [He Ht]. rewrite He in Hnil. rewrite Ht in Htr.
    destruct IH as (u & ws & w2 & o & -> & Hu & Hws & Hloop & Ho & Hno & Hrest);
      [eapply rtc_r; [exact Hq|right; eauto]|done|].
    exists (c :: u), ws, w2, o. repeat split; try done. by eapply run_sym.
Qed.

Lemma out_reach q t :
  reach h' q t → reach h (start A) q →
  reach h (start A) t
  ∨ ∃ o, o ∈ eps h' (end_ A) ∧ ¬ reach h (start A) o ∧ reach h' o t.
Proof.
  intros Hqt. induction Hqt as [q|q q' t Hstep Hqt IH]; intros Hq; [by left|].
  destruct (decide (q = end_ A)) as [->|Hne].
  - destruct Hstep as [Hin|[k Htr]]; [|by rewrite Hend_trans in Htr].
    destruct (Hend_eps q' Hin) as [->|Hq'].
    + apply IH, rtc_refl.
    + right. by exists q'.
  - apply IH. destruct (Hkeep q Hq Hne) as [He Ht].
    eapply rtc_r; [exact Hq|].
    destruct Hstep as [Hin|[k Htr]]; [left; by rewrite <- He|right].
    exists k. by rewrite <- Ht.
Qed.
End sink.

(** * A new start and a new end around consumed fragments

    [union], [closure], [zeroOrOne] and [oneOrMore] allocate a start state
    [n] and an end state [S n], point the new start at the new end or at the
    starts of the fragments they consume, and point the consumed ends at the
    new end or back at their own start. *)
Section wrap.
Context (h h' : heap) (As : list NFA).
Hypothesis HW : Wrapped h h' As.
Let n := length h.
Let Hlen : length h' = S (S n) := wr_len _ _ _ HW.
Let HFs := wr_frags _ _ _ HW.
Let Hsep := wr_sep _ _ _ HW.
Let Htrans := wr_trans _ _ _ HW.
Let Hstart_eps : ∀ o, o ∈ eps h' n → o = S n ∨ ∃ A, A ∈ As ∧ o = start A
  := wr_start_eps _ _ _ HW.
Let Hstart_in : ∃ A, A ∈ As ∧ start A ∈ eps h' n := wr_start_in _ _ _ HW.
Let Hstart_two : length (eps h' n) ≤ 2 := wr_start_two _ _ _ HW.
Let Hnew_end_eps : eps h' (S n) = [] := wr_new_end_eps _ _ _ HW.
Let Hnew_end_final : final h' (S n) = true := wr_new_end_final _ _ _ HW.
Let Hnew_start_final : final h' n = false := wr_new_start_final _ _ _ HW.
Let Hends : ∀ A, A ∈ As →
  final h' (end_ A) = false ∧ S n ∈ eps h' (end_ A)
  ∧ (∀ o, o ∈ eps h' (end_ A) → o = S n ∨ o = start A)
  ∧ length (eps h' (end_ A)) ≤ 2 := wr_ends _ _ _ HW.
Let Hother : ∀ q, q < n → (∀ A, A ∈ As → q ≠ end_ A) →
  eps h' q = eps h q ∧ final h' q = final h q := wr_other _ _ _ HW.

Lemma wrap_inside A q : A ∈ As → reach h (start A) q → q < n.
Proof. intros HA Hq. by apply (frag_valid _ _ (HFs A HA)). Qed.

Lemma wrap_other A q :
  A ∈ As → reach h (start A) q → q ≠ end_ A → ∀ B, B ∈ As → q ≠ end_ B.
Proof.
  intros HA Hq Hne B HB. destruct (Hsep A B HA HB) as [->|Hdis]; [done|].
  intros ->. eapply Hdis; [exact Hq|]. apply (frag_reach_end _ _ (HFs B HB)).
Qed.

Lemma wrap_keep A q :
  A ∈ As → reach h (start A) q → q ≠ end_ A →
  eps h' q = eps h q ∧ ∀ k, trans h' q k = trans h q k.
Proof.
  intros HA Hq Hne. split; [|done].
  apply Hother; [by eapply wrap_inside|by eapply wrap_other].
Qed.

Lemma wrap_end_trans A k : A ∈ As → trans h' (end_ A) k = None.
Proof. intros HA. rewrite Htrans. apply (HFs A HA). Qed.

Lemma wrap_end_eps A o :
  A ∈ As → o ∈ eps h' (end_ A) → o = start A ∨ ¬ reach h (start A) o.
Proof.
  intros HA Ho. destruct (Hends A HA) as (_ & _ & Hout & _).
  destruct (Hout o Ho) as [-> | ->]; [right|by left].
  intros Hr%(wrap_inside A); [lia|done].
Qed.

Lemma wrap_sink A : A ∈ As → Sink h h' A.
Proof.
  intros HA. split.
  - by apply HFs.
  - intros q. by apply wrap_keep.
  - intros k. by apply wrap_end_trans.
  - intros o. by apply wrap_end_eps.
Qed.

Lemma new_end_stuck q : reach h' (S n) q → q = S n.
Proof.
  apply reach_stuck; [done|]. intros k. rewrite Htrans.
  apply trans_invalid. lia.
Qed.

Lemma wrap_reach q :
  reach h' n q → q = n ∨ q = S n ∨ ∃ A, A ∈ As ∧ reach h (start A) q.
Proof.
  inversion 1 as [|? q' ? [Hin|[k Htr]] Hrest]; subst; [by left| |].
  - destruct (Hstart_eps q' Hin) as [->|(A & HA & ->)].
    + right; left. by apply new_end_stuck.
    + destruct (out_reach h h' A (wrap_sink A HA) _ _ Hrest)
        as [Hin'|(o & Ho & Hno & Hreach)].
      * apply rtc_refl.
      * right; right. by exists A.
      * destruct (Hends A HA) as (_ & _ & Hout & _).
        destruct (Hout o Ho) as [-> | ->]; [|by destruct Hno; apply rtc_refl].
        right; left. by apply new_end_stuck.
  - rewrite Htrans, trans_invalid in Htr by lia. done.
Qed.

Lemma wrap_frag : Frag h' {| start := n; end_ := S n |}.
Proof.
  split; simpl.
  - done.
  - intros k. rewrite Htrans. apply trans_invalid. lia.
  - done.
  - destruct Hstart_in as (A & HA & Hin).
    eapply rtc_l; [by left|].
    eapply rtc_r.
    + apply (into_reach h h' A (wrap_sink A HA)); [apply rtc_refl|].
      apply (HFs A HA).
    + left. by apply (Hends A HA).
  - intros q [->|[->|(A & HA & Hq)]]%wrap_reach; [lia..|].
    apply (wrap_inside A) in Hq; [lia|done].
  - intros q [->|[->|(A & HA & Hq)]]%wrap_reach Hfin; [congruence|done|].
    exfalso. destruct (decide (q = end_ A)) as [->|Hne].
    + destruct (Hends A HA) as (Hf & _). congruence.
    + destruct (Hother q) as [_ Hf];
        [by eapply wrap_inside|by eapply wrap_other|].
      rewrite Hf in Hfin. by apply (frag_final _ _ (HFs A HA)) in Hfin.
  - intros q [->|[->|(A & HA & Hq)]]%wrap_reach.
    + right. intros k. rewrite Htrans. apply trans_invalid. lia.
    + by left.
    + destruct (decide (q = end_ A)) as [->|Hne].
      * right. intros k. by apply wrap_end_trans.
      * destruct (wrap_keep A q HA Hq Hne) as [-> Ht].
        destruct (frag_pure _ _ (HFs A HA) q Hq) as [?|Hn]; [by left|right].
        intros k. by rewrite Ht.
  - intros q [->|[->|(A & HA & Hq)]]%wrap_reach.
    + done.
    + rewrite Hnew_end_eps. simpl. lia.
    + destruct (decide (q = end_ A)) as [->|Hne].
      * by apply (Hends A HA).
      * destruct (wrap_keep A q HA Hq Hne) as [-> _].
        by apply (frag_two _ _ (HFs A HA)).
Qed.
End wrap.

(** Consequences for words. *)
Section through.
Context (h h' : heap) (A : NFA).
Hypothesis HS : Sink h h' A.

(** Through the fragment once, then out by an edge of its end state. *)
Lemma through_once o u :
  o ∈ eps h' (end_ A) → lang h A u → run h' (start A) u o.
Proof.
  intros Ho Hu. rewrite <- (app_nil_r u). eapply run_app.
  - apply (into_run h h' A HS); [apply rtc_refl|exact Hu].
  - eapply run_eps; [exact Ho|constructor].
Qed.

(** The end state has a single way out. *)
Lemma leave_once o w t :
  (∀ x, x ∈ eps h' (end_ A) → x = o) → o ≠ start A →
  ¬ reach h (start A) t → run h' (start A) w t →
  ∃ u w2, w = u ++ w2 ∧ lang h A u ∧ run h' o w2 t.
Proof.
  intros Hout Hne Ht Hrun.
  destruct (out_run h h' A HS _ _ _ Hrun) as
    (u & ws & w2 & x & -> & Hu & Hws & Hloop & Hx & _ & Hrest);
    [apply rtc_refl|done|].
  apply Hout in Hx as ->.
  destruct ws as [|w1 ws]; [|destruct Hne; symmetry; by apply Hout, Hloop].
  by exists u, w2.
Qed.

(** The end state leads out to [o] or back to the start. *)
Lemma leave_loop o w t :
  (∀ x, x ∈ eps h' (end_ A) → x = o ∨ x = start A) →
  ¬ reach h (start A) t → run h' (start A) w t →
  ∃ u ws w2, w = u ++ mjoin ws ++ w2 ∧ lang h A u ∧ Forall (lang h A) ws
             ∧ run h' o w2 t.
Proof.
  intros Hout Ht Hrun.
  destruct (out_run h h' A HS _ _ _ Hrun) as
    (u & ws & w2 & x & -> & Hu & Hws & Hloop & Hx & Hnx & Hrest);
    [apply rtc_refl|done|].
  destruct (Hout x Hx) as [->| ->]; [|destruct Hnx; apply rtc_refl].
  by exists u, ws, w2.
Qed.

(** Around the loop: a pass, then any number of passes, each after the
    edge back to the start. *)
Lemma through_loop ws : ∀ u,
  start A ∈ eps h' (end_ A) → lang h A u → Forall (lang h A) ws →
  run h' (start A) (u ++ mjoin ws) (end_ A).
Proof.
  induction ws as [|w1 ws IH]; intros u Hback Hu Hws; simpl.
  - rewrite app_nil_r. apply (into_run h h' A HS); [apply rtc_refl|exact Hu].
  - apply Forall_cons in Hws as [Hw1 Hws].
    eapply run_app; [by apply through_once|]. by apply IH.
Qed.
End through.

(** * The fragment operators *)

Lemma frag_end_valid h A : Frag h A → end_ A < length h.
Proof. intros HF. apply (frag_valid _ _ HF), HF. Qed.

Lemma frag_start_valid h A : Frag h A → start A < length h.
Proof. intros HF. apply (frag_valid _ _ HF), rtc_refl. Qed.

Lemma elem_of_list2 {X} (x a b : X) : x ∈ [a; b] ↔ x = a ∨ x = b.
Proof. rewrite !elem_of_cons, elem_of_nil. tauto. Qed.

Lemma elem_of_list1 {X} (x a : X) : x ∈ [a] ↔ x = a.
Proof. apply list_elem_of_singleton. Qed.

(** Membership in the small literal lists the closed forms produce. *)
Ltac list_cases :=
  repeat match goal with
    | H : _ ∈ [] |- _ => by apply elem_of_nil in H
    | H : _ ∈ _ :: _ |- _ => apply elem_of_cons in H as [H|H]
    | H : _ ∈ _ ++ _ |- _ => apply elem_of_app in H as [H|H]
    end.

Lemma union_wrapped h A B R h' :
  Frag h A → Frag h B → A = B ∨ disjoint h A B → union A B h = (R, h') →
  start R = length h ∧ end_ R = S (length h)
  ∧ Wrapped h h' [A; B] ∧ keeps h h' [end_ A; end_ B]
  ∧ eps h' (length h) = [start A; start B]
  ∧ (∀ o, o ∈ eps h' (end_ A) → o = S (length h))
  ∧ (∀ o, o ∈ eps h' (end_ B) → o = S (length h)).
Proof.
  intros HA HB Hsep Hop.
  pose proof (frag_end_valid _ _ HA) as HeA.
  pose proof (frag_end_valid _ _ HB) as HeB.
  pose proof (frag_end_eps _ _ HA) as HnA.
  pose proof (frag_end_eps _ _ HB) as HnB.
  pose proof (union_obs A B h HeA HeB) as Hobs. rewrite Hop in Hobs.
  destruct Hobs as (Hs & He & Hlen & Heps & Htr & Hfin).
  assert (∀ o, o ∈ eps h' (end_ A) → o = S (length h)) as HoutA.
  { intros o. rewrite Heps, HnA. repeat case_decide; try lia; simpl; intros; by list_cases. }
  assert (∀ o, o ∈ eps h' (end_ B) → o = S (length h)) as HoutB.
  { intros o. rewrite Heps, HnB. repeat case_decide; try lia; simpl; intros; by list_cases. }
  assert (eps h' (length h) = [start A; start B]) as Hstart.
  { rewrite Heps. by rewrite decide_True. }
  split; [done|]. split; [done|]. split; [|split; [|done]].
  - constructor.
    + done.
    + intros X [->| ->]%elem_of_list2; done.
    + intros X Y [->| ->]%elem_of_list2 [->| ->]%elem_of_list2; auto.
      destruct Hsep as [->|Hd]; [by left|right]. intros q ? ?. by apply (Hd q).
    + done.
    + intros o. rewrite Hstart. intros [->| ->]%elem_of_list2; right.
      * exists A. split; [apply elem_of_list2|]; auto.
      * exists B. split; [apply elem_of_list2|]; auto.
    + exists A. split; [apply elem_of_list2; auto|].
      rewrite Hstart. apply elem_of_list2; auto.
    + by rewrite Hstart.
    + rewrite Heps. rewrite eps_invalid by lia. repeat case_decide; try lia; done.
    + rewrite Hfin. by rewrite decide_True.
    + rewrite Hfin. rewrite final_invalid by lia. repeat case_decide; try lia; done.
    + intros X HX. split; [|split; [|split]].
      * rewrite Hfin. apply elem_of_list2 in HX as [->| ->];
          repeat case_decide; try lia; try done; exfalso; auto.
      * apply elem_of_list2 in HX as [->| ->]; rewrite Heps, ?HnA, ?HnB;
          repeat case_decide; try lia; simpl; apply elem_of_cons; auto.
      * apply elem_of_list2 in HX as [->| ->]; auto.
      * apply elem_of_list2 in HX as [->| ->]; rewrite Heps, ?HnA, ?HnB;
          repeat case_decide; try lia; simpl; lia.
    + intros q Hq Hne.
      assert (q ≠ end_ A) by (apply Hne, elem_of_list2; auto).
      assert (q ≠ end_ B) by (apply Hne, elem_of_list2; auto).
      rewrite Heps, Hfin.
      repeat case_decide; try lia; try done; try (exfalso; tauto).
      by rewrite !app_nil_r.
  - split; [lia|]. intros q Hq Hni.
    assert (q ≠ end_ A) by (intros ->; apply Hni, elem_of_list2; auto).
    assert (q ≠ end_ B) by (intros ->; apply Hni, elem_of_list2; auto).
    split; [|split; [done|]]; rewrite ?Heps, ?Hfin;
      repeat case_decide; try lia; try done; try (exfalso; tauto).
    by rewrite !app_nil_r.
Qed.

(** The three operators on one fragment differ in the epsilon edges of the
    new start ([from_start]) and of the consumed end ([from_end]). *)
Lemma wrap1 h h' A from_start from_end :
  Frag h A →
  length h' = S (S (length h)) →
  (∀ q, eps h' q =
        if decide (q = length h) then from_start
        else eps h q ++ (if decide (q = end_ A) then from_end else [])) →
  (∀ q k, trans h' q k = trans h q k) →
  (∀ q, final h' q = if decide (q = S (length h)) then true
                     else if decide (q = end_ A) then false else final h q) →
  (∀ o, o ∈ from_start → o = S (length h) ∨ o = start A) →
  start A ∈ from_start → length from_start ≤ 2 →
  (∀ o, o ∈ from_end → o = S (length h) ∨ o = start A) →
  S (length h) ∈ from_end → length from_end ≤ 2 →
  Wrapped h h' [A] ∧ keeps h h' [end_ A]
  ∧ eps h' (length h) = from_start ∧ eps h' (end_ A) = from_end.
Proof.
  intros HA Hlen Heps Htr Hfin Hs1 Hs2 Hs3 He1 He2 He3.
  pose proof (frag_end_valid _ _ HA) as HeA.
  pose proof (frag_end_eps _ _ HA) as HnA.
  assert (eps h' (length h) = from_start) as Hstart.
  { rewrite Heps. by rewrite decide_True. }
  assert (eps h' (end_ A) = from_end) as Hend.
  { rewrite Heps, HnA. rewrite decide_False, decide_True by lia. done. }
  split; [|split; [|done]].
  - constructor.
    + done.
    + by intros X ->%elem_of_list1.
    + intros X Y ->%elem_of_list1 ->%elem_of_list1. by left.
    + done.
    + intros o. rewrite Hstart. intros [->| ->]%Hs1; [by left|right].
      exists A. split; [by apply elem_of_list1|done].
    + exists A. split; [by apply elem_of_list1|]. by rewrite Hstart.
    + by rewrite Hstart.
    + rewrite Heps. rewrite eps_invalid by lia. repeat case_decide; try lia; done.
    + rewrite Hfin. by rewrite decide_True.
    + rewrite Hfin. rewrite final_invalid by lia. repeat case_decide; try lia; done.
    + intros X ->%elem_of_list1. rewrite Hend. split; [|done].
      rewrite Hfin. repeat case_decide; try lia; done.
    + intros q Hq Hne.
      assert (q ≠ end_ A) by (by apply Hne, elem_of_list1).
      rewrite Heps, Hfin. repeat case_decide; try lia; try done.
      by rewrite !app_nil_r.
  - split; [lia|]. intros q Hq Hni.
    assert (q ≠ end_ A) by (intros ->; by apply Hni, elem_of_list1).
    split; [|split; [done|]]; rewrite ?Heps, ?Hfin;
      repeat case_decide; try lia; try done.
    by rewrite !app_nil_r.
Qed.

(** The new end state has no edge. *)
Lemma wrapped_end_stuck h h' As w t :
  Wrapped h h' As → run h' (S (length h)) w t → w = [] ∧ t = S (length h).
Proof.
  intros HW. apply run_stuck; [apply HW|].
  intros k. rewrite (wr_trans _ _ _ HW). apply trans_invalid. lia.
Qed.

Lemma wrapped_new_end_out h h' As A :
  Wrapped h h' As → A ∈ As → ¬ reach h (start A) (S (length h)).
Proof.
  intros HW HA Hr. apply (frag_valid _ _ (wr_frags _ _ _ HW A HA)) in Hr. lia.
Qed.

(** The first step of a run from the new start. *)
Lemma wrapped_start_run h h' As w t :
  Wrapped h h' As → run h' (length h) w t → t ≠ length h →
  ∃ o, o ∈ eps h' (length h) ∧ run h' o w t.
Proof.
  intros HW Hrun Hne.
  inversion Hrun as [|q q' w' t' Hin Hrest|q c q' w' t' Hnil Htr]; subst.
  - done.
  - by exists q'.
  - rewrite (wr_trans _ _ _ HW), trans_invalid in Htr by lia. done.
Qed.

Lemma wrapped_reach h h' As R q :
  Wrapped h h' As → start R = length h →
  reach h' (start R) q →
  length h ≤ q ∨ ∃ A, A ∈ As ∧ reach h (start A) q.
Proof.
  intros HW -> [->|[->|?]]%(wrap_reach _ _ _ HW); [left; lia..|by right].
Qed.

Lemma union_spec h A B R h' :
  Frag h A → Frag h B → A = B ∨ disjoint h A B → union A B h = (R, h') →
  Op h h' R (lang_union (lang h A) (lang h B)) [A; B].
Proof.
  intros HA HB Hsep Hop.
  destruct (union_wrapped _ _ _ _ _ HA HB Hsep Hop)
    as (Hs & He & HW & Hk & Hstart & HoutA & HoutB).
  assert (A ∈ [A; B]) as HinA by (apply elem_of_list2; auto).
  assert (B ∈ [A; B]) as HinB by (apply elem_of_list2; auto).
  pose proof (frag_start_valid _ _ HA) as HsA.
  pose proof (frag_start_valid _ _ HB) as HsB.
  split; [|split; [|split; [|done]]].
  - destruct R as [s e]; simpl in *; subst. exact (wrap_frag _ _ _ HW).
  - intros w. unfold lang. rewrite Hs, He. split.
    + intros Hrun. apply (wrapped_start_run _ _ _ _ _ HW) in Hrun as (o & Ho & Hrun); [|lia].
      rewrite Hstart in Ho. apply elem_of_list2 in Ho as [->| ->]; [left|right].
      * destruct (leave_once h h' A (wrap_sink _ _ _ HW A HinA)
                    (S (length h)) w (S (length h)) HoutA)
          as (u & w2 & -> & Hu & Hrest);
          [lia|by eapply wrapped_new_end_out|done|].
        apply (wrapped_end_stuck _ _ _ _ _ HW) in Hrest as [-> _].
        by rewrite app_nil_r.
      * destruct (leave_once h h' B (wrap_sink _ _ _ HW B HinB)
                    (S (length h)) w (S (length h)) HoutB)
          as (u & w2 & -> & Hu & Hrest);
          [lia|by eapply wrapped_new_end_out|done|].
        apply (wrapped_end_stuck _ _ _ _ _ HW) in Hrest as [-> _].
        by rewrite app_nil_r.
    + intros [Hw|Hw].
      * eapply run_eps; [rewrite Hstart; apply elem_of_list2; left; done|].
        apply (through_once h h' A (wrap_sink _ _ _ HW A HinA)); [|done].
        by apply (wr_ends _ _ _ HW A).
      * eapply run_eps; [rewrite Hstart; apply elem_of_list2; right; done|].
        apply (through_once h h' B (wrap_sink _ _ _ HW B HinB)); [|done].
        by apply (wr_ends _ _ _ HW B).
  - intros q. by apply wrapped_reach.
Qed.

Lemma closure_spec h A R h' :
  Frag h A → closure A h = (R, h') →
  Op h h' R (lang_star (lang h A)) [A].
Proof.
  intros HA Hop.
  pose proof (frag_end_valid _ _ HA) as HeA.
  pose proof (frag_start_valid _ _ HA) as HsA.
  pose proof (closure_obs A h HeA) as Hobs. rewrite Hop in Hobs.
  destruct Hobs as (Hs & He & Hlen & Heps & Htr & Hfin).
  destruct R as [s e]; simpl in Hs, He; subst s e.
  destruct (wrap1 h h' A _ _ HA Hlen Heps Htr Hfin)
    as (HW & Hk & Hstart & Hend);
    try (by intros o ?%elem_of_list2); try (apply elem_of_list2; by auto);
    try (simpl; lia).
  assert (A ∈ [A]) as HinA by (by apply elem_of_list1).
  pose proof (wrap_sink _ _ _ HW A HinA) as HS.
  split; [|split; [|split; [|done]]].
  - exact (wrap_frag _ _ _ HW).
  - intros w. unfold lang. simpl. split.
    + intros Hrun.
      apply (wrapped_start_run _ _ _ _ _ HW) in Hrun as (o & Ho & Hrun); [|lia].
      rewrite Hstart in Ho. apply elem_of_list2 in Ho as [->| ->].
      * apply (wrapped_end_stuck _ _ _ _ _ HW) in Hrun as [-> _].
        exists []. split; [done|constructor].
      * destruct (leave_loop h h' A HS (S (length h)) w (S (length h)))
          as (u & ws & w2 & -> & Hu & Hws & Hrest);
          [by intros x; rewrite Hend; intros ?%elem_of_list2
          |by eapply wrapped_new_end_out|done|].
        apply (wrapped_end_stuck _ _ _ _ _ HW) in Hrest as [-> _].
        exists (u :: ws). split; [by rewrite app_nil_r|by constructor].
    + intros (ws & -> & Hws). destruct Hws as [|u ws Hu Hws]; simpl.
      * eapply run_eps; [rewrite Hstart; apply elem_of_list2; by left|constructor].
      * eapply run_eps; [rewrite Hstart; apply elem_of_list2; by right|].
        rewrite <- (app_nil_r (u ++ mjoin ws)). eapply run_app.
        -- apply (through_loop h h' A HS); [|done..].
           rewrite Hend. apply elem_of_list2. by right.
        -- eapply run_eps; [rewrite Hend; apply elem_of_list2; by left|constructor].
  - intros q. by apply wrapped_reach.
Qed.

Lemma oneOrMore_spec h A R h' :
  Frag h A → oneOrMore A h = (R, h') →
  Op h h' R (lang_plus (lang h A)) [A].
Proof.
  intros HA Hop.
  pose proof (frag_end_valid _ _ HA) as HeA.
  pose proof (frag_start_valid _ _ HA) as HsA.
  pose proof (oneOrMore_obs A h HeA) as Hobs. rewrite Hop in Hobs.
  destruct Hobs as (Hs & He & Hlen & Heps & Htr & Hfin).
  destruct R as [s e]; simpl in Hs, He; subst s e.
  destruct (wrap1 h h' A _ _ HA Hlen Heps Htr Hfin)
    as (HW & Hk & Hstart & Hend);
    try (by intros o ?%elem_of_list2); try (intros o ?%elem_of_list1; by right);
    try (apply elem_of_list2; by auto); try (by apply elem_of_list1);
    try (simpl; lia).
  assert (A ∈ [A]) as HinA by (by apply elem_of_list1).
  pose proof (wrap_sink _ _ _ HW A HinA) as HS.
  split; [|split; [|split; [|done]]].
  - exact (wrap_frag _ _ _ HW).
  - intros w. unfold lang. simpl. split.
    + intros Hrun.
      apply (wrapped_start_run _ _ _ _ _ HW) in Hrun as (o & Ho & Hrun); [|lia].
      rewrite Hstart in Ho. apply elem_of_list1 in Ho as ->.
      destruct (leave_loop h h' A HS (S (length h)) w (S (length h)))
        as (u & ws & w2 & -> & Hu & Hws & Hrest);
        [by intros x; rewrite Hend; intros ?%elem_of_list2
        |by eapply wrapped_new_end_out|done|].
      apply (wrapped_end_stuck _ _ _ _ _ HW) in Hrest as [-> _].
      exists (u :: ws). split; [done|]. split; [by rewrite app_nil_r|by constructor].
    + intros (ws & Hne & -> & Hws). destruct Hws as [|u ws Hu Hws]; [done|].
      eapply run_eps; [rewrite Hstart; by apply elem_of_list1|].
      simpl. rewrite <- (app_nil_r (u ++ mjoin ws)). eapply run_app.
      * apply (through_loop h h' A HS); [|done..].
        rewrite Hend. apply elem_of_list2. by right.
      * eapply run_eps; [rewrite Hend; apply elem_of_list2; by left|constructor].
  - intros q. by apply wrapped_reach.
Qed.

Lemma zeroOrOne_spec h A R h' :
  Frag h A → zeroOrOne A h = (R, h') →
  Op h h' R (lang_opt (lang h A)) [A].
Proof.
  intros HA Hop.
  pose proof (frag_end_valid _ _ HA) as HeA.
  pose proof (frag_start_valid _ _ HA) as HsA.
  pose proof (zeroOrOne_obs A h HeA) as Hobs. rewrite Hop in Hobs.
  destruct Hobs as (Hs & He & Hlen & Heps & Htr & Hfin).
  destruct R as [s e]; simpl in Hs, He; subst s e.
  destruct (wrap1 h h' A _ _ HA Hlen Heps Htr Hfin)
    as (HW & Hk & Hstart & Hend);
    try (by intros o ?%elem_of_list2); try (intros o ?%elem_of_list1; by left);
    try (apply elem_of_list2; by auto); try (by apply elem_of_list1);
    try (simpl; lia).
  assert (A ∈ [A]) as HinA by (by apply elem_of_list1).
  pose proof (wrap_sink _ _ _ HW A HinA) as HS.
  split; [|split; [|split; [|done]]].
  - exact (wrap_frag _ _ _ HW).
  - intros w. unfold lang. simpl. split.
    + intros Hrun.
      apply (wrapped_start_run _ _ _ _ _ HW) in Hrun as (o & Ho & Hrun); [|lia].
      rewrite Hstart in Ho. apply elem_of_list2 in Ho as [->| ->].
      * apply (wrapped_end_stuck _ _ _ _ _ HW) in Hrun as [-> _]. by left.
      * destruct (leave_once h h' A HS (S (length h)) w (S (length h)))
          as (u & w2 & -> & Hu & Hrest);
          [by intros x; rewrite Hend; intros ?%elem_of_list1
          |lia|by eapply wrapped_new_end_out|done|].
        apply (wrapped_end_stuck _ _ _ _ _ HW) in Hrest as [-> _].
        right. by rewrite app_nil_r.
    + intros [->|Hw].
      * eapply run_eps; [rewrite Hstart; apply elem_of_list2; by left|constructor].
      * eapply run_eps; [rewrite Hstart; apply elem_of_list2; by right|].
        apply (through_once h h' A HS); [|done].
        rewrite Hend. by apply elem_of_list1.
  - intros q. by apply wrapped_reach.
Qed.

Lemma concat_spec h A B R h' :
  Frag h A → Frag h B → disjoint h A B → concat A B h = (R, h') →
  Op h h' R (lang_concat (lang h A) (lang h B)) [A; B].
Proof.
  intros HA HB Hdis Hop.
  pose proof (frag_end_valid _ _ HA) as HeA.
  pose proof (frag_end_eps _ _ HA) as HnA.
  pose proof (concat_obs A B h HeA) as Hobs. rewrite Hop in Hobs.
  destruct Hobs as (Hs & He & Hlen & Heps & Htr & Hfin).
  destruct R as [s e]; simpl in Hs, He; subst s e.
  assert (eps h' (end_ A) = [start B]) as Hend.
  { rewrite Heps, HnA. by rewrite decide_True. }
  assert (∀ q, q ≠ end_ A → same h h' q) as Hsame.
  { intros q Hq. split; [|split; [done|]]; rewrite ?Heps, ?Hfin;
      rewrite decide_False by done; [apply app_nil_r|done]. }
  assert (∀ q, reach h (start B) q → q ≠ end_ A) as HBA.
  { intros q Hq ->. apply (Hdis (end_ A)); [apply HA|done]. }
  assert (Sink h h' A) as HS.
  { split; [done| | |].
    - intros q Hq Hne. destruct (Hsame q Hne) as (? & ? & _). done.
    - intros k. rewrite Htr. apply HA.
    - intros o. rewrite Hend. intros ->%elem_of_list1. right.
      intros Hr. apply (Hdis (start B)); [done|apply rtc_refl]. }
  destruct (frag_same h h' B HB) as (HB' & HlangB & HreachB); [lia|auto|].
  assert (∀ q, reach h' (start A) q →
            reach h (start A) q ∨ reach h (start B) q) as Hreach.
  { intros q Hq.
    destruct (out_reach h h' A HS _ _ Hq) as [?|(o & Ho & _ & Hoq)];
      [apply rtc_refl|by left|].
    rewrite Hend in Ho. apply elem_of_list1 in Ho as ->.
    right. by apply HreachB. }
  split; [|split; [|split]].
  - split; simpl.
    + apply HB'.
    + apply HB'.
    + apply HB'.
    + eapply rtc_trans; [|apply HB'].
      eapply rtc_r.
      * apply (into_reach h h' A HS); [apply rtc_refl|apply HA].
      * left. rewrite Hend. by apply elem_of_list1.
    + intros q [Hq|Hq]%Hreach; rewrite Hlen; [by apply HA|by apply HB].
    + intros q [Hq|Hq]%Hreach Hf.
      * rewrite Hfin in Hf. case_decide; [done|].
        apply (frag_final _ _ HA) in Hf; done.
      * destruct (Hsame q (HBA q Hq)) as (_ & _ & Hf'). rewrite Hf' in Hf.
        by apply (frag_final _ _ HB).
    + intros q [Hq|Hq]%Hreach.
      * destruct (decide (q = end_ A)) as [->|Hne].
        -- right. intros k. rewrite Htr. apply HA.
        -- destruct (Hsame q Hne) as (-> & Ht & _).
           destruct (frag_pure _ _ HA q Hq) as [?|Hn]; [by left|right].
           intros k. by rewrite Ht.
      * destruct (Hsame q (HBA q Hq)) as (-> & Ht & _).
        destruct (frag_pure _ _ HB q Hq) as [?|Hn]; [by left|right].
        intros k. by rewrite Ht.
    + intros q [Hq|Hq]%Hreach.
      * destruct (decide (q = end_ A)) as [->|Hne].
        -- rewrite Hend. simpl. lia.
        -- destruct (Hsame q Hne) as (-> & _ & _). by apply HA.
      * destruct (Hsame q (HBA q Hq)) as (-> & _ & _). by apply HB.
  - intros w. unfold lang. simpl. split.
    + intros Hrun.
      destruct (leave_once h h' A HS (start B) w (end_ B))
        as (u & w2 & -> & Hu & Hrest).
      * intros x. rewrite Hend. by intros ?%elem_of_list1.
      * intros Heq. apply (Hdis (start B)); [rewrite Heq|]; apply rtc_refl.
      * intros Hr. apply (Hdis (end_ B)); [done|apply HB].
      * done.
      * exists u, w2. split; [done|]. split; [done|]. by apply HlangB.
    + intros (u & v & -> & Hu & Hv). eapply run_app.
      * apply (through_once h h' A HS); [|done]. rewrite Hend. by apply elem_of_list1.
      * by apply HlangB.
  - intros q [Hq|Hq]%Hreach; right; [exists A|exists B];
      (split; [apply elem_of_list2; auto|done]).
  - split; [lia|]. intros q _ Hq. apply Hsame. intros ->. apply Hq.
    simpl. apply elem_of_list2. auto.
Qed.

Lemma fromSymbol_spec v h R h' :
  fromSymbol v h = (R, h') →
  Op h h' R (lang_sym (toString v)) [].
Proof.
  intros Hop.
  pose proof (fromSymbol_obs v h) as Hobs. rewrite Hop in Hobs.
  destruct Hobs as (Hs & He & Hlen & Heps & Htr & Hfin).
  destruct R as [s e]; simpl in Hs, He; subst s e.
  assert (∀ q, length h ≤ q → eps h' q = []) as Hnoeps.
  { intros q Hq. rewrite Heps. by apply eps_invalid. }
  assert (∀ k, trans h' (S (length h)) k = None) as Hnotr.
  { intros k. rewrite Htr, decide_False by lia. apply trans_invalid. lia. }
  assert (∀ q, reach h' (length h) q → q = length h ∨ q = S (length h)) as Hreach.
  { inversion 1 as [|? q' ? [Hin|[k Hk]] Hrest]; subst; [by left| |].
    - rewrite Hnoeps in Hin by lia. by apply elem_of_nil in Hin.
    - rewrite Htr in Hk. case_decide; [|by rewrite trans_invalid in Hk by lia].
      injection Hk as <-. right.
      apply reach_stuck in Hrest; [done|apply Hnoeps; lia|done]. }
  split; [|split; [|split]].
  - split; simpl.
    + apply Hnoeps. lia.
    + done.
    + rewrite Hfin. by rewrite decide_True.
    + eapply rtc_l; [|apply rtc_refl]. right. exists (toString v).
      rewrite Htr. by rewrite decide_True.
    + intros q [->| ->]%Hreach; lia.
    + intros q [->| ->]%Hreach; [|done].
      rewrite Hfin, decide_False, decide_True by lia. done.
    + intros q [->| ->]%Hreach; left; apply Hnoeps; lia.
    + intros q [->| ->]%Hreach; rewrite Hnoeps by lia; simpl; lia.
  - intros w. unfold lang. simpl. split.
    + inversion 1 as [|? q' ? ? Hin|? c q' w' ? _ Hk Hrest]; subst.
      * lia.
      * rewrite Hnoeps in Hin by lia. by apply elem_of_nil in Hin.
      * rewrite Htr in Hk. case_decide as Hc; [|by rewrite trans_invalid in Hk by lia].
        injection Hk as <-. destruct Hc as [_ Hc].
        apply run_stuck in Hrest as [-> _]; [|apply Hnoeps; lia|done].
        unfold lang_sym. by rewrite Hc.
    + intros ->. eapply run_sym; [apply Hnoeps; lia| |constructor].
      rewrite Htr. by rewrite decide_True.
  - intros q [->| ->]%Hreach; left; lia.
  - split; [lia|]. intros q Hq _. split; [done|split].
    + intros k. rewrite Htr. rewrite decide_False; [done|lia].
    + rewrite Hfin. by rewrite !decide_False by lia.
Qed.

Lemma fromEpsilon_spec h R h' :
  fromEpsilon h = (R, h') → Op h h' R lang_eps [].
Proof.
  intros Hop.
  pose proof (fromEpsilon_obs h) as Hobs. rewrite Hop in Hobs.
  destruct Hobs as (Hs & He & Hlen & Heps & Htr & Hfin).
  destruct R as [s e]; simpl in Hs, He; subst s e.
  assert (eps h' (length h) = [S (length h)]) as Hstart.
  { rewrite Heps. by rewrite decide_True. }
  assert (eps h' (S (length h)) = []) as Hend.
  { rewrite Heps, decide_False by lia. apply eps_invalid. lia. }
  assert (∀ q k, length h ≤ q → trans h' q k = None) as Hnotr.
  { intros q k Hq. rewrite Htr. by apply trans_invalid. }
  assert (∀ q, reach h' (length h) q → q = length h ∨ q = S (length h)) as Hreach.
  { inversion 1 as [|? q' ? [Hin|[k Hk]] Hrest]; subst; [by left| |].
    - rewrite Hstart in Hin. apply elem_of_list1 in Hin as ->. right.
      apply reach_stuck in Hrest; [done..|]. intros k. apply Hnotr. lia.
    - rewrite Hnotr in Hk by lia. done. }
  split; [|split; [|split]].
  - split; simpl.
    + done.
    + intros k. apply Hnotr. lia.
    + rewrite Hfin. by rewrite decide_True.
    + eapply rtc_l; [|apply rtc_refl]. left. rewrite Hstart. by apply elem_of_list1.
    + intros q [->| ->]%Hreach; lia.
    + intros q [->| ->]%Hreach; [|done].
      rewrite Hfin, decide_False, decide_True by lia. done.
    + intros q [->| ->]%Hreach; right; intros k; apply Hnotr; lia.
    + intros q [->| ->]%Hreach; rewrite ?Hstart, ?Hend; simpl; lia.
  - intros w. unfold lang, lang_eps. simpl. split.
    + inversion 1 as [|? q' ? ? Hin Hrest|? c q' w' ? Hnil Hk]; subst.
      * lia.
      * rewrite Hstart in Hin. apply elem_of_list1 in Hin as ->.
        apply run_stuck in Hrest as [-> _]; [done..|]. intros k. apply Hnotr. lia.
      * by rewrite Hstart in Hnil.
    + intros ->. eapply run_eps; [|constructor]. rewrite Hstart. by apply elem_of_list1.
  - intros q [->| ->]%Hreach; left; lia.
  - split; [lia|]. intros q Hq _. split; [|split; [done|]].
    + rewrite Heps. by rewrite decide_False by lia.
    + rewrite Hfin. by rewrite !decide_False by lia.
Qed.

(** * The parser on the text of a derivation *)

Lemma drop_S_tail {A} (l : list A) n : drop (S n) l = tail (drop n l).
Proof.
  revert n. induction l as [|a l IH]; intros [|n]; simpl; done.
Qed.

Lemma lookup_head_drop {A} (l : list A) n : l !! n = head (drop n l).
Proof. revert n. induction l as [|a l IH]; intros [|n]; simpl; auto. Qed.

Lemma rest_advance g : rest (advance g) = tail (rest g).
Proof. unfold rest, advance. simpl. apply drop_S_tail. Qed.

Lemma pattern_advance g : pattern (advance g) = pattern g.
Proof. done. Qed.

Lemma peek_cons g c r : rest g = c :: r → peek g = str (chr c).
Proof. unfold peek, rest. rewrite lookup_head_drop. by intros ->. Qed.

Lemma peek_nil g : rest g = [] → peek g = undefined.
Proof. unfold peek, rest. rewrite lookup_head_drop. by intros ->. Qed.

Lemma more_cons g c r : rest g = c :: r → hasMoreChars g = true.
Proof.
  unfold hasMoreChars, rest. intros Hr. apply bool_decide_eq_true.
  destruct (decide (pos g < length (pattern g))); [done|].
  rewrite drop_ge in Hr by lia. done.
Qed.

Lemma more_nil g : rest g = [] → hasMoreChars g = false.
Proof.
  unfold hasMoreChars, rest. intros Hr. apply bool_decide_eq_false.
  intros Hlt. apply (f_equal length) in Hr. rewrite length_drop in Hr.
  simpl in Hr. lia.
Qed.

Lemma rest_advance_cons g c r : rest g = c :: r → rest (advance g) = r.
Proof. intros Hr. by rewrite rest_advance, Hr. Qed.

Lemma match_cons g c r :
  rest g = c :: r → match_ (str (chr c)) g = (Ok tt, advance g).
Proof.
  intros Hr. unfold match_. rewrite (peek_cons g c r Hr).
  by rewrite bool_decide_eq_false_2 by (intros Hne; by apply Hne).
Qed.

Lemma next_cons g c r :
  rest g = c :: r → next g = (Ok (str (chr c)), advance g).
Proof.
  intros Hr. unfold next, bind. rewrite (peek_cons g c r Hr).
  by rewrite (match_cons g c r Hr).
Qed.

Lemma str_chr_inj c c' : str (chr c) = str (chr c') ↔ c = c'.
Proof. split; [by intros [= ->]|by intros ->]. Qed.

Lemma isMetaChar_chr c :
  isMetaChar (str (chr c)) = bool_decide (c = "*" ∨ c = "+" ∨ c = "?").
Proof.
  unfold isMetaChar.
  change (str "*") with (str (chr "*")). change (str "+") with (str (chr "+")).
  change (str "?") with (str (chr "?")).
  rewrite !(bool_decide_ext _ _ (str_chr_inj _ _)).
  repeat case_bool_decide; simpl; try done; exfalso; tauto.
Qed.

Lemma isMetaChar_undefined : isMetaChar undefined = false.
Proof. done. Qed.

Lemma special_false c :
  special c = false →
  c ≠ "*" ∧ c ≠ "+" ∧ c ≠ "?" ∧ c ≠ "(" ∧ c ≠ ")" ∧ c ≠ "|" ∧ c ≠ "\".
Proof.
  unfold special. intros Hs%bool_decide_eq_false.
  repeat split; intros ->; apply Hs; repeat (constructor; try done).
Qed.

Lemma first_yield :
  (∀ e, wf_expr e → ∃ c r, yield_expr e = c :: r ∧ first_ok c)
  ∧ (∀ t, wf_term t → ∃ c r, yield_term t = c :: r ∧ first_ok c)
  ∧ (∀ f, wf_factor f → ∃ c r, yield_factor f = c :: r ∧ first_ok c)
  ∧ (∀ a, wf_atom a → ∃ c r, yield_atom a = c :: r ∧ first_ok c).
Proof.
  apply grammar_mutind; simpl.
  - auto.
  - intros t IHt e _ [Ht _]%andb_True.
    destruct (IHt Ht) as (c & r & -> & Hc). by eexists _, _.
  - auto.
  - intros f IHf t _ [Hf _]%andb_True.
    destruct (IHf Hf) as (c & r & -> & Hc). by eexists _, _.
  - auto.
  - intros a IHa m Ha.
    destruct (IHa Ha) as (c & r & -> & Hc). by eexists _, _.
  - intros [c|c]; simpl.
    + intros Hc%negb_True%Is_true_false_1%special_false.
      exists c, []. split; [done|]. unfold first_ok. tauto.
    + intros _. eexists _, _. split; [done|]. by repeat split.
  - intros e _ _. eexists _, _. split; [done|]. by repeat split.
Qed.

Lemma char_complete c g post :
  wf_char c → rest g = yield_char c ++ post →
  parsed (char g) g (tree_char c) post.
Proof.
  destruct c as [c|c]; simpl.
  - intros Hc%negb_True%Is_true_false_1%special_false Hr.
    destruct Hc as (? & ? & ? & ? & ? & ? & ?).
    unfold char. rewrite (peek_cons _ _ _ Hr), isMetaChar_chr.
    rewrite bool_decide_eq_false_2 by tauto.
    change (str "\") with (str (chr "\")).
    rewrite bool_decide_eq_false_2 by (by rewrite str_chr_inj).
    unfold bind. rewrite (next_cons _ _ _ Hr). simpl.
    exists (advance g). split; [done|]. split; [|done].
    by eapply rest_advance_cons.
  - intros _ Hr.
    unfold char. rewrite (peek_cons _ _ _ Hr), isMetaChar_chr.
    rewrite bool_decide_eq_false_2 by (by intros [|[|]]).
    change (str "\") with (str (chr "\")).
    rewrite bool_decide_eq_true_2 by done.
    unfold bind. rewrite (match_cons _ _ _ Hr).
    pose proof (rest_advance_cons _ _ _ Hr) as Hr'.
    rewrite (next_cons _ _ _ Hr'). simpl.
    exists (advance (advance g)). split; [done|]. split; [|done].
    by eapply rest_advance_cons.
Qed.

(** The lookahead tests of the rules. *)
Lemma cond_bar_stop g post :
  rest g = post → follow_expr post →
  hasMoreChars g && bool_decide (peek g = str "|") = false.
Proof.
  intros Hr Hf. destruct post as [|c r].
  - by rewrite (more_nil _ Hr).
  - simpl in Hf. subst c. rewrite (peek_cons _ _ _ Hr).
    rewrite (bool_decide_eq_false_2 (str (chr ")") = str "|")) by done.
    apply andb_false_r.
Qed.

Lemma cond_bar_go g r :
  rest g = ("|" : cu) :: r →
  hasMoreChars g && bool_decide (peek g = str "|") = true.
Proof.
  intros Hr. by rewrite (more_cons _ _ _ Hr), (peek_cons _ _ _ Hr).
Qed.

Lemma cond_term_stop g post :
  rest g = post → follow_term post →
  hasMoreChars g && bool_decide (peek g ≠ str ")")
  && bool_decide (peek g ≠ str "|") = false.
Proof.
  intros Hr Hf. destruct post as [|c r].
  - by rewrite (more_nil _ Hr).
  - simpl in Hf. rewrite (peek_cons _ _ _ Hr), (more_cons _ _ _ Hr).
    by destruct Hf as [->| ->].
Qed.

Lemma cond_term_go g c r :
  rest g = c :: r → first_ok c →
  hasMoreChars g && bool_decide (peek g ≠ str ")")
  && bool_decide (peek g ≠ str "|") = true.
Proof.
  intros Hr (_ & _ & _ & H1 & H2).
  rewrite (peek_cons _ _ _ Hr), (more_cons _ _ _ Hr).
  change (str ")") with (str (chr ")")). change (str "|") with (str (chr "|")).
  rewrite !bool_decide_eq_true_2; [done|by rewrite str_chr_inj..].
Qed.

Lemma cond_meta_stop g post :
  rest g = post → follow_factor post →
  hasMoreChars g && isMetaChar (peek g) = false.
Proof.
  intros Hr Hf. destruct post as [|c r].
  - by rewrite (more_nil _ Hr).
  - simpl in Hf. rewrite (peek_cons _ _ _ Hr), isMetaChar_chr.
    rewrite bool_decide_eq_false_2 by tauto. apply andb_false_r.
Qed.

Lemma cond_meta_go g m r :
  rest g = meta_char m :: r →
  hasMoreChars g && isMetaChar (peek g) = true.
Proof.
  intros Hr. rewrite (peek_cons _ _ _ Hr), (more_cons _ _ _ Hr).
  by destruct m.
Qed.

Lemma cond_paren_stop g c r :
  rest g = c :: r → c ≠ "(" → bool_decide (peek g = str "(") = false.
Proof.
  intros Hr Hc. rewrite (peek_cons _ _ _ Hr).
  change (str "(") with (str (chr "(")).
  by rewrite bool_decide_eq_false_2 by (by rewrite str_chr_inj).
Qed.

Lemma follow_expr_term post : follow_expr post → follow_term post.
Proof. destruct post; simpl; auto. Qed.

Lemma follow_term_factor post : follow_term post → follow_factor post.
Proof. destruct post; simpl; [done|]. by intros [->| ->]. Qed.

Lemma first_follow_factor c r : first_ok c → follow_factor (c :: r).
Proof. unfold first_ok. simpl. tauto. Qed.

Lemma yield_char_first c post :
  wf_char c → ∃ a r, yield_char c ++ post = a :: r ∧ a ≠ "(".
Proof.
  destruct c as [c|c]; simpl.
  - intros Hc%negb_True%Is_true_false_1%special_false.
    exists c, post. split; [done|]. tauto.
  - intros _. by eexists _, _.
Qed.

Lemma rules_complete :
  (∀ e, wf_expr e → ∀ fuel g post,
     rest g = yield_expr e ++ post → follow_expr post →
     height_expr e ≤ fuel → parsed (expr fuel g) g (tree_expr e) post)
  ∧ (∀ t, wf_term t → ∀ fuel g post,
     rest g = yield_term t ++ post → follow_term post →
     height_term t ≤ fuel → parsed (term fuel g) g (tree_term t) post)
  ∧ (∀ f, wf_factor f → ∀ fuel g post,
     rest g = yield_factor f ++ post → follow_factor post →
     height_factor f ≤ fuel → parsed (factor fuel g) g (tree_factor f) post)
  ∧ (∀ a, wf_atom a → ∀ fuel g post,
     rest g = yield_atom a ++ post →
     height_atom a ≤ fuel → parsed (atom fuel g) g (tree_atom a) post).
Proof.
  apply grammar_mutind.
  - (* Expr -> Term *)
    intros t IHt Hwf [|fuel] g post Hr Hfol Hh; simpl in *; [lia|].
    destruct (IHt Hwf fuel g post Hr) as (g1 & E1 & Hr1 & Hp1);
      [by apply follow_expr_term|lia|].
    unfold bind. rewrite E1, (cond_bar_stop g1 post) by done.
    by exists g1.
  - (* Expr -> Term '|' Expr *)
    intros t IHt e IHe [Ht He]%andb_True [|fuel] g post Hr Hfol Hh;
      simpl in *; [lia|].
    rewrite <- app_assoc in Hr. simpl in Hr.
    destruct (IHt Ht fuel g _ Hr) as (g1 & E1 & Hr1 & Hp1); [by right|lia|].
    unfold bind. rewrite E1, (cond_bar_go g1 _ Hr1).
    change (str "|") with (str (chr "|")). rewrite (match_cons _ _ _ Hr1).
    pose proof (rest_advance_cons _ _ _ Hr1) as Hr2.
    destruct (IHe He fuel (advance g1) post Hr2) as (g2 & E2 & Hr3 & Hp3);
      [done|lia|].
    rewrite E2. exists g2. split; [done|]. split; [done|]. by rewrite Hp3.
  - (* Term -> Factor *)
    intros f IHf Hwf [|fuel] g post Hr Hfol Hh; simpl in *; [lia|].
    destruct (IHf Hwf fuel g post Hr) as (g1 & E1 & Hr1 & Hp1);
      [by apply follow_term_factor|lia|].
    unfold bind. rewrite E1, (cond_term_stop g1 post) by done.
    by exists g1.
  - (* Term -> Factor Term *)
    intros f IHf t IHt [Hf Ht]%andb_True [|fuel] g post Hr Hfol Hh;
      simpl in *; [lia|].
    rewrite <- app_assoc in Hr.
    destruct (proj1 (proj2 first_yield) t Ht) as (c & r & Hy & Hc).
    destruct (IHf Hf fuel g _ Hr) as (g1 & E1 & Hr1 & Hp1);
      [rewrite Hy; by apply first_follow_factor|lia|].
    unfold bind. rewrite E1.
    rewrite (cond_term_go g1 c (r ++ post))
      by first [done | by rewrite Hr1, Hy].
    destruct (IHt Ht fuel g1 post Hr1) as (g2 & E2 & Hr2 & Hp2); [done|lia|].
    rewrite E2. exists g2. split; [done|]. split; [done|]. by rewrite Hp2.
  - (* Factor -> Atom *)
    intros a IHa Hwf [|fuel] g post Hr Hfol Hh; simpl in *; [lia|].
    destruct (IHa Hwf fuel g post Hr) as (g1 & E1 & Hr1 & Hp1); [lia|].
    unfold bind. rewrite E1, (cond_meta_stop g1 post) by done.
    by exists g1.
  - (* Factor -> Atom MetaChar *)
    intros a IHa m Hwf [|fuel] g post Hr Hfol Hh; simpl in *; [lia|].
    rewrite <- app_assoc in Hr. simpl in Hr.
    destruct (IHa Hwf fuel g _ Hr) as (g1 & E1 & Hr1 & Hp1); [lia|].
    unfold bind. rewrite E1, (cond_meta_go g1 _ _ Hr1), (next_cons _ _ _ Hr1).
    exists (advance g1). split; [done|]. split; [|done].
    by eapply rest_advance_cons.
  - (* Atom -> Char *)
    intros c Hwf [|fuel] g post Hr Hh; simpl in *; [lia|].
    destruct (yield_char_first c post Hwf) as (a & r & Hy & Ha).
    rewrite (cond_paren_stop g a r) by first [done | by rewrite Hr, Hy].
    destruct (char_complete c g post Hwf Hr) as (g1 & E1 & Hr1 & Hp1).
    unfold bind. rewrite E1. by exists g1.
  - (* Atom -> '(' Expr ')' *)
    intros e IHe Hwf [|fuel] g post Hr Hh; simpl in *; [lia|].
    rewrite (peek_cons _ _ _ Hr).
    rewrite bool_decide_eq_true_2 by done.
    unfold bind. change (str "(") with (str (chr "(")).
    change (str ")") with (str (chr ")")). rewrite (match_cons _ _ _ Hr).
    pose proof (rest_advance_cons _ _ _ Hr) as Hr1.
    rewrite <- app_assoc in Hr1. simpl in Hr1.
    destruct (IHe Hwf fuel (advance g) _ Hr1) as (g2 & E2 & Hr2 & Hp2);
      [done|lia|].
    rewrite E2, (match_cons _ _ _ Hr2).
    exists (advance g2). split; [done|]. split; [|simpl; by rewrite Hp2].
    by eapply rest_advance_cons.
Qed.

(** * The compilers build a fragment with the language of the derivation *)

Lemma same_refl h q : same h h q.
Proof. by repeat split. Qed.

Lemma same_trans h1 h2 h3 q : same h1 h2 q → same h2 h3 q → same h1 h3 q.
Proof.
  intros (E1 & T1 & F1) (E2 & T2 & F2). repeat split.
  - by rewrite E2.
  - intros k. by rewrite T2.
  - by rewrite F2.
Qed.

(** A built fragment is untouched by later allocation on top of its heap. *)
Lemma built_frame h h1 h2 A L :
  Built h h1 A L → length h1 ≤ length h2 →
  (∀ q, q < length h1 → same h1 h2 q) →
  Built h h2 A L ∧ (∀ q, reach h2 (start A) q → q < length h1).
Proof.
  intros (HF & HL & Hlo & Hlen & Hsame) Hlen2 Hsame2.
  destruct (frag_same h1 h2 A HF Hlen2) as (HF2 & HL2 & Hr2).
  { intros q Hq. apply Hsame2. by apply (frag_valid _ _ HF). }
  split; [split; [done|split; [|split; [|split]]]|].
  - intros w. by rewrite HL2.
  - intros q Hq%Hr2. by apply Hlo.
  - lia.
  - intros q Hq. eapply same_trans; [by apply Hsame|]. apply Hsame2. lia.
  - intros q Hq%Hr2. by apply (frag_valid _ _ HF).
Qed.

(** An operator applied to fragments built on top of [h] builds on top
    of [h]. *)
Lemma built_op h h1 h2 R L inputs :
  length h ≤ length h1 → (∀ q, q < length h → same h h1 q) →
  (∀ A, A ∈ inputs → Frag h1 A) →
  (∀ A q, A ∈ inputs → reach h1 (start A) q → length h ≤ q) →
  Op h1 h2 R L inputs → Built h h2 R L.
Proof.
  intros Hlen Hsame HFs Hlo (HF & HL & Hreach & Hlen2 & Hkeep).
  split; [done|split; [done|split; [|split]]].
  - intros q [Hq|(A & HA & Hq)]%Hreach; [lia|by eapply Hlo].
  - lia.
  - intros q Hq. eapply same_trans; [by apply Hsame|]. apply Hkeep; [lia|].
    intros (A & -> & HA)%list_elem_of_fmap.
    pose proof (Hlo A (end_ A) HA (frag_reach_end _ _ (HFs A HA))). lia.
Qed.

Lemma built_op0 h h' R L : Op h h' R L [] → Built h h' R L.
Proof.
  apply built_op; [done|intros; apply same_refl|..].
  - by intros ? ?%elem_of_nil.
  - by intros ? ? ?%elem_of_nil.
Qed.

Lemma built_op1 h h1 h2 A LA R L :
  Built h h1 A LA → Op h1 h2 R L [A] → Built h h2 R L.
Proof.
  intros (HF & HL & Hlo & Hlen & Hsame). apply built_op; [done..| |].
  - by intros ? ->%elem_of_list1.
  - intros ? q ->%elem_of_list1. apply Hlo.
Qed.

Lemma built_disjoint h h1 h2 A LA B LB :
  Built h h1 A LA → Built h1 h2 B LB →
  Built h h2 A LA ∧ disjoint h2 A B.
Proof.
  intros HA (HFB & HLB & HloB & HlenB & HsameB).
  destruct (built_frame h h1 h2 A LA HA HlenB HsameB) as [HA2 Hhi].
  split; [done|]. intros q Hq1%Hhi Hq2%HloB. lia.
Qed.

Lemma built_op2 h h1 h2 h3 A LA B LB R L :
  Built h h1 A LA → Built h1 h2 B LB →
  Op h2 h3 R L [A; B] → Built h h3 R L.
Proof.
  intros HA HB.
  destruct (built_disjoint _ _ _ _ _ _ _ HA HB)
    as [(HFA & HLA & HloA & HlenA & HsameA) Hdis].
  destruct HB as (HFB & HLB & HloB & HlenB & HsameB).
  destruct HA as (_ & _ & _ & Hlen1 & _).
  apply built_op; [done..| |].
  - by intros ? [->| ->]%elem_of_list2.
  - intros ? q [->| ->]%elem_of_list2 Hq; [by apply HloA|].
    apply HloB in Hq. lia.
Qed.

Lemma built_lang h h' R L L' :
  Built h h' R L → (∀ w, L w ↔ L' w) → Built h h' R L'.
Proof.
  intros (HF & HL & Hrest) HLL'. split; [done|split; [|done]].
  intros w. by rewrite HL.
Qed.

Lemma built_recognize h h' R L w :
  Built h h' R L → recognize h' R w = Some true ↔ L (codePoints w).
Proof. intros (HF & HL & _). by rewrite recognize_lang. Qed.

(** The tree compiler on each shape of node the parser produces. *)
Lemma compile_Expr1 c0 :
  toNFAfromParseTree (Node (str "Expr") (Some [c0]))
  = bindH (toNFAfromParseTree c0) (λ trm, liftH (pair trm)).
Proof. reflexivity. Qed.

Lemma compile_Expr3 c0 c1 c2 :
  toNFAfromParseTree (Node (str "Expr") (Some [c0; c1; c2]))
  = bindH (toNFAfromParseTree c0) (λ trm,
      bindH (toNFAfromParseTree c2) (λ e, liftH (union trm e))).
Proof. reflexivity. Qed.

Lemma compile_Term1 c0 :
  toNFAfromParseTree (Node (str "Term") (Some [c0]))
  = bindH (toNFAfromParseTree c0) (λ factr, liftH (pair factr)).
Proof. reflexivity. Qed.

Lemma compile_Term2 c0 c1 :
  toNFAfromParseTree (Node (str "Term") (Some [c0; c1]))
  = bindH (toNFAfromParseTree c0) (λ factr,
      bindH (toNFAfromParseTree c1) (λ t, liftH (concat factr t))).
Proof. reflexivity. Qed.

Lemma compile_Factor1 c0 :
  toNFAfromParseTree (Node (str "Factor") (Some [c0]))
  = bindH (toNFAfromParseTree c0) (λ atm, liftH (pair atm)).
Proof. reflexivity. Qed.

Lemma compile_Factor2 c0 m :
  toNFAfromParseTree (Node (str "Factor") (Some [c0; lf (meta_char m)]))
  = bindH (toNFAfromParseTree c0) (λ atm,
      liftH (match m with
             | Star => closure atm
             | Plus => oneOrMore atm
             | Quest => zeroOrOne atm
             end)).
Proof. by destruct m. Qed.

Lemma compile_Atom1 c0 :
  toNFAfromParseTree (Node (str "Atom") (Some [c0])) = toNFAfromParseTree c0.
Proof. reflexivity. Qed.

Lemma compile_Atom3 c0 c1 c2 :
  toNFAfromParseTree (Node (str "Atom") (Some [c0; c1; c2]))
  = toNFAfromParseTree c1.
Proof. reflexivity. Qed.

Lemma compile_Char c :
  toNFAfromParseTree (tree_char c) = liftH (fromSymbol (str (chr (char_of c)))).
Proof. by destruct c. Qed.

Lemma den_char_units c us :
  lang_sym (chr (char_of c)) us ↔ units (den_char c) us.
Proof. destruct c; simpl; by rewrite units_sym. Qed.

Lemma fromSymbol_built c h :
  ∃ R h', fromSymbol (str (chr (char_of c))) h = (R, h')
          ∧ Built h h' R (units (den_char c)).
Proof.
  destruct (fromSymbol (str (chr (char_of c))) h) as [R h'] eqn:E.
  exists R, h'. split; [done|].
  eapply built_lang; [apply built_op0, (fromSymbol_spec _ _ _ _ E)|].
  intros w. by rewrite <- den_char_units.
Qed.

Lemma lang_star_ext (L L' : language) :
  (∀ w, L w ↔ L' w) → ∀ w, lang_star L w ↔ lang_star L' w.
Proof.
  intros HL w. unfold lang_star.
  split; intros (ws & -> & Hws); exists ws; (split; [done|]);
    eapply Forall_impl; try done; intros; by apply HL.
Qed.

Lemma lang_plus_ext (L L' : language) :
  (∀ w, L w ↔ L' w) → ∀ w, lang_plus L w ↔ lang_plus L' w.
Proof.
  intros HL w. unfold lang_plus.
  split; intros (ws & ? & -> & Hws); exists ws; (do 2 (split; [done|]));
    eapply Forall_impl; try done; intros; by apply HL.
Qed.

Lemma lang_opt_ext (L L' : language) :
  (∀ w, L w ↔ L' w) → ∀ w, lang_opt L w ↔ lang_opt L' w.
Proof. intros HL w. unfold lang_opt. by rewrite HL. Qed.

Lemma meta_op_built m h h1 A LA :
  Built h h1 A LA →
  ∃ R h2, meta_op m A h1 = (R, h2) ∧ Built h h2 R (den_meta m LA).
Proof.
  intros HA. pose proof HA as (HF & HL & _).
  destruct (meta_op m A h1) as [R h2] eqn:E. exists R, h2. split; [done|].
  destruct m; simpl in *.
  - eapply built_lang; [eapply built_op1, closure_spec; done|].
    by apply lang_star_ext.
  - eapply built_lang; [eapply built_op1, oneOrMore_spec; done|].
    by apply lang_plus_ext.
  - eapply built_lang; [eapply built_op1, zeroOrOne_spec; done|].
    by apply lang_opt_ext.
Qed.

Lemma union_built h h1 h2 A LA B LB :
  Built h h1 A LA → Built h1 h2 B LB →
  ∃ R h3, union A B h2 = (R, h3) ∧ Built h h3 R (lang_union LA LB).
Proof.
  intros HA HB.
  destruct (built_disjoint _ _ _ _ _ _ _ HA HB) as [(HFA & HLA & _) Hdis].
  pose proof HB as (HFB & HLB & _).
  destruct (union A B h2) as [R h3] eqn:E. exists R, h3. split; [done|].
  eapply built_lang.
  - eapply (built_op2 _ _ _ _ _ _ _ _ _ _ HA HB).
    apply union_spec; [done..|by right|done].
  - intros w. unfold lang_union. by rewrite HLA, HLB.
Qed.

Lemma concat_built h h1 h2 A LA B LB :
  Built h h1 A LA → Built h1 h2 B LB →
  ∃ R h3, concat A B h2 = (R, h3) ∧ Built h h3 R (lang_concat LA LB).
Proof.
  intros HA HB.
  destruct (built_disjoint _ _ _ _ _ _ _ HA HB) as [(HFA & HLA & _) Hdis].
  pose proof HB as (HFB & HLB & _).
  destruct (concat A B h2) as [R h3] eqn:E. exists R, h3. split; [done|].
  eapply built_lang.
  - eapply (built_op2 _ _ _ _ _ _ _ _ _ _ HA HB).
    by apply concat_spec.
  - intros w. unfold lang_concat. setoid_rewrite HLA. by setoid_rewrite HLB.
Qed.

(** ** The tree compiler *)

Lemma compile_tree :
  (∀ e, compiled (tree_expr e) (units (den_expr e)))
  ∧ (∀ t, compiled (tree_term t) (units (den_term t)))
  ∧ (∀ f, compiled (tree_factor f) (units (den_factor f)))
  ∧ (∀ a, compiled (tree_atom a) (units (den_atom a))).
Proof.
  apply grammar_mutind; unfold compiled;
    cbn [tree_expr tree_term tree_factor tree_atom
         den_expr den_term den_factor den_atom].
  - intros t IHt h. destruct (IHt h) as (A & h1 & E1 & HA).
    rewrite compile_Expr1. unfold bindH. rewrite E1. by exists A, h1.
  - intros t IHt e IHe h.
    destruct (IHt h) as (A & h1 & E1 & HA).
    destruct (IHe h1) as (B & h2 & E2 & HB).
    destruct (union_built _ _ _ _ _ _ _ HA HB) as (R & h3 & E3 & HR).
    rewrite compile_Expr3. unfold bindH, liftH. rewrite E1, E2, E3.
    exists R, h3. split; [done|]. eapply built_lang; [exact HR|].
    intros w. by rewrite units_union.
  - intros f IHf h. destruct (IHf h) as (A & h1 & E1 & HA).
    rewrite compile_Term1. unfold bindH. rewrite E1. by exists A, h1.
  - intros f IHf t IHt h.
    destruct (IHf h) as (A & h1 & E1 & HA).
    destruct (IHt h1) as (B & h2 & E2 & HB).
    destruct (concat_built _ _ _ _ _ _ _ HA HB) as (R & h3 & E3 & HR).
    rewrite compile_Term2. unfold bindH, liftH. rewrite E1, E2, E3.
    exists R, h3. split; [done|]. eapply built_lang; [exact HR|].
    intros w. by rewrite units_concat.
  - intros a IHa h. destruct (IHa h) as (A & h1 & E1 & HA).
    rewrite compile_Factor1. unfold bindH. rewrite E1. by exists A, h1.
  - intros a IHa m h. destruct (IHa h) as (A & h1 & E1 & HA).
    destruct (meta_op_built m _ _ _ _ HA) as (R & h2 & E2 & HR).
    rewrite compile_Factor2. unfold bindH, liftH. rewrite E1.
    exists R, h2. split; [destruct m; simpl in E2; by rewrite E2|].
    eapply built_lang; [exact HR|]. intros w. by rewrite units_meta.
  - intros c h. rewrite compile_Atom1, compile_Char.
    destruct (fromSymbol_built c h) as (R & h' & E & HR).
    unfold liftH. rewrite E. by exists R, h'.
  - intros e IHe h. rewrite compile_Atom3. apply IHe.
Qed.

(** ** The postfix compiler *)

Lemma toNFA_loop_app ts1 ts2 : ∀ st h,
  toNFA_loop (ts1 ++ ts2) st h
  = let '(st', h') := toNFA_loop ts1 st h in toNFA_loop ts2 st' h'.
Proof.
  induction ts1 as [|t ts1 IH]; intros st h; simpl; [done|].
  destruct (toNFA_step t st h) as [st1 h1]. apply IH.
Qed.

Lemma toNFA_step_symbol c st h :
  postfix_operator c = false →
  toNFA_step (chr c) st h
  = let '(r, h') := fromSymbol (str (chr c)) h in (r :: st, h').
Proof.
  unfold postfix_operator. intros Hc%bool_decide_eq_false.
  unfold toNFA_step.
  repeat (rewrite decide_False;
          [|intros [= ->]; apply Hc; repeat (constructor; try done)]).
  done.
Qed.

Lemma toNFA_step_meta m A st h :
  toNFA_step (chr (meta_char m)) (A :: st) h
  = let '(r, h') := meta_op m A h in (r :: st, h').
Proof. by destruct m. Qed.

Lemma toNFA_step_union A B st h :
  toNFA_step (chr "|") (B :: A :: st) h
  = let '(r, h') := union A B h in (r :: st, h').
Proof. done. Qed.

Lemma toNFA_step_concat A B st h :
  toNFA_step (chr ".") (B :: A :: st) h
  = let '(r, h') := concat A B h in (r :: st, h').
Proof. done. Qed.

Lemma compile_postfix :
  (∀ e, postfix_ok_expr e → pushed (postfix_expr e) (units (den_expr e)))
  ∧ (∀ t, postfix_ok_term t → pushed (postfix_term t) (units (den_term t)))
  ∧ (∀ f, postfix_ok_factor f →
       pushed (postfix_factor f) (units (den_factor f)))
  ∧ (∀ a, postfix_ok_atom a → pushed (postfix_atom a) (units (den_atom a))).
Proof.
  apply grammar_mutind; unfold pushed;
    cbn [postfix_expr postfix_term postfix_factor postfix_atom
         postfix_ok_expr postfix_ok_term postfix_ok_factor postfix_ok_atom
         den_expr den_term den_factor den_atom].
  - auto.
  - intros t IHt e IHe [Ht He]%andb_True st h.
    destruct (IHt Ht st h) as (A & h1 & E1 & HA).
    destruct (IHe He (A :: st) h1) as (B & h2 & E2 & HB).
    destruct (union_built _ _ _ _ _ _ _ HA HB) as (R & h3 & E3 & HR).
    rewrite !fmap_app, toNFA_loop_app, E1. cbv beta iota.
    rewrite toNFA_loop_app, E2. cbn [toNFA_loop fmap list_fmap].
    rewrite toNFA_step_union, E3.
    exists R, h3. split; [done|]. eapply built_lang; [exact HR|].
    intros w. by rewrite units_union.
  - auto.
  - intros f IHf t IHt [Hf Ht]%andb_True st h.
    destruct (IHf Hf st h) as (A & h1 & E1 & HA).
    destruct (IHt Ht (A :: st) h1) as (B & h2 & E2 & HB).
    destruct (concat_built _ _ _ _ _ _ _ HA HB) as (R & h3 & E3 & HR).
    rewrite !fmap_app, toNFA_loop_app, E1. cbv beta iota.
    rewrite toNFA_loop_app, E2. cbn [toNFA_loop fmap list_fmap].
    rewrite toNFA_step_concat, E3.
    exists R, h3. split; [done|]. eapply built_lang; [exact HR|].
    intros w. by rewrite units_concat.
  - auto.
  - intros a IHa m Ha st h.
    destruct (IHa Ha st h) as (A & h1 & E1 & HA).
    destruct (meta_op_built m _ _ _ _ HA) as (R & h2 & E2 & HR).
    rewrite fmap_app, toNFA_loop_app, E1. cbn [toNFA_loop fmap list_fmap].
    rewrite toNFA_step_meta, E2.
    exists R, h2. split; [done|]. eapply built_lang; [exact HR|].
    intros w. by rewrite units_meta.
  - intros c Hc%negb_True%Is_true_false_1 st h.
    destruct (fromSymbol_built c h) as (R & h' & E & HR).
    cbn [toNFA_loop fmap list_fmap].
    rewrite toNFA_step_symbol, E by done. by exists R, h'.
  - auto.
Qed.

(** ** The entry points *)

Lemma height_bound :
  (∀ e, height_expr e ≤ 4 * length (yield_expr e))
  ∧ (∀ t, height_term t + 1 ≤ 4 * length (yield_term t))
  ∧ (∀ f, height_factor f + 2 ≤ 4 * length (yield_factor f))
  ∧ (∀ a, height_atom a + 3 ≤ 4 * length (yield_atom a)).
Proof.
  apply grammar_mutind; simpl; intros; rewrite ?length_app; simpl; try lia.
  destruct c; simpl; lia.
Qed.

Lemma toParseTree_complete e g :
  wf_expr e →
  ∃ g', toParseTree (yield_expr e) g = (Ok (tree_expr e), g')
        ∧ pattern g' = yield_expr e.
Proof.
  intros Hwf. unfold toParseTree.
  destruct (proj1 rules_complete e Hwf (parse_fuel (yield_expr e))
              {| pattern := yield_expr e; pos := 0 |} [])
    as (g' & E & _ & Hp).
  - unfold rest. simpl. by rewrite app_nil_r.
  - done.
  - unfold parse_fuel. pose proof (proj1 height_bound e). lia.
  - by exists g'.
Qed.

Lemma toNFAFromInfixExp_built p g h :
  wf_pattern p →
  ∃ R g' h', toNFAFromInfixExp (yield p) g h = (Ok R, g', h')
             ∧ Built h h' R (units (den p)).
Proof.
  destruct p as [|e]; cbn [yield den wf_pattern]; intros Hwf.
  - destruct (fromEpsilon h) as [R h'] eqn:E. exists R, g, h'.
    split; [unfold toNFAFromInfixExp; by rewrite E|].
    eapply built_lang; [by apply built_op0, fromEpsilon_spec|].
    intros w. by rewrite units_eps.
  - destruct (proj1 first_yield e Hwf) as (c & r & Hy & _).
    destruct (toParseTree_complete e g Hwf) as (g' & E & _).
    destruct (proj1 compile_tree e h) as (R & h' & E' & HR).
    exists R, g', h'. split; [|done]. unfold toNFAFromInfixExp.
    rewrite E, E'. by rewrite Hy.
Qed.

Lemma postfix_nonempty :
  (∀ e, postfix_expr e ≠ []) ∧ (∀ t, postfix_term t ≠ [])
  ∧ (∀ f, postfix_factor f ≠ []) ∧ (∀ a, postfix_atom a ≠ []).
Proof.
  apply grammar_mutind; simpl; try done;
    intros; intros [? ?]%app_eq_nil; done.
Qed.

Lemma toNFA_built e h :
  postfix_ok_expr e → has_pair (postfix_expr e) = false →
  ∃ R h', toNFA (postfix_expr e) h = (Some R, h')
          ∧ Built h h' R (units (den_expr e)).
Proof.
  intros Hok Hp%codePoints_units.
  destruct (proj1 compile_postfix e Hok [] h) as (R & h' & E & HR).
  exists R, h'. split; [|done]. unfold toNFA. rewrite Hp.
  destruct (postfix_expr e) eqn:Ep; [by apply (proj1 postfix_nonempty) in Ep|].
  by rewrite E.
Qed.

(** * The parser on any input *)

Lemma next_spec g : next g = (Ok (peek g), advance g).
Proof.
  unfold next, bind, match_.
  by rewrite bool_decide_eq_false_2 by (intros Hne; by apply Hne).
Qed.

Lemma rest_advance_length g : length (rest (advance g)) = length (rest g) - 1.
Proof. rewrite rest_advance. destruct (rest g); simpl; lia. Qed.

Lemma peek_rest g :
  peek g = match rest g with [] => undefined | c :: _ => str (chr c) end.
Proof.
  destruct (rest g) eqn:E; [by apply peek_nil|by eapply peek_cons].
Qed.

Lemma match_spec ch g :
  match_ ch g = if bool_decide (peek g ≠ ch)
                then (Throw (Error (js "Unexpected symbol " ++ toString ch)), g)
                else (Ok tt, advance g).
Proof. done. Qed.

Lemma char_post g :
  pattern (snd (char g)) = pattern g ∧
  match fst (char g) with
  | Ok _ => length (rest (snd (char g))) ≤ length (rest g) - 1
  | Throw e => parse_error e (snd (char g))
  | OutOfFuel => False
  end.
Proof.
  unfold char. destruct (isMetaChar (peek g)) eqn:Hm.
  - simpl. split; [done|]. right.
    rewrite peek_rest in Hm. destruct (rest g) as [|c r] eqn:Hr; [done|].
    rewrite isMetaChar_chr in Hm. apply bool_decide_eq_true in Hm.
    exists c, r. by rewrite (peek_cons _ _ _ Hr).
  - case_bool_decide as Hb.
    + unfold bind. rewrite match_spec, Hb.
      rewrite bool_decide_eq_false_2 by (intros Hne; by apply Hne).
      rewrite next_spec. simpl. split; [done|].
      rewrite !rest_advance_length. lia.
    + unfold bind. rewrite next_spec. simpl. split; [done|].
      rewrite rest_advance_length. lia.
Qed.

Lemma peek_inv g c : peek g = str (chr c) → ∃ r, rest g = c :: r.
Proof.
  rewrite peek_rest. destruct (rest g) as [|c' r]; [done|].
  intros [= ->]. by exists r.
Qed.

Lemma follow_term_stop g :
  follow_term (rest g) →
  hasMoreChars g && bool_decide (peek g = str "|") = false →
  follow_expr (rest g).
Proof.
  intros Hf Hc. destruct (rest g) as [|c r] eqn:Hr; [done|].
  simpl in *. destruct Hf as [->| ->]; [done|].
  by rewrite (cond_bar_go _ _ Hr) in Hc.
Qed.

Lemma term_stop_follow g :
  hasMoreChars g && bool_decide (peek g ≠ str ")")
  && bool_decide (peek g ≠ str "|") = false →
  follow_term (rest g).
Proof.
  intros Hc. destruct (rest g) as [|c r] eqn:Hr; [done|]. simpl.
  rewrite (more_cons _ _ _ Hr), (peek_cons _ _ _ Hr) in Hc.
  change (str ")") with (str (chr ")")) in Hc.
  change (str "|") with (str (chr "|")) in Hc.
  destruct (decide (c = ")")) as [->|H1]; [by left|].
  destruct (decide (c = "|")) as [->|H2]; [by right|].
  rewrite !bool_decide_eq_true_2 in Hc by (by rewrite str_chr_inj). done.
Qed.

Lemma more_true_length g : hasMoreChars g = true → 1 ≤ length (rest g).
Proof.
  intros Hm. destruct (rest g) eqn:Hr; [|simpl; lia].
  by rewrite (more_nil _ Hr) in Hm.
Qed.

Lemma rules_post fuel : ∀ r g,
  rule_post r g (rule_fun r fuel g)
  ∧ (rule_fuel r g ≤ fuel → fst (rule_fun r fuel g) ≠ OutOfFuel).
Proof.
  induction fuel as [|fuel IH]; intros r g.
  { split; [by destruct r|]. unfold rule_fuel. destruct r; lia. }
  destruct r; simpl rule_fun; unfold rule_fuel.
  - (* expr *)
    cbn [expr]. unfold bind, rule_post, ret.
    destruct (IH RTerm g) as [(Hp1 & Hpost1) Hfuel1]. simpl rule_fun in *.
    unfold rule_fuel in Hfuel1.
    destruct (term fuel g) as [[trm|e|] g1] eqn:E1; simpl in Hp1, Hpost1, Hfuel1.
    + destruct Hpost1 as [Hlen1 Hfol1].
      destruct (hasMoreChars g1 && bool_decide (peek g1 = str "|")) eqn:Hc.
      * apply andb_true_iff in Hc as [Hm Hb%bool_decide_eq_true].
        pose proof (more_true_length _ Hm) as Hge.
        rewrite match_spec, Hb.
        rewrite bool_decide_eq_false_2 by (intros Hne; by apply Hne).
        destruct (IH RExpr (advance g1)) as [(Hp2 & Hpost2) Hfuel2].
        simpl rule_fun in *. unfold rule_fuel in Hfuel2.
        rewrite rest_advance_length in Hfuel2.
        destruct (expr fuel (advance g1)) as [[exp|e|] g2] eqn:E2;
          simpl in Hp2, Hpost2, Hfuel2; simpl.
        -- split; [split; [congruence|]|done].
           destruct Hpost2 as [Hlen2 Hfol2]. rewrite rest_advance_length in Hlen2.
           split; [lia|done].
        -- split; [split; [congruence|done]|done].
        -- split; [split; [congruence|done]|]. intros ? _. apply Hfuel2; [lia|done].
      * simpl. split; [split; [done|]|done].
        split; [done|]. by apply follow_term_stop.
    + simpl. by split.
    + simpl. split; [done|]. intros ? _. apply Hfuel1; [lia|done].
  - (* term *)
    cbn [term]. unfold bind, rule_post, ret.
    destruct (IH RFactor g) as [(Hp1 & Hpost1) Hfuel1]. simpl rule_fun in *.
    unfold rule_fuel in Hfuel1.
    destruct (factor fuel g) as [[f|e|] g1] eqn:E1; simpl in Hp1, Hpost1, Hfuel1.
    + destruct Hpost1 as [Hlen1 _].
      destruct (hasMoreChars g1 && bool_decide (peek g1 ≠ str ")")
                && bool_decide (peek g1 ≠ str "|")) eqn:Hc.
      * apply andb_true_iff in Hc as [[Hm _]%andb_true_iff _].
        pose proof (more_true_length _ Hm) as Hge.
        destruct (IH RTerm g1) as [(Hp2 & Hpost2) Hfuel2].
        simpl rule_fun in *. unfold rule_fuel in Hfuel2.
        destruct (term fuel g1) as [[t|e|] g2] eqn:E2;
          simpl in Hp2, Hpost2, Hfuel2; simpl.
        -- split; [split; [congruence|]|done].
           destruct Hpost2 as [Hlen2 Hfol2]. split; [lia|done].
        -- split; [split; [congruence|done]|done].
        -- split; [split; [congruence|done]|]. intros ? _. apply Hfuel2; [lia|done].
      * simpl. split; [split; [done|]|done].
        split; [done|]. by apply term_stop_follow.
    + simpl. by split.
    + simpl. split; [done|]. intros ? _. apply Hfuel1; [lia|done].
  - (* factor *)
    cbn [factor]. unfold bind, rule_post, ret.
    destruct (IH RAtom g) as [(Hp1 & Hpost1) Hfuel1]. simpl rule_fun in *.
    unfold rule_fuel in Hfuel1.
    destruct (atom fuel g) as [[a|e|] g1] eqn:E1; simpl in Hp1, Hpost1, Hfuel1.
    + destruct Hpost1 as [Hlen1 _].
      destruct (hasMoreChars g1 && isMetaChar (peek g1)) eqn:Hc.
      * rewrite next_spec. simpl. split; [split; [done|]|done].
        rewrite rest_advance_length. split; [lia|done].
      * simpl. by split.
    + simpl. by split.
    + simpl. split; [done|]. intros ? _. apply Hfuel1; [lia|done].
  - (* atom *)
    cbn [atom]. unfold rule_post, ret. case_bool_decide as Hb.
    + change (str "(") with (str (chr "(")) in Hb.
      destruct (peek_inv _ _ Hb) as [r Hr].
      unfold bind. change (str "(") with (str (chr "(")).
      rewrite (match_cons _ _ _ Hr).
      destruct (IH RExpr (advance g)) as [(Hp2 & Hpost2) Hfuel2].
      simpl rule_fun in *. unfold rule_fuel in Hfuel2.
      rewrite rest_advance_length in Hfuel2, Hpost2. rewrite Hr in *.
      simpl length in *.
      destruct (expr fuel (advance g)) as [[exp|e|] g2] eqn:E2;
        simpl in Hp2, Hpost2, Hfuel2.
      * destruct Hpost2 as [Hlen2 Hfol2]. rewrite match_spec.
        case_bool_decide as Hb2; simpl.
        -- split; [split; [done|]|done]. left. split; [done|].
           destruct (rest g2) as [|c r2] eqn:Hr2; [done|].
           simpl in Hfol2. subst c. by rewrite (peek_cons _ _ _ Hr2) in Hb2.
        -- split; [split; [done|]|done].
           rewrite rest_advance_length. split; [lia|done].
      * simpl. by split.
      * simpl. split; [done|]. intros ? _. apply Hfuel2; [lia|done].
    + unfold bind. destruct (char_post g) as [Hp Hpost].
      destruct (char g) as [[c|e|] g1]; simpl in Hp, Hpost |- *;
        [|by split|done].
      split; [split; [done|]|done]. split; [exact Hpost|done].
Qed.

(** [toParseTree] always returns or throws. *)
Lemma toParseTree_total regex g : fst (toParseTree regex g) ≠ OutOfFuel.
Proof.
  unfold toParseTree.
  apply (rules_post (parse_fuel regex) RExpr {| pattern := regex; pos := 0 |}).
  unfold rule_fuel, parse_fuel, rest. simpl. rewrite drop_0. lia.
Qed.

Lemma toParseTree_post regex g :
  rule_post RExpr {| pattern := regex; pos := 0 |} (toParseTree regex g).
Proof. apply (rules_post (parse_fuel regex) RExpr). Qed.

(** * The compilers on any input *)

Lemma frag_thompson h A : Frag h A → thompson_states h A.
Proof. intros HF q Hq. split; by apply HF. Qed.

Lemma frag_single_accept h A : Frag h A → single_accept h A.
Proof.
  intros HF. split; [apply HF|]. intros q Hq. split; [by apply HF|].
  intros ->. apply HF.
Qed.

(** ** Any tree *)

Lemma TreeNode_ind_children (P : TreeNode → Prop) :
  (∀ l, P (Node l None)) →
  (∀ l cs, Forall P cs → P (Node l (Some cs))) →
  ∀ t, P t.
Proof.
  intros Hleaf Hnode. fix IH 1. intros [l [cs|]]; [|apply Hleaf].
  apply Hnode. induction cs as [|c cs IHcs]; constructor; [apply IH|exact IHcs].
Qed.

Lemma fromSymbol_any v h :
  ∃ R h' L, fromSymbol v h = (R, h') ∧ Built h h' R L.
Proof.
  destruct (fromSymbol v h) as [R h'] eqn:E. exists R, h'. eexists.
  split; [done|]. eapply built_op0, fromSymbol_spec, E.
Qed.

Lemma bindH_Ok {A B} (m : H A) (k : A → H B) h r h' :
  bindH m k h = (Ok r, h') →
  ∃ a h1, m h = (Ok a, h1) ∧ k a h1 = (Ok r, h').
Proof.
  unfold bindH. destruct (m h) as [[a|e|] h1]; [|done..].
  intros Hk. by exists a, h1.
Qed.

Lemma liftH_pair_Ok (A : NFA) h r h' :
  liftH (pair A) h = (Ok r, h') → r = A ∧ h' = h.
Proof. unfold liftH. by intros [= <- <-]. Qed.

Lemma liftH_Ok {A} (m : heap → A * heap) h r h' :
  liftH m h = (Ok r, h') → m h = (r, h').
Proof. unfold liftH. destruct (m h). by intros [= <- <-]. Qed.

Lemma compile_any_tree : ∀ t h R h',
  toNFAfromParseTree t h = (Ok R, h') → ∃ L, Built h h' R L.
Proof.
  induction t as [l|l cs IH] using TreeNode_ind_children; intros h R h'; [done|].
  cbn [toNFAfromParseTree].
  repeat case_bool_decide.
  - (* Expr *)
    destruct cs as [|c0 rest]; [done|].
    apply Forall_cons in IH as [IH0 IH].
    intros (A & h1 & E1 & Hk)%bindH_Ok.
    destruct (IH0 _ _ _ E1) as [LA HA].
    destruct rest as [|x [|c2 [|y rest]]];
      try (apply liftH_pair_Ok in Hk as [-> ->]; by exists LA).
    apply Forall_cons in IH as [_ [IH2 _]%Forall_cons].
    apply bindH_Ok in Hk as (B & h2 & E2 & Hk%liftH_Ok).
    destruct (IH2 _ _ _ E2) as [LB HB].
    destruct (union_built _ _ _ _ _ _ _ HA HB) as (R' & h3 & E3 & HR).
    rewrite E3 in Hk. injection Hk as <- <-. by eexists.
  - (* Term *)
    destruct cs as [|c0 rest]; [done|].
    apply Forall_cons in IH as [IH0 IH].
    intros (A & h1 & E1 & Hk)%bindH_Ok.
    destruct (IH0 _ _ _ E1) as [LA HA].
    destruct rest as [|c1 [|y rest]];
      try (apply liftH_pair_Ok in Hk as [-> ->]; by exists LA).
    apply Forall_cons in IH as [IH1 _].
    apply bindH_Ok in Hk as (B & h2 & E2 & Hk%liftH_Ok).
    destruct (IH1 _ _ _ E2) as [LB HB].
    destruct (concat_built _ _ _ _ _ _ _ HA HB) as (R' & h3 & E3 & HR).
    rewrite E3 in Hk. injection Hk as <- <-. by eexists.
  - (* Factor *)
    destruct cs as [|c0 rest]; [done|].
    apply Forall_cons in IH as [IH0 IH].
    intros (A & h1 & E1 & Hk)%bindH_Ok.
    destruct (IH0 _ _ _ E1) as [LA HA].
    destruct rest as [|c1 [|y rest]];
      try (apply liftH_pair_Ok in Hk as [-> ->]; by exists LA).
    repeat case_bool_decide;
      try (apply liftH_pair_Ok in Hk as [-> ->]; by exists LA);
      apply liftH_Ok in Hk.
    + destruct (meta_op_built Star _ _ _ _ HA) as (R' & h2 & E2 & HR).
      simpl in E2. rewrite E2 in Hk. injection Hk as <- <-. by eexists.
    + destruct (meta_op_built Plus _ _ _ _ HA) as (R' & h2 & E2 & HR).
      simpl in E2. rewrite E2 in Hk. injection Hk as <- <-. by eexists.
    + destruct (meta_op_built Quest _ _ _ _ HA) as (R' & h2 & E2 & HR).
      simpl in E2. rewrite E2 in Hk. injection Hk as <- <-. by eexists.
  - (* Atom *)
    destruct cs as [|c0 [|c1 [|c2 [|y rest]]]]; [done|..].
    + apply Forall_cons in IH as [IH0 _]. apply IH0.
    + apply Forall_cons in IH as [IH0 _]. apply IH0.
    + apply Forall_cons in IH as [_ [IH1 _]%Forall_cons]. apply IH1.
    + apply Forall_cons in IH as [IH0 _]. apply IH0.
  - (* Char *)
    assert (∀ v, liftH (fromSymbol v) h = (Ok R, h') → ∃ L, Built h h' R L) as Hsym.
    { intros v Hk%liftH_Ok.
      destruct (fromSymbol_any v h) as (R' & h1 & L & E & HR).
      rewrite E in Hk. injection Hk as <- <-. by exists L. }
    destruct cs as [|c0 [|c1 [|y rest]]]; [done|apply Hsym..].
  - done.
Qed.

(** ** Any token stream *)

Lemma stack_nil h : StackOK h [].
Proof. split; [by intros ? ?%elem_of_nil|by intros [|?] ? ? ? ?]. Qed.

Lemma stack_tail h A st : StackOK h (A :: st) → StackOK h st.
Proof.
  intros [HF Hd]. split.
  - intros B HB. apply HF. by apply elem_of_cons; right.
  - intros i j B C Hi Hj Hne. apply (Hd (S i) (S j)); simpl; auto.
Qed.

Lemma stack_head h A st :
  StackOK h (A :: st) → Frag h A ∧ ∀ B, B ∈ st → disjoint h A B.
Proof.
  intros [HF Hd]. split; [apply HF; by apply elem_of_cons; left|].
  intros B [j Hj]%list_elem_of_lookup. by apply (Hd 0 (S j)).
Qed.

Lemma disjoint_sym h A B : disjoint h A B → disjoint h B A.
Proof. intros Hd q ? ?. by apply (Hd q). Qed.

(** An operator on entries of the stack leaves the other entries as they
    were and pushes a fragment that shares no state with them. *)
Lemma stack_op h h' R L inputs st :
  (∀ A, A ∈ inputs → Frag h A) →
  (∀ A B, A ∈ inputs → B ∈ st → disjoint h A B) →
  StackOK h st →
  Op h h' R L inputs → StackOK h' (R :: st).
Proof.
  intros HFin Hdin [HFst Hdst] (HFR & _ & Hreach & Hlen & Hkeep).
  assert (∀ B, B ∈ st →
            Frag h' B ∧ ∀ q, reach h' (start B) q ↔ reach h (start B) q) as Hst.
  { intros B HB. destruct (frag_same h h' B (HFst B HB) Hlen) as (? & _ & ?); [|done].
    intros q Hq. apply Hkeep; [by apply (frag_valid _ _ (HFst B HB))|].
    intros (A & -> & HA)%list_elem_of_fmap.
    apply (Hdin A B HA HB (end_ A)); [apply (HFin A HA)|done]. }
  split.
  - intros B [->|HB]%elem_of_cons; [done|by apply Hst].
  - assert (∀ B, B ∈ st → disjoint h' R B) as HdR.
    { intros B HB q Hq HqB. apply (Hst B HB) in HqB.
      apply Hreach in Hq as [Hq|(A & HA & Hq)].
      - apply (frag_valid _ _ (HFst B HB)) in HqB. lia.
      - by apply (Hdin A B HA HB q). }
    intros [|i] [|j] B C Hi Hj Hne; simpl in *; simplify_eq.
    + apply HdR. by eapply list_elem_of_lookup_2.
    + apply disjoint_sym, HdR. by eapply list_elem_of_lookup_2.
    + intros q HqB HqC.
      apply (Hst B) in HqB; [|by eapply list_elem_of_lookup_2].
      apply (Hst C) in HqC; [|by eapply list_elem_of_lookup_2].
      apply (Hdst i j B C Hi Hj) with q; [congruence|done..].
Qed.

Lemma stack_unary (op : NFA → heap → NFA * heap) (F : language → language)
    h st st' h' :
  (∀ h A R h', Frag h A → op A h = (R, h') → Op h h' R (F (lang h A)) [A]) →
  StackOK h st → unary op st h = (st', h') → StackOK h' st'.
Proof.
  intros Hop Hst. unfold unary. destruct st as [|A st]; simpl.
  - by intros [= <- <-].
  - destruct (op A h) as [R h1] eqn:E. intros [= <- <-].
    destruct (stack_head _ _ _ Hst) as [HFA HdA].
    eapply stack_op; [| |by eapply stack_tail|by apply (Hop _ _ _ _ HFA E)].
    + by intros ? ->%elem_of_list1.
    + intros ? B ->%elem_of_list1. apply HdA.
Qed.

Lemma stack_binary (op : NFA → NFA → heap → NFA * heap)
    (F : language → language → language) h st st' h' :
  (∀ h A B R h', Frag h A → Frag h B → disjoint h A B → op A B h = (R, h') →
     Op h h' R (F (lang h A) (lang h B)) [A; B]) →
  StackOK h st → binary op st h = (st', h') → StackOK h' st'.
Proof.
  intros Hop Hst. unfold binary. destruct st as [|B [|A st]]; simpl.
  - by intros [= <- <-].
  - intros [= <- <-]. apply stack_nil.
  - destruct (op A B h) as [R h1] eqn:E. intros [= <- <-].
    destruct (stack_head _ _ _ Hst) as [HFB HdB].
    destruct (stack_head _ _ _ (stack_tail _ _ _ Hst)) as [HFA HdA].
    assert (disjoint h A B) as Hd.
    { apply disjoint_sym, HdB. by apply elem_of_cons; left. }
    eapply stack_op;
      [| |by eapply stack_tail, stack_tail|by apply (Hop _ _ _ _ _ HFA HFB Hd E)].
    + by intros ? [->| ->]%elem_of_list2.
    + intros ? C [->| ->]%elem_of_list2 HC; [by apply HdA|].
      apply HdB. by apply elem_of_cons; right.
Qed.

Lemma toNFA_step_stack c h st st' h' :
  StackOK h st → toNFA_step c st h = (st', h') → StackOK h' st'.
Proof.
  intros Hst. unfold toNFA_step. repeat case_decide.
  - apply (stack_unary closure lang_star); [|done]. intros; by apply closure_spec.
  - apply (stack_unary zeroOrOne lang_opt); [|done]. intros; by apply zeroOrOne_spec.
  - apply (stack_unary oneOrMore lang_plus); [|done]. intros; by apply oneOrMore_spec.
  - apply (stack_binary union lang_union); [|done].
    intros; apply union_spec; auto.
  - apply (stack_binary concat lang_concat); [|done].
    intros; by apply concat_spec.
  - destruct (fromSymbol (str c) h) as [R h1] eqn:E. intros [= <- <-].
    eapply stack_op; [| |done|by eapply fromSymbol_spec].
    + by intros ? ?%elem_of_nil.
    + by intros ? ? ?%elem_of_nil.
Qed.

Lemma toNFA_loop_stack tokens : ∀ h st st' h',
  StackOK h st → toNFA_loop tokens st h = (st', h') → StackOK h' st'.
Proof.
  induction tokens as [|c tokens IH]; intros h st st' h' Hst; simpl.
  - by intros [= <- <-].
  - destruct (toNFA_step c st h) as [st1 h1] eqn:E.
    apply IH. by eapply toNFA_step_stack.
Qed.

Lemma toNFA_any tokens h R h' :
  toNFA tokens h = (Some R, h') → Frag h' R.
Proof.
  unfold toNFA. destruct tokens as [|c tokens].
  - destruct (fromEpsilon h) as [R' h1] eqn:E. intros [= <- <-].
    by destruct (fromEpsilon_spec _ _ _ E) as [? _].
  - destruct (toNFA_loop (codePoints (c :: tokens)) [] h) as [st h1] eqn:E.
    intros [= Hpop <-].
    pose proof (toNFA_loop_stack _ _ _ _ _ (stack_nil h) E) as [HF _].
    destruct st as [|A st]; [done|]. simpl in Hpop. injection Hpop as ->.
    apply HF. by apply elem_of_cons; left.
Qed.

Lemma toNFAFromInfixExp_any infixExp g h R g' h' :
  toNFAFromInfixExp infixExp g h = (Ok R, g', h') → Frag h' R.
Proof.
  unfold toNFAFromInfixExp. destruct infixExp as [|c cs].
  - destruct (fromEpsilon h) as [R' h1] eqn:E. intros [= <- <- <-].
    by destruct (fromEpsilon_spec _ _ _ E) as [? _].
  - destruct (toParseTree (c :: cs) g) as [[tree|e|] g1]; [|done..].
    destruct (toNFAfromParseTree tree h) as [r h1] eqn:E.
    intros [= -> <- <-].
    by destruct (compile_any_tree _ _ _ _ E) as (L & ? & _).
Qed.

(** ** The consumed end states are no longer accepting *)

Lemma concat_clears h A B R h' :
  Frag h A → concat A B h = (R, h') → final h' (end_ A) = false.
Proof.
  intros HA Hop. pose proof (concat_obs A B h (frag_end_valid _ _ HA)) as Hobs.
  rewrite Hop in Hobs. destruct Hobs as (_ & _ & _ & _ & _ & Hfin).
  rewrite Hfin. by rewrite decide_True.
Qed.

Lemma union_clears h A B R h' :
  Frag h A → Frag h B → union A B h = (R, h') →
  final h' (end_ A) = false ∧ final h' (end_ B) = false.
Proof.
  intros HA HB Hop.
  pose proof (frag_end_valid _ _ HA). pose proof (frag_end_valid _ _ HB).
  pose proof (union_obs A B h) as Hobs.
  rewrite Hop in Hobs. destruct Hobs as (_ & _ & _ & _ & _ & Hfin); [done..|].
  split; rewrite Hfin; repeat case_decide; try lia; try done; exfalso; auto.
Qed.

Lemma closure_clears h A R h' :
  Frag h A → closure A h = (R, h') → final h' (end_ A) = false.
Proof.
  intros HA Hop. pose proof (frag_end_valid _ _ HA).
  pose proof (closure_obs A h) as Hobs.
  rewrite Hop in Hobs. destruct Hobs as (_ & _ & _ & _ & _ & Hfin); [done|].
  rewrite Hfin. rewrite decide_False by lia. by rewrite decide_True.
Qed.

Lemma zeroOrOne_clears h A R h' :
  Frag h A → zeroOrOne A h = (R, h') → final h' (end_ A) = false.
Proof.
  intros HA Hop. pose proof (frag_end_valid _ _ HA).
  pose proof (zeroOrOne_obs A h) as Hobs.
  rewrite Hop in Hobs. destruct Hobs as (_ & _ & _ & _ & _ & Hfin); [done|].
  rewrite Hfin. rewrite decide_False by lia. by rewrite decide_True.
Qed.

Lemma oneOrMore_clears h A R h' :
  Frag h A → oneOrMore A h = (R, h') → final h' (end_ A) = false.
Proof.
  intros HA Hop. pose proof (frag_end_valid _ _ HA).
  pose proof (oneOrMore_obs A h) as Hobs.
  rewrite Hop in Hobs. destruct Hobs as (_ & _ & _ & _ & _ & Hfin); [done|].
  rewrite Hfin. rewrite decide_False by lia. by rewrite decide_True.
Qed.

Lemma op_frag h h' R L inputs : Op h h' R L inputs → Frag h' R.
Proof. by intros (? & _). Qed.

(** * The trees of the parser *)

Lemma passed_advance g : passed g (advance g) = [peek g].
Proof.
  unfold passed, advance, peek, peek_at. simpl.
  by replace (S (pos g) - pos g) with 1 by lia.
Qed.

Lemma passed_app g g1 g2 :
  pattern g1 = pattern g → pos g ≤ pos g1 → pos g1 ≤ pos g2 →
  passed g g1 ++ passed g1 g2 = passed g g2.
Proof.
  intros Hp H1 H2. unfold passed. rewrite Hp, <- fmap_app. f_equal.
  replace (pos g2 - pos g) with ((pos g1 - pos g) + (pos g2 - pos g1)) by lia.
  rewrite seq_app. do 2 f_equal. lia.
Qed.

Lemma isMetaChar_label v : isMetaChar v = true → meta_label v.
Proof.
  unfold isMetaChar, meta_label. intros H.
  apply orb_true_iff in H as [H|H]; [apply orb_true_iff in H as [H|H]|];
    apply bool_decide_eq_true in H; auto.
Qed.

Lemma char_shape g t g' :
  char g = (Ok t, g') →
  pattern g' = pattern g ∧ pos g < pos g' ∧ leaves t = passed g g'
  ∧ shaped RAtom (Node (str "Atom") (Some [t])).
Proof.
  unfold char. destruct (isMetaChar (peek g)); [done|].
  case_bool_decide as Hb.
  - unfold bind. rewrite match_spec, Hb.
    rewrite bool_decide_eq_false_2 by (intros Hne; by apply Hne).
    rewrite next_spec. simpl. intros [= <- <-]. simpl.
    split; [done|]. split; [lia|]. split; [|constructor].
    rewrite <- (passed_app g (advance g)); simpl; [|done|lia|lia].
    rewrite !passed_advance. by rewrite Hb.
  - unfold bind. rewrite next_spec. simpl. intros [= <- <-].
    split; [done|]. split; [simpl; lia|]. split; [|constructor].
    simpl. by rewrite passed_advance.
Qed.

Lemma leaves_node l cs : leaves (Node l (Some cs)) = mjoin (leaves <$> cs).
Proof. done. Qed.

Lemma leaves_leaf v : leaves (leaf v) = [v].
Proof. done. Qed.

(** A rule that returns has moved the cursor; the leaves of its tree are
    what the cursor passed over, and the tree has one of the shapes of the
    rule. *)
Lemma rules_shape fuel : ∀ r g t g',
  rule_fun r fuel g = (Ok t, g') →
  pattern g' = pattern g ∧ pos g < pos g' ∧ leaves t = passed g g'
  ∧ shaped r t.
Proof.
  induction fuel as [|fuel IH]; intros r g t g'; [by destruct r|].
  destruct r; simpl rule_fun.
  - (* expr *)
    cbn [expr]. unfold bind, ret.
    destruct (term fuel g) as [[trm|e|] g1] eqn:E1; [|done..].
    apply (IH RTerm) in E1 as (Hp1 & Hlt1 & Hl1 & Hs1).
    destruct (hasMoreChars g1 && bool_decide (peek g1 = str "|")) eqn:Hc.
    + apply andb_true_iff in Hc as [Hm Hb%bool_decide_eq_true].
      rewrite match_spec, Hb.
      rewrite bool_decide_eq_false_2 by (intros Hne; by apply Hne).
      destruct (expr fuel (advance g1)) as [[exp|e|] g2] eqn:E2; [|done..].
      apply (IH RExpr) in E2 as (Hp2 & Hlt2 & Hl2 & Hs2). simpl in Hp2, Hlt2.
      intros [= <- <-]. split; [congruence|]. split; [lia|].
      split; [|by constructor].
      rewrite leaves_node. simpl. rewrite Hl1, Hl2, app_nil_r.
      rewrite <- (passed_app g g1 g2) by (congruence || lia). f_equal.
      rewrite <- (passed_app g1 (advance g1) g2) by (simpl; congruence || lia).
      by rewrite passed_advance, Hb.
    + intros [= <- <-]. split; [done|]. split; [done|].
      split; [|by constructor]. rewrite leaves_node. simpl.
      by rewrite app_nil_r.
  - (* term *)
    cbn [term]. unfold bind, ret.
    destruct (factor fuel g) as [[f|e|] g1] eqn:E1; [|done..].
    apply (IH RFactor) in E1 as (Hp1 & Hlt1 & Hl1 & Hs1).
    destruct (hasMoreChars g1 && bool_decide (peek g1 ≠ str ")")
              && bool_decide (peek g1 ≠ str "|")) eqn:Hc.
    + destruct (term fuel g1) as [[trm|e|] g2] eqn:E2; [|done..].
      apply (IH RTerm) in E2 as (Hp2 & Hlt2 & Hl2 & Hs2).
      intros [= <- <-]. split; [congruence|]. split; [lia|].
      split; [|by constructor].
      rewrite leaves_node. simpl. rewrite Hl1, Hl2, app_nil_r.
      apply passed_app; congruence || lia.
    + intros [= <- <-]. split; [done|]. split; [done|].
      split; [|by constructor]. rewrite leaves_node. simpl.
      by rewrite app_nil_r.
  - (* factor *)
    cbn [factor]. unfold bind, ret.
    destruct (atom fuel g) as [[a|e|] g1] eqn:E1; [|done..].
    apply (IH RAtom) in E1 as (Hp1 & Hlt1 & Hl1 & Hs1).
    destruct (hasMoreChars g1 && isMetaChar (peek g1)) eqn:Hc.
    + apply andb_true_iff in Hc as [_ Hm]. rewrite next_spec. simpl.
      intros [= <- <-]. split; [done|]. split; [simpl; lia|].
      split; [|constructor; [done|by apply isMetaChar_label]].
      rewrite leaves_node. simpl. rewrite Hl1.
      rewrite <- (passed_app g g1 (advance g1)) by (simpl; congruence || lia).
      by rewrite passed_advance.
    + intros [= <- <-]. split; [done|]. split; [done|].
      split; [|by constructor]. rewrite leaves_node. simpl.
      by rewrite app_nil_r.
  - (* atom *)
    cbn [atom]. unfold ret. case_bool_decide as Hb.
    + unfold bind. rewrite match_spec, Hb.
      rewrite bool_decide_eq_false_2 by (intros Hne; by apply Hne).
      destruct (expr fuel (advance g)) as [[exp|e|] g2] eqn:E2; [|done..].
      apply (IH RExpr) in E2 as (Hp2 & Hlt2 & Hl2 & Hs2). simpl in Hp2, Hlt2.
      rewrite match_spec. case_bool_decide as Hb2; [done|].
      simpl.
      intros [= <- <-]. split; [done|]. split; [simpl; lia|].
      split; [|by constructor].
      rewrite leaves_node. simpl. rewrite Hl2.
      rewrite <- (passed_app g (advance g) (advance g2))
        by (simpl; congruence || lia).
      rewrite passed_advance, Hb. simpl. f_equal.
      rewrite <- (passed_app (advance g) g2 (advance g2))
        by (simpl; congruence || lia).
      by rewrite passed_advance, Hb2.
    + unfold bind. destruct (char g) as [[c|e|] g1] eqn:E1; [|done..].
      apply char_shape in E1 as (Hp1 & Hlt1 & Hl1 & Hs1).
      intros [= <- <-]. split; [done|]. split; [done|]. split; [|done].
      rewrite leaves_node. simpl. by rewrite app_nil_r.
Qed.

Lemma toParseTree_shape regex g t g' :
  toParseTree regex g = (Ok t, g') →
  pattern g' = regex ∧ 0 < pos g'
  ∧ leaves t = peek_at regex <$> seq 0 (pos g') ∧ shaped RExpr t.
Proof.
  unfold toParseTree. intros E.
  apply (rules_shape _ RExpr) in E as (Hp & Hlt & Hl & Hs). simpl in *.
  split; [done|]. split; [done|]. split; [|done].
  rewrite Hl. unfold passed. simpl. by rewrite Nat.sub_0_r.
Qed.

(** Within the pattern the cursor passes over its characters. *)
Lemma peek_at_take regex n :
  n ≤ length regex →
  peek_at regex <$> seq 0 n = (λ c, str (chr c)) <$> take n regex.
Proof.
  revert regex. induction n as [|n IH] using nat_ind; intros regex Hn; [done|].
  rewrite seq_S, fmap_app. simpl.
  destruct (lookup_lt_is_Some_2 regex n) as [c Hc]; [lia|].
  rewrite (take_S_r _ _ c), fmap_app by done. rewrite IH by lia.
  unfold peek_at. by rewrite Hc.
Qed.

(** * Shaped trees compile *)

Lemma shaped_compiles r t :
  shaped r t → ∀ h, ∃ R h' L, toNFAfromParseTree t h = (Ok R, h') ∧ Built h h' R L.
Proof.
  induction 1 as [t Ht IHt|t e Ht IHt He IHe|f Hf IHf|f t Hf IHf Ht IHt
                 |a Ha IHa|a m Ha IHa Hm|v|v|e He IHe]; intros h.
  - rewrite compile_Expr1. destruct (IHt h) as (A & h1 & LA & EA & BA).
    unfold bindH. rewrite EA. by exists A, h1, LA.
  - rewrite compile_Expr3.
    destruct (IHt h) as (A & h1 & LA & EA & BA).
    destruct (IHe h1) as (B & h2 & LB & EB & BB).
    unfold bindH. rewrite EA, EB. unfold liftH.
    destruct (union_built _ _ _ _ _ _ _ BA BB) as (R & h3 & EU & BU).
    rewrite EU. by exists R, h3, (lang_union LA LB).
  - rewrite compile_Term1. destruct (IHf h) as (A & h1 & LA & EA & BA).
    unfold bindH. rewrite EA. by exists A, h1, LA.
  - rewrite compile_Term2.
    destruct (IHf h) as (A & h1 & LA & EA & BA).
    destruct (IHt h1) as (B & h2 & LB & EB & BB).
    unfold bindH. rewrite EA, EB. unfold liftH.
    destruct (concat_built _ _ _ _ _ _ _ BA BB) as (R & h3 & EU & BU).
    rewrite EU. by exists R, h3, (lang_concat LA LB).
  - rewrite compile_Factor1. destruct (IHa h) as (A & h1 & LA & EA & BA).
    unfold bindH. rewrite EA. by exists A, h1, LA.
  - destruct (IHa h) as (A & h1 & LA & EA & BA).
    assert (∃ m', m = str (chr (meta_char m'))) as [m' ->].
    { destruct Hm as [->|[->| ->]];
        [by exists Star|by exists Plus|by exists Quest]. }
    change (leaf (str (chr (meta_char m')))) with (lf (meta_char m')).
    rewrite compile_Factor2. unfold bindH. rewrite EA. unfold liftH.
    destruct (meta_op_built m' _ _ _ _ BA) as (R & h2 & EU & BU).
    exists R, h2, (den_meta m' LA). split; [|done].
    destruct m'; simpl in EU; by rewrite EU.
  - destruct (fromSymbol_any v h) as (R & h1 & L & E & HB).
    exists R, h1, L. split; [|done].
    change (liftH (fromSymbol v) h = (Ok R, h1)). unfold liftH. by rewrite E.
  - destruct (fromSymbol_any v h) as (R & h1 & L & E & HB).
    exists R, h1, L. split; [|done].
    change (liftH (fromSymbol v) h = (Ok R, h1)). unfold liftH. by rewrite E.
  - rewrite compile_Atom3. apply IHe.
Qed.

(** * Later allocation *)

Lemma extends_refl h : extends h h.
Proof. split; [done|]. intros. apply same_refl. Qed.

Lemma extends_trans h1 h2 h3 : extends h1 h2 → extends h2 h3 → extends h1 h3.
Proof.
  intros [L1 S1] [L2 S2]. split; [lia|]. intros q Hq.
  eapply same_trans; [by apply S1|]. apply S2. lia.
Qed.

Lemma built_extends h h' R L : Built h h' R L → extends h h'.
Proof. by intros (_ & _ & _ & ? & ?). Qed.

Lemma op_extends h h' R L : Op h h' R L [] → extends h h'.
Proof. intros ?%built_op0. by eapply built_extends. Qed.

Lemma extends_frag h h' A :
  Frag h A → extends h h' →
  Frag h' A ∧ ∀ w, lang h' A w ↔ lang h A w.
Proof.
  intros HF [Hlen Hsame].
  destruct (frag_same h h' A HF Hlen) as (? & ? & _); [|done].
  intros q Hq. apply Hsame. by apply (frag_valid _ _ HF).
Qed.

Lemma extends_recognize h h' A w :
  Frag h A → extends h h' → recognize h' A w = recognize h A w.
Proof.
  intros HF Hext. destruct (extends_frag _ _ _ HF Hext) as [HF' HL].
  destruct (recognize_spec h A w) as (b & E & _).
  destruct (recognize_spec h' A w) as (b' & E' & _).
  pose proof (recognize_lang h A w HF) as H1.
  pose proof (recognize_lang h' A w HF') as H2.
  rewrite E, E' in *. f_equal. rewrite HL in H2.
  destruct b, b'; try done.
  - assert (Some false = Some true) as [=] by (by apply H2, H1).
  - assert (Some false = Some true) as [=] by (by apply H1, H2).
Qed.

(** * The outcomes of the infix entry point *)

Lemma toNFAFromInfixExp_outcome infixExp g h :
  ∃ r g' h', toNFAFromInfixExp infixExp g h = (r, g', h') ∧
    match r with
    | Ok R => ∃ L, Built h h' R L
    | Throw e => parse_error e g' ∧ h' = h
    | OutOfFuel => False
    end.
Proof.
  unfold toNFAFromInfixExp. destruct infixExp as [|c cs].
  - destruct (fromEpsilon h) as [R h'] eqn:E. exists (Ok R), g, h'.
    split; [done|]. exists lang_eps. by apply built_op0, fromEpsilon_spec.
  - pose proof (toParseTree_total (c :: cs) g) as Htot.
    pose proof (toParseTree_post (c :: cs) g) as [_ Hpost].
    destruct (toParseTree (c :: cs) g) as [[tree|e|] g1] eqn:E;
      simpl in Htot, Hpost.
    + apply toParseTree_shape in E as (_ & _ & _ & Hs).
      destruct (shaped_compiles _ _ Hs h) as (R & h' & L & E' & HB).
      rewrite E'. exists (Ok R), g1, h'. split; [done|]. by exists L.
    + by exists (Throw e), g1, h.
    + done.
Qed.

(** * The cursor stays within one position of the end *)

Lemma peek_str_lt g s : peek g = str s → pos g < length (pattern g).
Proof.
  unfold peek. destruct (pattern g !! pos g) eqn:E; [|done].
  intros _. by eapply lookup_lt_Some.
Qed.

Lemma more_lt g : hasMoreChars g = true → pos g < length (pattern g).
Proof. by intros ?%bool_decide_eq_true. Qed.

Lemma rules_pos fuel : ∀ r g t g',
  rule_fun r fuel g = (Ok t, g') →
  pos g ≤ length (pattern g) → pos g' ≤ length (pattern g) + 1.
Proof.
  induction fuel as [|fuel IH]; intros r g t g'; [by destruct r|].
  destruct r; simpl rule_fun.
  - cbn [expr]. unfold bind, ret.
    destruct (term fuel g) as [[trm|e|] g1] eqn:E1; [|done..].
    pose proof (rules_shape _ RTerm _ _ _ E1) as (Hp1 & _).
    pose proof (IH RTerm _ _ _ E1) as IE1.
    destruct (hasMoreChars g1 && bool_decide (peek g1 = str "|")) eqn:Hc.
    + apply andb_true_iff in Hc as [Hm%more_lt Hb%bool_decide_eq_true].
      rewrite match_spec, Hb.
      rewrite bool_decide_eq_false_2 by (intros Hne; by apply Hne).
      destruct (expr fuel (advance g1)) as [[exp|e|] g2] eqn:E2; [|done..].
      pose proof (IH RExpr _ _ _ E2) as IE2. simpl in IE2.
      intros [= <- <-] Hle. rewrite <- Hp1. apply IE2. lia.
    + intros [= <- <-]. exact IE1.
  - cbn [term]. unfold bind, ret.
    destruct (factor fuel g) as [[f|e|] g1] eqn:E1; [|done..].
    pose proof (rules_shape _ RFactor _ _ _ E1) as (Hp1 & _).
    pose proof (IH RFactor _ _ _ E1) as IE1.
    destruct (hasMoreChars g1 && bool_decide (peek g1 ≠ str ")")
              && bool_decide (peek g1 ≠ str "|")) eqn:Hc.
    + apply andb_true_iff in Hc as [[Hm%more_lt _]%andb_true_iff _].
      destruct (term fuel g1) as [[trm|e|] g2] eqn:E2; [|done..].
      pose proof (IH RTerm _ _ _ E2) as IE2.
      intros [= <- <-] Hle. rewrite <- Hp1. apply IE2. lia.
    + intros [= <- <-]. exact IE1.
  - cbn [factor]. unfold bind, ret.
    destruct (atom fuel g) as [[a|e|] g1] eqn:E1; [|done..].
    pose proof (rules_shape _ RAtom _ _ _ E1) as (Hp1 & _).
    pose proof (IH RAtom _ _ _ E1) as IE1.
    destruct (hasMoreChars g1 && isMetaChar (peek g1)) eqn:Hc.
    + apply andb_true_iff in Hc as [Hm%more_lt _]. rewrite next_spec. simpl.
      rewrite Hp1 in Hm. intros [= <- <-] Hle. simpl. lia.
    + intros [= <- <-]. exact IE1.
  - cbn [atom]. unfold ret. case_bool_decide as Hb.
    + unfold bind. rewrite match_spec, Hb.
      rewrite bool_decide_eq_false_2 by (intros Hne; by apply Hne).
      destruct (expr fuel (advance g)) as [[exp|e|] g2] eqn:E2; [|done..].
      pose proof (rules_shape _ RExpr _ _ _ E2) as (Hp2 & _).
      rewrite match_spec. case_bool_decide as Hb2; [done|].
      apply peek_str_lt in Hb2. rewrite Hp2 in Hb2. simpl in Hb2 |- *.
      intros [= <- <-] Hle. simpl. lia.
    + unfold bind, char. destruct (isMetaChar (peek g)); [done|].
      case_bool_decide as Hb2.
      * unfold bind. rewrite match_spec, Hb2.
        rewrite bool_decide_eq_false_2 by (intros Hne; by apply Hne).
        rewrite next_spec. simpl. apply peek_str_lt in Hb2.
        intros [= <- <-] Hle. simpl. lia.
      * unfold bind. rewrite next_spec. simpl.
        intros [= <- <-] Hle. simpl. lia.
Qed.

Lemma toParseTree_pos regex g t g' :
  toParseTree regex g = (Ok t, g') → pos g' ≤ length regex + 1.
Proof.
  unfold toParseTree. intros E.
  apply (rules_pos _ RExpr) in E; simpl in *; [done|lia].
Qed.

(** * How many states the compilers allocate *)

Lemma length_fromEpsilon h : length (fromEpsilon h).2 = length h + 2.
Proof. unfold fromEpsilon, createState. simpl. obs. lia. Qed.

Lemma length_fromSymbol v h : length (fromSymbol v h).2 = length h + 2.
Proof. unfold fromSymbol, createState. simpl. obs. lia. Qed.

Lemma length_concat A B h : length (concat A B h).2 = length h.
Proof. unfold concat. simpl. by obs. Qed.

Lemma length_union A B h : length (union A B h).2 = length h + 2.
Proof. unfold union, createState. simpl. obs. lia. Qed.

Lemma length_closure A h : length (closure A h).2 = length h + 2.
Proof. unfold closure, createState. simpl. obs. lia. Qed.

Lemma length_zeroOrOne A h : length (zeroOrOne A h).2 = length h + 2.
Proof. unfold zeroOrOne, createState. simpl. obs. lia. Qed.

Lemma length_oneOrMore A h : length (oneOrMore A h).2 = length h + 2.
Proof. unfold oneOrMore, createState. simpl. obs. lia. Qed.

Lemma length_meta_op m A h : length (meta_op m A h).2 = length h + 2.
Proof.
  destruct m; [apply length_closure|apply length_oneOrMore|apply length_zeroOrOne].
Qed.

Lemma shaped_states r t :
  shaped r t → ∀ h R h',
  toNFAfromParseTree t h = (Ok R, h') →
  length h' ≤ length h + 2 * length (leaves t).
Proof.
  induction 1 as [t Ht IHt|t e Ht IHt He IHe|f Hf IHf|f t Hf IHf Ht IHt
                 |a Ha IHa|a m Ha IHa Hm|v|v|e He IHe]; intros h R h';
    rewrite ?leaves_node; simpl fmap; simpl mjoin;
    rewrite ?leaves_leaf, ?app_nil_r, ?length_app; simpl length.
  - rewrite compile_Expr1.
    intros (A & h1 & E1 & [-> ->]%liftH_pair_Ok)%bindH_Ok. eauto.
  - rewrite compile_Expr3.
    intros (A & h1 & E1 & (B & h2 & E2 & Hk%liftH_Ok)%bindH_Ok)%bindH_Ok.
    apply IHt in E1. apply IHe in E2.
    pose proof (length_union A B h2) as Hl. rewrite Hk in Hl. simpl in Hl. lia.
  - rewrite compile_Term1.
    intros (A & h1 & E1 & [-> ->]%liftH_pair_Ok)%bindH_Ok. eauto.
  - rewrite compile_Term2.
    intros (A & h1 & E1 & (B & h2 & E2 & Hk%liftH_Ok)%bindH_Ok)%bindH_Ok.
    apply IHf in E1. apply IHt in E2.
    pose proof (length_concat A B h2) as Hl. rewrite Hk in Hl. simpl in Hl. lia.
  - rewrite compile_Factor1.
    intros (A & h1 & E1 & [-> ->]%liftH_pair_Ok)%bindH_Ok. eauto.
  - assert (∃ m', m = str (chr (meta_char m'))) as [m' ->].
    { destruct Hm as [->|[->| ->]];
        [by exists Star|by exists Plus|by exists Quest]. }
    change (leaf (str (chr (meta_char m')))) with (lf (meta_char m')).
    rewrite compile_Factor2.
    intros (A & h1 & E1 & Hk%liftH_Ok)%bindH_Ok. apply IHa in E1.
    pose proof (length_meta_op m' A h1) as Hl.
    destruct m'; unfold meta_op in Hl; rewrite Hk in Hl; simpl in Hl; lia.
  - change (liftH (fromSymbol v) h = (Ok R, h') → length h' ≤ length h + 2 * 1).
    intros Hk%liftH_Ok. pose proof (length_fromSymbol v h) as Hl.
    rewrite Hk in Hl. simpl in Hl. lia.
  - change (liftH (fromSymbol v) h = (Ok R, h') → length h' ≤ length h + 2 * 2).
    intros Hk%liftH_Ok. pose proof (length_fromSymbol v h) as Hl.
    rewrite Hk in Hl. simpl in Hl. lia.
  - rewrite compile_Atom3. intros E. apply IHe in E.
    rewrite length_app. simpl. lia.
Qed.

Lemma toNFAFromInfixExp_states infixExp g h r g' h' :
  toNFAFromInfixExp infixExp g h = (r, g', h') →
  length h' ≤ length h + 2 * length infixExp + 2.
Proof.
  unfold toNFAFromInfixExp. destruct infixExp as [|c cs].
  - pose proof (length_fromEpsilon h) as Hl.
    destruct (fromEpsilon h) as [R h1]. intros [= <- <- <-]. simpl in *. lia.
  - destruct (toParseTree (c :: cs) g) as [[tree|e|] g1] eqn:E;
      [|intros [= <- <- <-]; lia..].
    pose proof (toParseTree_pos _ _ _ _ E) as Hpos.
    apply toParseTree_shape in E as (_ & _ & Hl & Hs).
    destruct (toNFAfromParseTree tree h) as [r1 h1] eqn:E'.
    intros [= <- <- <-].
    destruct (shaped_compiles _ _ Hs h) as (R & h2 & L & E2 & _).
    rewrite E' in E2. injection E2 as -> ->.
    apply (shaped_states _ _ Hs) in E'.
    rewrite Hl, length_fmap, length_seq in E'. lia.
Qed.

Lemma toNFA_step_length c st h :
  length (toNFA_step c st h).2 ≤ length h + 2.
Proof.
  unfold toNFA_step, unary, binary.
  repeat case_decide; destruct st as [|A [|B st]]; cbn [pop];
    repeat match goal with
    | |- context [closure ?A ?h] =>
        pose proof (length_closure A h); destruct (closure A h)
    | |- context [zeroOrOne ?A ?h] =>
        pose proof (length_zeroOrOne A h); destruct (zeroOrOne A h)
    | |- context [oneOrMore ?A ?h] =>
        pose proof (length_oneOrMore A h); destruct (oneOrMore A h)
    | |- context [union ?A ?B ?h] =>
        pose proof (length_union A B h); destruct (union A B h)
    | |- context [concat ?A ?B ?h] =>
        pose proof (length_concat A B h); destruct (concat A B h)
    | |- context [fromSymbol ?v ?h] =>
        pose proof (length_fromSymbol v h); destruct (fromSymbol v h)
    end; simpl in *; lia.
Qed.

Lemma toNFA_loop_length tokens : ∀ st h,
  length (toNFA_loop tokens st h).2 ≤ length h + 2 * length tokens.
Proof.
  induction tokens as [|c tokens IH]; intros st h; simpl; [lia|].
  pose proof (toNFA_step_length c st h) as H1.
  destruct (toNFA_step c st h) as [st1 h1]. simpl in H1.
  pose proof (IH st1 h1). lia.
Qed.

Lemma toNFA_length tokens h :
  length (toNFA tokens h).2 ≤ length h + 2 * (length tokens `max` 1).
Proof.
  unfold toNFA. destruct tokens as [|c tokens].
  - pose proof (length_fromEpsilon h). destruct (fromEpsilon h). simpl in *. lia.
  - pose proof (toNFA_loop_length (codePoints (c :: tokens)) [] h) as Hl.
    pose proof (length_codePoints (c :: tokens)) as Hc.
    destruct (toNFA_loop (codePoints (c :: tokens)) [] h) as [st h1].
    simpl in *. lia.
Qed.

(** * The postfix compiler builds on top of the heap *)

Lemma stack_op_above n h h' R L inputs st :
  (∀ A, A ∈ inputs → Frag h A) →
  (∀ A B, A ∈ inputs → B ∈ st → disjoint h A B) →
  StackOK h st → stack_above n h st → stack_above n h inputs →
  n ≤ length h →
  Op h h' R L inputs →
  stack_above n h' (R :: st) ∧ length h ≤ length h'
  ∧ ∀ q, q < n → same h h' q.
Proof.
  intros HFin Hdin [HFst Hdst] Hast Hain Hn (HFR & _ & Hreach & Hlen & Hkeep).
  split; [|split; [done|]].
  - intros B q [->|HB]%elem_of_cons Hq.
    + apply Hreach in Hq as [Hq|(A & HA & Hq)]; [lia|by eapply Hain].
    + apply (Hast B q HB).
      destruct (frag_same h h' B (HFst B HB) Hlen) as (_ & _ & Hr); [|by apply Hr].
      intros q' Hq'. apply Hkeep; [by apply (frag_valid _ _ (HFst B HB))|].
      intros (A & -> & HA)%list_elem_of_fmap.
      apply (Hdin A B HA HB (end_ A)); [apply (HFin A HA)|done].
  - intros q Hq. apply Hkeep; [lia|].
    intros (A & -> & HA)%list_elem_of_fmap.
    pose proof (Hain A (end_ A) HA (frag_reach_end _ _ (HFin A HA))). lia.
Qed.

Lemma stack_above_tail n h A st : stack_above n h (A :: st) → stack_above n h st.
Proof. intros Ha B q HB. apply Ha. by apply elem_of_cons; right. Qed.

Lemma stack_above_nil n h : stack_above n h [].
Proof. by intros ? ? ?%elem_of_nil. Qed.

Lemma unary_above (op : NFA → heap → NFA * heap) (F : language → language)
    n h st st' h' :
  (∀ h A R h', Frag h A → op A h = (R, h') → Op h h' R (F (lang h A)) [A]) →
  StackOK h st → stack_above n h st → n ≤ length h →
  unary op st h = (st', h') →
  stack_above n h' st' ∧ length h ≤ length h' ∧ ∀ q, q < n → same h h' q.
Proof.
  intros Hop Hst Ha Hn. unfold unary. destruct st as [|A st]; simpl.
  - intros [= <- <-]. split; [done|]. split; [done|]. intros. apply same_refl.
  - destruct (op A h) as [R h1] eqn:E. intros [= <- <-].
    destruct (stack_head _ _ _ Hst) as [HFA HdA].
    eapply stack_op_above;
      [| |by eapply stack_tail|by eapply stack_above_tail| |done
       |by apply (Hop _ _ _ _ HFA E)].
    + by intros ? ->%elem_of_list1.
    + intros ? B ->%elem_of_list1. apply HdA.
    + intros ? q ->%elem_of_list1. apply Ha. by apply elem_of_cons; left.
Qed.

Lemma binary_above (op : NFA → NFA → heap → NFA * heap)
    (F : language → language → language) n h st st' h' :
  (∀ h A B R h', Frag h A → Frag h B → disjoint h A B → op A B h = (R, h') →
     Op h h' R (F (lang h A) (lang h B)) [A; B]) →
  StackOK h st → stack_above n h st → n ≤ length h →
  binary op st h = (st', h') →
  stack_above n h' st' ∧ length h ≤ length h' ∧ ∀ q, q < n → same h h' q.
Proof.
  intros Hop Hst Ha Hn. unfold binary. destruct st as [|B [|A st]]; simpl.
  - intros [= <- <-]. split; [done|]. split; [done|]. intros. apply same_refl.
  - intros [= <- <-]. split; [apply stack_above_nil|]. split; [done|].
    intros. apply same_refl.
  - destruct (op A B h) as [R h1] eqn:E. intros [= <- <-].
    destruct (stack_head _ _ _ Hst) as [HFB HdB].
    destruct (stack_head _ _ _ (stack_tail _ _ _ Hst)) as [HFA HdA].
    assert (disjoint h A B) as Hd.
    { apply disjoint_sym, HdB. by apply elem_of_cons; left. }
    eapply stack_op_above;
      [| |by eapply stack_tail, stack_tail
       |by eapply stack_above_tail, stack_above_tail| |done
       |by apply (Hop _ _ _ _ _ HFA HFB Hd E)].
    + by intros ? [->| ->]%elem_of_list2.
    + intros ? C [->| ->]%elem_of_list2 HC; [by apply HdA|].
      apply HdB. by apply elem_of_cons; right.
    + intros ? q [->| ->]%elem_of_list2; apply Ha.
      * apply elem_of_cons; right. by apply elem_of_cons; left.
      * by apply elem_of_cons; left.
Qed.

Lemma toNFA_step_above n c h st st' h' :
  StackOK h st → stack_above n h st → n ≤ length h →
  toNFA_step c st h = (st', h') →
  stack_above n h' st' ∧ length h ≤ length h' ∧ ∀ q, q < n → same h h' q.
Proof.
  intros Hst Ha Hn. unfold toNFA_step. repeat case_decide.
  - apply (unary_above closure lang_star); [|done..]. intros; by apply closure_spec.
  - apply (unary_above zeroOrOne lang_opt); [|done..]. intros; by apply zeroOrOne_spec.
  - apply (unary_above oneOrMore lang_plus); [|done..]. intros; by apply oneOrMore_spec.
  - apply (binary_above union lang_union); [|done..].
    intros; apply union_spec; auto.
  - apply (binary_above concat lang_concat); [|done..].
    intros; by apply concat_spec.
  - destruct (fromSymbol (str c) h) as [R h1] eqn:E. intros [= <- <-].
    eapply stack_op_above; [| |done|done| |done|by eapply fromSymbol_spec].
    + by intros ? ?%elem_of_nil.
    + by intros ? ? ?%elem_of_nil.
    + apply stack_above_nil.
Qed.

Lemma toNFA_loop_above n tokens : ∀ h st st' h',
  StackOK h st → stack_above n h st → n ≤ length h →
  toNFA_loop tokens st h = (st', h') →
  length h ≤ length h' ∧ ∀ q, q < n → same h h' q.
Proof.
  induction tokens as [|c tokens IH]; intros h st st' h' Hst Ha Hn; simpl.
  - intros [= <- <-]. split; [done|]. intros. apply same_refl.
  - destruct (toNFA_step c st h) as [st1 h1] eqn:E.
    destruct (toNFA_step_above _ _ _ _ _ _ Hst Ha Hn E) as (Ha1 & Hl1 & Hs1).
    pose proof (toNFA_step_stack _ _ _ _ _ Hst E) as Hst1.
    intros E2. destruct (IH _ _ _ _ Hst1 Ha1 ltac:(lia) E2) as [Hl2 Hs2].
    split; [lia|]. intros q Hq. eapply same_trans; eauto.
Qed.

Lemma toNFA_extends tokens h : extends h (toNFA tokens h).2.
Proof.
  unfold toNFA. destruct tokens as [|c tokens].
  - destruct (fromEpsilon h) as [R h1] eqn:E. simpl.
    eapply op_extends, fromEpsilon_spec, E.
  - destruct (toNFA_loop (codePoints (c :: tokens)) [] h) as [st h1] eqn:E.
    simpl.
    eapply (toNFA_loop_above (length h)); [apply stack_nil| |done|exact E].
    apply stack_above_nil.
Qed.

Lemma toNFAFromInfixExp_extends infixExp g h :
  extends h (toNFAFromInfixExp infixExp g h).2.
Proof.
  destruct (toNFAFromInfixExp_outcome infixExp g h) as (r & g' & h' & E & Hr).
  rewrite E. simpl. destruct r as [R|e|]; [| |done].
  - destruct Hr as [L HB]. by eapply built_extends.
  - destruct Hr as [_ ->]. apply extends_refl.
Qed.

(** * A fragment concatenated with itself *)

Lemma concat_self_sink h A R h' :
  Frag h A → concat A A h = (R, h') →
  R = A ∧ Sink h h' A ∧ ∀ q, final h' q = if decide (q = end_ A) then false
                                          else final h q.
Proof.
  intros HA Hop.
  pose proof (frag_end_valid _ _ HA) as HeA.
  pose proof (frag_end_eps _ _ HA) as HnA.
  pose proof (concat_obs A A h HeA) as Hobs. rewrite Hop in Hobs.
  destruct Hobs as (Hs & He & Hlen & Heps & Htr & Hfin).
  split; [destruct R, A; simpl in *; congruence|]. split; [|done].
  constructor.
  - done.
  - intros q Hq Hne. split; [|done]. rewrite Heps, decide_False by done.
    by rewrite app_nil_r.
  - intros k. rewrite Htr. apply (frag_end_trans _ _ HA).
  - intros o. rewrite Heps, HnA, decide_True by done.
    intros ->%list_elem_of_singleton. by left.
Qed.

Lemma concat_self_rejects h A R h' w :
  Frag h A → concat A A h = (R, h') → ¬ accepts h' (start R) w.
Proof.
  intros HA Hop. destruct (concat_self_sink _ _ _ _ HA Hop) as (-> & HS & Hfin).
  pose proof (frag_end_valid _ _ HA) as HeA.
  pose proof (concat_obs A A h HeA) as Hobs. rewrite Hop in Hobs.
  destruct Hobs as (_ & _ & _ & Heps & _ & _).
  intros (t & Hrun%run_reach & _ & Hf).
  assert (reach h (start A) t) as Ht.
  { destruct (out_reach _ _ _ HS _ _ Hrun) as [?|(o & Ho & Hout & _)];
      [apply rtc_refl|done|].
    rewrite Heps, (frag_end_eps _ _ HA), decide_True in Ho by done.
    apply list_elem_of_singleton in Ho as ->. destruct Hout. apply rtc_refl. }
  rewrite Hfin in Hf. case_decide as Hd; [done|].
  by apply Hd, (frag_final _ _ HA).
Qed.

(** * Text after an unmatched closing parenthesis *)

Lemma toParseTree_unmatched e r g :
  wf_expr e →
  ∃ g', toParseTree (yield_expr e ++ (")" : cu) :: r) g = (Ok (tree_expr e), g')
        ∧ rest g' = (")" : cu) :: r.
Proof.
  intros Hwf. unfold toParseTree.
  destruct (proj1 rules_complete e Hwf (parse_fuel (yield_expr e ++ (")" : cu) :: r))
              {| pattern := yield_expr e ++ (")" : cu) :: r; pos := 0 |} ((")" : cu) :: r))
    as (g' & E & Hr & Hp).
  - unfold rest. simpl. by rewrite drop_0.
  - done.
  - unfold parse_fuel. pose proof (proj1 height_bound e).
    rewrite length_app. lia.
  - by exists g'.
Qed.

Lemma toNFAFromInfixExp_unmatched e r g h :
  wf_expr e →
  ∃ R g' h', toNFAFromInfixExp (yield_expr e ++ (")" : cu) :: r) g h = (Ok R, g', h')
             ∧ rest g' = (")" : cu) :: r ∧ Built h h' R (units (den_expr e)).
Proof.
  intros Hwf.
  destruct (toParseTree_unmatched e r g Hwf) as (g' & E & Hr).
  destruct (proj1 compile_tree e h) as (R & h' & E' & HR).
  exists R, g', h'. split; [|done]. unfold toNFAFromInfixExp.
  destruct (yield_expr e ++ (")" : cu) :: r) eqn:Ey; [by apply app_eq_nil in Ey as [_ ?]|].
  by rewrite E, E'.
Qed.

(** * A quantifier at the start of the pattern *)

Lemma toParseTree_leading_meta m r g :
  toParseTree (meta_char m :: r) g
  = (Throw (Error (js "Unexpected meta char " ++ chr (meta_char m))),
     {| pattern := meta_char m :: r; pos := 0 |}).
Proof.
  unfold toParseTree, parse_fuel. simpl length.
  replace (4 * S (length r) + 4) with (S (S (S (S (4 * length r + 4))))) by lia.
  by destruct m.
Qed.

(** * Operands left under the top of the stack *)

Lemma toNFA_top pre e h :
  postfix_ok_expr e → Forall (λ c, is_low c = false) (postfix_expr e) →
  ∃ R h', toNFA (pre ++ postfix_expr e) h = (Some R, h')
          ∧ Frag h' R ∧ ∀ w, lang h' R w ↔ units (den_expr e) w.
Proof.
  intros Hok Hlow. unfold toNFA.
  destruct (pre ++ postfix_expr e) eqn:Ep.
  { apply app_eq_nil in Ep as [_ Ep]. by apply (proj1 postfix_nonempty) in Ep. }
  rewrite <- Ep, codePoints_app_units, toNFA_loop_app by done.
  destruct (toNFA_loop (codePoints pre) [] h) as [st1 h1].
  destruct (proj1 compile_postfix e Hok st1 h1) as (R & h' & E & HF & HL & _).
  rewrite E. by exists R, h'.
Qed.

(** * The matcher *)

Lemma createMatcher_extends exp g h : extends h (createMatcher exp g h).2.
Proof.
  pose proof (toNFAFromInfixExp_extends exp g h) as He. unfold createMatcher.
  by destruct (toNFAFromInfixExp exp g h) as [[[R|e|] g'] h'].
Qed.

Lemma createMatcher_built p g h :
  wf_pattern p →
  ∃ R g' h', createMatcher (yield p) g h
             = (Ok (λ word h, recognize h R word), g', h')
             ∧ Built h h' R (units (den p)).
Proof.
  intros Hwf. destruct (toNFAFromInfixExp_built p g h Hwf) as (R & g' & h' & E & HB).
  exists R, g', h'. split; [|done]. unfold createMatcher. by rewrite E.
Qed.

(** * A group left open at the end of the input *)

Lemma open_first :
  (∀ e, wf_oexpr e → ∃ c r, yield_oexpr e = c :: r ∧ first_ok c)
  ∧ (∀ t, wf_oterm t → ∃ c r, yield_oterm t = c :: r ∧ first_ok c)
  ∧ (∀ a, wf_oatom a → ∃ c r, yield_oatom a = c :: r ∧ first_ok c).
Proof.
  apply open_mutind; simpl.
  - auto.
  - intros t e _ [Ht _]%andb_True.
    destruct (proj1 (proj2 first_yield) t Ht) as (c & r & -> & Hc).
    by eexists _, _.
  - auto.
  - intros f t _ [Hf _]%andb_True.
    destruct (proj1 (proj2 (proj2 first_yield)) f Hf) as (c & r & -> & Hc).
    by eexists _, _.
  - intros e _. eexists _, _. split; [done|]. by repeat split.
  - intros e _ _. eexists _, _. split; [done|]. by repeat split.
Qed.

Lemma match_end ch g :
  rest g = [] → ch ≠ undefined →
  match_ ch g = (Throw (Error (js "Unexpected symbol " ++ toString ch)), g).
Proof.
  intros Hr Hch. rewrite match_spec, (peek_nil _ Hr).
  by rewrite bool_decide_eq_true_2 by done.
Qed.

(** Each rule, on a text that ends in an open group, throws the error of the
    missing parenthesis, with the input exhausted. *)
Lemma rules_open :
  (∀ e, wf_oexpr e → ∀ fuel g, rest g = yield_oexpr e →
     rule_fuel RExpr g ≤ fuel → unclosed (expr fuel g) g)
  ∧ (∀ t, wf_oterm t → ∀ fuel g, rest g = yield_oterm t →
     rule_fuel RTerm g ≤ fuel → unclosed (term fuel g) g)
  ∧ (∀ a, wf_oatom a → ∀ fuel g, rest g = yield_oatom a →
     rule_fuel RFactor g ≤ fuel → unclosed (factor fuel g) g).
Proof.
  apply open_mutind; unfold rule_fuel.
  - (* OpenExpr -> OpenTerm *)
    intros t IHt Hwf [|fuel] g Hr Hf; [lia|]. simpl in Hr, Hwf.
    destruct (IHt Hwf fuel g Hr) as (g1 & E1 & Hr1 & Hp1); [lia|].
    cbn [expr]. unfold bind. rewrite E1. by exists g1.
  - (* OpenExpr -> Term '|' OpenExpr *)
    intros t e IHe [Ht He]%andb_True [|fuel] g Hr Hf; [lia|]. simpl in Hr.
    rewrite Hr, length_app in Hf. simpl in Hf.
    pose proof (proj1 (proj2 height_bound) t) as Hh.
    destruct (proj1 (proj2 rules_complete) t Ht fuel g _ Hr)
      as (g1 & E1 & Hr1 & Hp1); [by right|lia|].
    cbn [expr]. unfold bind. rewrite E1, (cond_bar_go g1 _ Hr1).
    change (str "|") with (str (chr "|")). rewrite (match_cons _ _ _ Hr1).
    pose proof (rest_advance_cons _ _ _ Hr1) as Hr2.
    destruct (IHe He fuel (advance g1) Hr2) as (g2 & E2 & Hr3 & Hp3);
      [rewrite Hr2; lia|].
    rewrite E2. exists g2. split; [done|]. split; [done|].
    by rewrite Hp3.
  - (* OpenTerm -> OpenAtom *)
    intros a IHa Hwf [|fuel] g Hr Hf; [lia|]. simpl in Hr, Hwf.
    destruct (IHa Hwf fuel g Hr) as (g1 & E1 & Hr1 & Hp1); [lia|].
    cbn [term]. unfold bind. rewrite E1. by exists g1.
  - (* OpenTerm -> Factor OpenTerm *)
    intros f t IHt [Hf' Ht]%andb_True [|fuel] g Hr Hf; [lia|]. simpl in Hr.
    rewrite Hr, length_app in Hf.
    destruct (proj1 (proj2 open_first) t Ht) as (c & r & Hy & Hc).
    pose proof (proj1 (proj2 (proj2 height_bound)) f) as Hh.
    destruct (proj1 (proj2 (proj2 rules_complete)) f Hf' fuel g _ Hr)
      as (g1 & E1 & Hr1 & Hp1);
      [rewrite Hy; by apply first_follow_factor|lia|].
    cbn [term]. unfold bind. rewrite E1.
    rewrite (cond_term_go g1 c r) by first [done | by rewrite Hr1, Hy].
    destruct (IHt Ht fuel g1 Hr1) as (g2 & E2 & Hr2 & Hp2);
      [rewrite Hr1; lia|].
    rewrite E2. exists g2. split; [done|]. split; [done|]. by rewrite Hp2.
  - (* OpenAtom -> '(' Expr *)
    intros e Hwf [|[|fuel]] g Hr Hf; [lia| |]; simpl in Hr, Hwf;
      rewrite Hr in Hf; simpl in Hf; [lia|].
    pose proof (proj1 height_bound e) as Hh.
    cbn [factor atom]. unfold bind. rewrite (peek_cons _ _ _ Hr).
    rewrite bool_decide_eq_true_2 by done.
    change (str "(") with (str (chr "(")). rewrite (match_cons _ _ _ Hr).
    pose proof (rest_advance_cons _ _ _ Hr) as Hr1.
    rewrite <- (app_nil_r (yield_expr e)) in Hr1.
    destruct (proj1 rules_complete e Hwf fuel (advance g) [] Hr1)
      as (g2 & E2 & Hr2 & Hp2); [done|lia|].
    rewrite E2, (match_end _ _ Hr2) by done.
    exists g2. split; [done|]. split; [done|]. by rewrite Hp2.
  - (* OpenAtom -> '(' OpenExpr *)
    intros e IHe Hwf [|[|fuel]] g Hr Hf; [lia| |]; simpl in Hr, Hwf;
      pose proof Hf as Hf'; rewrite Hr in Hf'; simpl in Hf'; [lia|].
    cbn [factor atom]. unfold bind. rewrite (peek_cons _ _ _ Hr).
    rewrite bool_decide_eq_true_2 by done.
    change (str "(") with (str (chr "(")). rewrite (match_cons _ _ _ Hr).
    pose proof (rest_advance_cons _ _ _ Hr) as Hr1.
    destruct (IHe Hwf fuel (advance g) Hr1) as (g2 & E2 & Hr2 & Hp2);
      [rewrite Hr1; lia|].
    rewrite E2. exists g2. split; [done|]. split; [done|]. by rewrite Hp2.
Qed.

Lemma toParseTree_open o g :
  wf_oexpr o →
  ∃ g', toParseTree (yield_oexpr o) g
        = (Throw (Error (js "Unexpected symbol )")), g')
        ∧ pattern g' = yield_oexpr o ∧ length (yield_oexpr o) ≤ pos g'.
Proof.
  intros Hwf. unfold toParseTree.
  destruct (proj1 rules_open o Hwf (parse_fuel (yield_oexpr o))
              {| pattern := yield_oexpr o; pos := 0 |})
    as (g' & E & Hr & Hp).
  - unfold rest. simpl. by rewrite drop_0.
  - unfold rule_fuel, parse_fuel, rest. simpl. by rewrite drop_0.
  - exists g'. split; [done|]. split; [done|].
    unfold rest in Hr. rewrite Hp in Hr. simpl in Hr.
    apply (f_equal length) in Hr. rewrite length_drop in Hr. simpl in Hr. lia.
Qed.

(** * The claims *)

Lemma recognize_agree h1 A h2 B w (P : Prop) :
  (recognize h1 A w = Some true ↔ P) →
  (recognize h2 B w = Some true ↔ P) →
  ∃ b, recognize h1 A w = Some b ∧ recognize h2 B w = Some b.
Proof.
  intros H1 H2.
  destruct (recognize_spec h1 A w) as (b1 & E1 & _).
  destruct (recognize_spec h2 B w) as (b2 & E2 & _).
  rewrite E1, E2 in *. exists b1. split; [done|]. f_equal.
  destruct b1, b2; try done.
  - assert (Some false = Some true) as [=] by (by apply H2, H1).
  - assert (Some false = Some true) as [=] by (by apply H1, H2).
Qed.

Lemma recognize_decides h A w (P : Prop) :
  (recognize h A w = Some true ↔ P) →
  ∃ b, recognize h A w = Some b ∧ (b = true ↔ P).
Proof.
  intros HL. destruct (recognize_spec h A w) as (b & E & _).
  exists b. split; [done|]. rewrite <- HL, E. split; [by intros ->|by intros [= ->]].
Qed.

(** An automaton whose symbols are single code units matches the strings
    of its language that have no surrogate pair. *)
Lemma built_units_recognize h h' R (L : jsstring → Prop) w :
  Built h h' R (units L) →
  recognize h' R w = Some true ↔ L w ∧ has_pair w = false.
Proof.
  intros HB. rewrite (built_recognize _ _ _ _ w HB). apply units_codePoints.
Qed.

(** The star and the plus of the language of a fragment, in terms of the
    strings the fragment matches: the pieces of the string lie between code
    points. *)
Lemma pieces_Forall h A ws :
  Frag h A →
  Forall (lang h A) (codePoints <$> ws)
  ↔ Forall (λ u, recognize h A u = Some true) ws.
Proof.
  intros HA. rewrite Forall_fmap. apply Forall_proper; [|done].
  intros u. simpl. by rewrite (recognize_lang h A u HA).
Qed.

Lemma lang_star_pieces h A w :
  Frag h A →
  lang_star (lang h A) (codePoints w)
  ↔ ∃ ws, w = mjoin ws ∧ codePoints w = mjoin (codePoints <$> ws)
          ∧ Forall (λ u, recognize h A u = Some true) ws.
Proof.
  intros HA. unfold lang_star. split.
  - intros (uss & E & Huss).
    destruct (codePoints_join_inv _ _ E) as (ws & -> & <-).
    exists ws. split; [done|]. split; [done|]. by apply pieces_Forall.
  - intros (ws & -> & E & Hws). exists (codePoints <$> ws).
    split; [done|]. by apply pieces_Forall.
Qed.

Lemma lang_plus_pieces h A w :
  Frag h A →
  lang_plus (lang h A) (codePoints w)
  ↔ ∃ ws, ws ≠ [] ∧ w = mjoin ws
          ∧ codePoints w = mjoin (codePoints <$> ws)
          ∧ Forall (λ u, recognize h A u = Some true) ws.
Proof.
  intros HA. unfold lang_plus. split.
  - intros (uss & Hne & E & Huss).
    destruct (codePoints_join_inv _ _ E) as (ws & -> & <-).
    exists ws. split; [by destruct ws|]. split; [done|]. split; [done|].
    by apply pieces_Forall.
  - intros (ws & Hne & -> & E & Hws). exists (codePoints <$> ws).
    split; [by destruct ws|]. split; [done|]. by apply pieces_Forall.
Qed.

Lemma lang_concat_pieces h A B w :
  Frag h A → Frag h B →
  lang_concat (lang h A) (lang h B) (codePoints w)
  ↔ ∃ u v, w = u ++ v ∧ codePoints w = codePoints u ++ codePoints v
           ∧ recognize h A u = Some true ∧ recognize h B v = Some true.
Proof.
  intros HA HB. unfold lang_concat. split.
  - intros (us & vs & E & Hu & Hv).
    destruct (codePoints_app_inv _ _ _ E) as (u & v & -> & <- & <-).
    exists u, v. split; [done|]. split; [done|].
    by rewrite (recognize_lang h A u HA), (recognize_lang h B v HB).
  - intros (u & v & -> & E & Hu & Hv). exists (codePoints u), (codePoints v).
    split; [done|].
    by rewrite <- (recognize_lang h A u HA), <- (recognize_lang h B v HB).
Qed.

(** Facts about the two example fragments. *)
Lemma ex_fragments :
  Frag ex_h2 ex_A ∧ Frag ex_h2 ex_B ∧ disjoint ex_h2 ex_A ex_B.
Proof.
  assert (Built [] ex_h1 ex_A (lang_sym (toString (str "a")))) as HA.
  { apply built_op0, (fromSymbol_spec (str "a")). apply surjective_pairing. }
  assert (Built ex_h1 ex_h2 ex_B (lang_sym (toString (str "b")))) as HB.
  { apply built_op0, (fromSymbol_spec (str "b")). apply surjective_pairing. }
  destruct (built_disjoint _ _ _ _ _ _ _ HA HB) as [(HFA & _) Hd].
  destruct HB as (HFB & _). done.
Qed.

(** The fragment that matches either half of the surrogate pair. *)
Lemma ex_halves_frag : Frag ex_hU ex_U.
Proof.
  assert (Built [] (snd ex_hi) (fst ex_hi) (lang_sym (toString (str [0xD83D%N]))))
    as HA.
  { apply built_op0, (fromSymbol_spec (str [0xD83D%N])).
    apply surjective_pairing. }
  assert (Built (snd ex_hi) (snd ex_lo) (fst ex_lo)
            (lang_sym (toString (str [0xDE00%N])))) as HB.
  { apply built_op0, (fromSymbol_spec (str [0xDE00%N])).
    apply surjective_pairing. }
  destruct (union_built _ _ _ _ _ _ _ HA HB) as (R & h3 & E3 & HR & _).
  unfold ex_U, ex_hU. by rewrite E3.
Qed.

(** C1, as stated, fails.  The pattern that is the one character U+1F600
    is, to the parser, two literals, the two code units of the character;
    the word that is this same character is in the language of the pattern.
    The matcher reads the word by code points: it looks for an edge labelled
    with the whole character, and the automaton has none. *)
Lemma C1_counterexample :
  wf_pattern (PExpr ex_astral)
  ∧ yield (PExpr ex_astral) = astral
  ∧ den (PExpr ex_astral) astral
  ∧ ∃ nfa g' h',
      toNFAFromInfixExp astral g0 [] = (Ok nfa, g', h')
      ∧ recognize h' nfa astral = Some false.
Proof.
  split; [exact I|]. split; [reflexivity|]. split.
  - by exists [0xD83D%N], [0xDE00%N].
  - eexists _, _, _. split; reflexivity.
Qed.

(** C1, amended.  For every pattern of the accepted regex surface (the empty
    pattern, or the text of a derivation of the grammar whose unescaped
    literals are not syntax characters) and every word: compiling the
    pattern from infix succeeds, from any parser state and on any heap, and
    matching the word on the compiled automaton returns a boolean that is
    true exactly when the word has no surrogate pair and is, as a sequence
    of code units, in the language of the pattern under the standard
    semantics of literals, alternation, grouping, star, plus, question mark
    and escapes, the literals of the pattern being its code units. *)
Theorem C1_infix_match_is_language (p : Pattern) (g : globals) (h : heap)
    (w : jsstring) :
  wf_pattern p →
  ∃ nfa g' h',
    toNFAFromInfixExp (yield p) g h = (Ok nfa, g', h')
    ∧ ∃ b, recognize h' nfa w = Some b
           ∧ (b = true ↔ den p w ∧ has_pair w = false).
Proof.
  intros Hwf.
  destruct (toNFAFromInfixExp_built p g h Hwf) as (R & g' & h' & E & HR).
  exists R, g', h'. split; [done|].
  apply recognize_decides. by eapply built_units_recognize.
Qed.

Lemma C1_witness :
  wf_pattern (PExpr ex_star)
  ∧ ∃ nfa g' h',
      toNFAFromInfixExp (chars "(a|b)*c") g0 [] = (Ok nfa, g', h')
      ∧ ∃ b, recognize h' nfa (chars "bbac") = Some b
             ∧ (b = true ↔ den (PExpr ex_star) (chars "bbac")
                           ∧ has_pair (chars "bbac") = false).
Proof.
  split; [exact I|].
  exact (C1_infix_match_is_language (PExpr ex_star) g0 [] (chars "bbac") I).
Defined.

(** C2, as stated, fails.  For the pattern that is the one character
    U+1F600 the tree compiler builds an automaton for its two code units, on
    which the character is not matched.  The postfix compiler reads its
    input by code points: on the postfix form of the two literals it finds
    one token and a concatenation without its operands and returns
    [undefined]; on the character as a one-token postfix form it builds an
    automaton that matches the character. *)
Lemma C2_counterexample :
  wf_expr ex_astral ∧ postfix_ok_expr ex_astral
  ∧ yield_expr ex_astral = astral
  ∧ fst (toNFA (postfix_expr ex_astral) []) = None
  ∧ ∃ A g' h1 B h2,
      toNFAFromInfixExp astral g0 [] = (Ok A, g', h1)
      ∧ toNFA astral [] = (Some B, h2)
      ∧ recognize h1 A astral = Some false
      ∧ recognize h2 B astral = Some true.
Proof.
  split; [exact I|]. split; [exact I|]. split; [reflexivity|].
  split; [reflexivity|].
  eexists _, _, _, _, _. repeat split; reflexivity.
Qed.

(** C2, amended.  For every derivation whose literals can be written as
    postfix tokens and whose postfix form has no surrogate pair, and every
    word: the tree compiler on the parse tree of the infix text, and the
    postfix compiler on the postfix form of the same derivation (with [.]
    for concatenation), both succeed, on any heaps, and [recognize] returns
    the same boolean on the two automata. *)
Theorem C2_tree_postfix_equivalent (e : Expr) (g : globals) (h1 h2 : heap)
    (w : jsstring) :
  wf_expr e → postfix_ok_expr e → has_pair (postfix_expr e) = false →
  ∃ tree g' A h1' B h2',
    toParseTree (yield_expr e) g = (Ok tree, g')
    ∧ toNFAfromParseTree tree h1 = (Ok A, h1')
    ∧ toNFA (postfix_expr e) h2 = (Some B, h2')
    ∧ ∃ b, recognize h1' A w = Some b ∧ recognize h2' B w = Some b.
Proof.
  intros Hwf Hok Hp.
  destruct (toParseTree_complete e g Hwf) as (g' & E1 & _).
  destruct (proj1 compile_tree e h1) as (A & h1' & E2 & HA).
  destruct (toNFA_built e h2 Hok Hp) as (B & h2' & E3 & HB).
  exists (tree_expr e), g', A, h1', B, h2'. repeat (split; [done|]).
  apply (recognize_agree _ _ _ _ _ (den_expr e w ∧ has_pair w = false));
    by eapply built_units_recognize.
Qed.

Lemma C2_witness :
  wf_expr ex_plain ∧ postfix_ok_expr ex_plain
  ∧ has_pair (postfix_expr ex_plain) = false
  ∧ ∃ tree g' A h1' B h2',
      toParseTree (chars "ab|c") g0 = (Ok tree, g')
      ∧ toNFAfromParseTree tree [] = (Ok A, h1')
      ∧ toNFA (chars "ab.c|") [] = (Some B, h2')
      ∧ ∃ b, recognize h1' A (chars "ab") = Some b
             ∧ recognize h2' B (chars "ab") = Some b.
Proof.
  split; [exact I|]. split; [exact I|]. split; [reflexivity|].
  exact (C2_tree_postfix_equivalent ex_plain g0 [] [] (chars "ab") I I
           eq_refl).
Defined.

(** C3, as stated, fails.  On ["(a"] the parser throws the error that
    [match] builds from the expected character; the parser has no
    end-of-input condition.  On a trailing backslash it does not fail: the
    lookahead past the end is [undefined], [match] accepts it, and it
    becomes a leaf of the tree. *)
Lemma C3_counterexample :
  fst (toParseTree (chars "(a") g0)
  = Throw (Error (js "Unexpected symbol )"))
  ∧ ∃ tree g', toParseTree (chars "a\") g0 = (Ok tree, g')
               ∧ has_undefined tree = true.
Proof.
  split; [reflexivity|].
  eexists _, _. split; reflexivity.
Qed.

(** C3, amended.  The parser has two errors and no separate end-of-input
    condition.  A pattern that ends in a group left open, well formed as far
    as it goes (as ["(a"]), fails with ["Unexpected symbol )"], the cursor
    at the end of the pattern.  That error is thrown only with the cursor at
    or past the end of the pattern; ["Unexpected meta char"] only with a
    quantifier as the next character.  [toParseTree] always returns or
    throws. *)
Theorem C3_parse_errors :
  (∀ o g, wf_oexpr o →
     ∃ g', toParseTree (yield_oexpr o) g
           = (Throw (Error (js "Unexpected symbol )")), g')
           ∧ pattern g' = yield_oexpr o
           ∧ length (yield_oexpr o) ≤ pos g')
  ∧ (∀ regex g e g',
     toParseTree regex g = (Throw e, g') →
     pattern g' = regex
     ∧ ((e = Error (js "Unexpected symbol )") ∧ length regex ≤ pos g')
        ∨ (∃ c, e = Error (js "Unexpected meta char " ++ chr c)
                ∧ regex !! pos g' = Some c
                ∧ (c = "*" ∨ c = "+" ∨ c = "?"))))
  ∧ (∀ g, toParseTree (chars "(a") g
          = (Throw (Error (js "Unexpected symbol )")),
             {| pattern := chars "(a"; pos := 2 |}))
  ∧ (∀ regex g, fst (toParseTree regex g) ≠ OutOfFuel).
Proof.
  split; [|split; [|split; [done|apply toParseTree_total]]].
  { intros o g Hwf. by apply toParseTree_open. }
  intros regex g e g' Hp.
  pose proof (toParseTree_post regex g) as [Hpat Hpost].
  rewrite Hp in Hpat, Hpost. simpl in Hpat, Hpost. split; [done|].
  destruct Hpost as [[-> Hr]|(c & r & -> & Hr & Hc)].
  - left. split; [done|]. unfold rest in Hr. rewrite Hpat in Hr.
    apply (f_equal length) in Hr. rewrite length_drop in Hr. simpl in Hr. lia.
  - right. exists c. split; [done|]. split; [|done].
    unfold rest in Hr. rewrite Hpat in Hr. by rewrite lookup_head_drop, Hr.
Qed.

Lemma C3_witness :
  wf_oexpr ex_open
  ∧ ∃ g', toParseTree (chars "ab|c(d*(e") g0
          = (Throw (Error (js "Unexpected symbol )")), g')
          ∧ pattern g' = chars "ab|c(d*(e"
          ∧ length (chars "ab|c(d*(e") ≤ pos g'.
Proof.
  split; [exact I|].
  exact (proj1 C3_parse_errors ex_open g0 I).
Defined.

(** C4. For fragments [A] and [B] as the operators leave them (each with its
    one accepting end state without edges), not yet consumed, and either
    sharing no state or the same fragment, and for every word: [recognize]
    returns on each of [A], [B] (before the union) and [union A B] (after
    it), and the result on the union is the disjunction of the two. *)
Theorem C4_union_matches (h : heap) (A B : NFA) (w : jsstring)
    (U : NFA) (h' : heap) :
  Frag h A → Frag h B → A = B ∨ disjoint h A B →
  union A B h = (U, h') →
  ∃ a b, recognize h A w = Some a ∧ recognize h B w = Some b
         ∧ recognize h' U w = Some (a || b).
Proof.
  intros HA HB Hsep Hop.
  destruct (union_spec _ _ _ _ _ HA HB Hsep Hop) as (HU & HL & _).
  destruct (recognize_spec h A w) as (a & Ea & _).
  destruct (recognize_spec h B w) as (b & Eb & _).
  destruct (recognize_spec h' U w) as (u & Eu & _).
  exists a, b. split; [done|]. split; [done|]. rewrite Eu. f_equal.
  pose proof (recognize_lang h' U w HU) as Hu. rewrite Eu, HL in Hu.
  pose proof (recognize_lang h A w HA) as Ha. rewrite Ea in Ha.
  pose proof (recognize_lang h B w HB) as Hb. rewrite Eb in Hb.
  unfold lang_union in Hu. rewrite <- Ha, <- Hb in Hu.
  destruct u, a, b; simpl; try done.
  - destruct (proj1 Hu eq_refl) as [[=]|[=]].
  - assert (Some false = Some true) as [=] by (apply Hu; by left).
  - assert (Some false = Some true) as [=] by (apply Hu; by left).
  - assert (Some false = Some true) as [=] by (apply Hu; by right).
Qed.

Lemma C4_witness :
  Frag ex_h2 ex_A ∧ Frag ex_h2 ex_B
  ∧ (ex_A = ex_B ∨ disjoint ex_h2 ex_A ex_B)
  ∧ ∃ a b, recognize ex_h2 ex_A (chars "b") = Some a
           ∧ recognize ex_h2 ex_B (chars "b") = Some b
           ∧ recognize (snd (union ex_A ex_B ex_h2))
               (fst (union ex_A ex_B ex_h2)) (chars "b") = Some (a || b).
Proof.
  destruct ex_fragments as (HA & HB & Hd).
  split; [exact HA|]. split; [exact HB|]. split; [right; exact Hd|].
  exact (C4_union_matches ex_h2 ex_A ex_B (chars "b")
           (fst (union ex_A ex_B ex_h2)) (snd (union ex_A ex_B ex_h2))
           HA HB (or_intror Hd) (surjective_pairing _)).
Defined.

(** C5, as stated, fails.  The union of the fragments of the two code
    units of U+1F600 matches each code unit by itself, and the character is
    these two substrings one after the other; the closure of the union does
    not match the character, which the matcher reads as one symbol. *)
Lemma C5_counterexample :
  Frag ex_hU ex_U
  ∧ astral = mjoin [[0xD83D%N]; [0xDE00%N]]
  ∧ Forall (λ u, recognize ex_hU ex_U u = Some true) [[0xD83D%N]; [0xDE00%N]]
  ∧ recognize (snd (closure ex_U ex_hU)) (fst (closure ex_U ex_hU)) astral
    = Some false.
Proof.
  split; [exact ex_halves_frag|]. split; [reflexivity|].
  split; [|reflexivity]. repeat constructor.
Qed.

(** C5, amended.  For a fragment [A] as the operators leave it, not yet
    consumed, and every word [w]: [recognize] on [closure A] returns a
    boolean, which is true exactly when [w] is empty or splits, between
    code points (no surrogate pair of [w] is cut), into one or more
    substrings on each of which [recognize] on [A] (before the closure)
    returns true. *)
Theorem C5_closure_matches (h : heap) (A : NFA) (w : jsstring)
    (R : NFA) (h' : heap) :
  Frag h A → closure A h = (R, h') →
  ∃ b, recognize h' R w = Some b
       ∧ (b = true ↔
          w = [] ∨ ∃ ws, ws ≠ [] ∧ w = mjoin ws
                         ∧ codePoints w = mjoin (codePoints <$> ws)
                         ∧ Forall (λ u, recognize h A u = Some true) ws).
Proof.
  intros HA Hop.
  destruct (closure_spec _ _ _ _ HA Hop) as (HR & HL & _).
  apply recognize_decides.
  rewrite (recognize_lang h' R w HR), HL, (lang_star_pieces h A w HA).
  split.
  - intros (ws & -> & Hcp & Hws). destruct ws as [|u ws]; [by left|right].
    by exists (u :: ws).
  - intros [->|(ws & _ & -> & Hcp & Hws)]; [by exists []|by exists ws].
Qed.

Lemma C5_witness :
  Frag ex_h2 ex_A
  ∧ ∃ b, recognize (snd (closure ex_A ex_h2)) (fst (closure ex_A ex_h2))
           (chars "aa") = Some b
         ∧ (b = true ↔
            chars "aa" = [] ∨
            ∃ ws, ws ≠ [] ∧ chars "aa" = mjoin ws
                  ∧ codePoints (chars "aa") = mjoin (codePoints <$> ws)
                  ∧ Forall (λ u, recognize ex_h2 ex_A u = Some true) ws).
Proof.
  destruct ex_fragments as (HA & _).
  split; [exact HA|].
  exact (C5_closure_matches ex_h2 ex_A (chars "aa")
           (fst (closure ex_A ex_h2)) (snd (closure ex_A ex_h2))
           HA (surjective_pairing _)).
Defined.

(** C6. Between operator applications every fragment has exactly one
    accepting state among its states, its end state.  [fromEpsilon] and
    [fromSymbol] return such a fragment.  Each of [concat],
    [union], [closure], [zeroOrOne] and [oneOrMore], applied to such
    fragments, leaves the end states it consumes with [isEnd] false and
    returns a fragment with exactly one accepting state, its end.  So it is
    for every entry of the stack of the postfix compiler after any token
    stream, and for the fragment the tree compiler returns on any tree. *)
Theorem C6_single_accept_state :
  (∀ h R h', fromEpsilon h = (R, h') → single_accept h' R)
  ∧ (∀ symbol h R h', fromSymbol symbol h = (R, h') → single_accept h' R)
  ∧ (∀ h A B R h', Frag h A → Frag h B → disjoint h A B →
     concat A B h = (R, h') →
     final h' (end_ A) = false ∧ single_accept h' R)
  ∧ (∀ h A B R h', Frag h A → Frag h B → disjoint h A B →
     union A B h = (R, h') →
     final h' (end_ A) = false ∧ final h' (end_ B) = false
     ∧ single_accept h' R)
  ∧ (∀ h A R h', Frag h A → closure A h = (R, h') →
     final h' (end_ A) = false ∧ single_accept h' R)
  ∧ (∀ h A R h', Frag h A → zeroOrOne A h = (R, h') →
     final h' (end_ A) = false ∧ single_accept h' R)
  ∧ (∀ h A R h', Frag h A → oneOrMore A h = (R, h') →
     final h' (end_ A) = false ∧ single_accept h' R)
  ∧ (∀ tokens h0 st h, toNFA_loop tokens [] h0 = (st, h) →
     ∀ A, A ∈ st → single_accept h A)
  ∧ (∀ tree h0 R h, toNFAfromParseTree tree h0 = (Ok R, h) →
     single_accept h R).
Proof.
  split; [|split; [|split; [|split; [|split; [|split; [|split; [|split]]]]]]].
  - intros h R h' Hop.
    exact (frag_single_accept _ _
             (op_frag _ _ _ _ _ (fromEpsilon_spec _ _ _ Hop))).
  - intros symbol h R h' Hop.
    exact (frag_single_accept _ _
             (op_frag _ _ _ _ _ (fromSymbol_spec _ _ _ _ Hop))).
  - intros h A B R h' HA HB Hd Hop. split; [by eapply concat_clears|].
    exact (frag_single_accept _ _
             (op_frag _ _ _ _ _ (concat_spec _ _ _ _ _ HA HB Hd Hop))).
  - intros h A B R h' HA HB Hd Hop.
    destruct (union_clears _ _ _ _ _ HA HB Hop) as [? ?].
    split; [done|]. split; [done|].
    exact (frag_single_accept _ _
             (op_frag _ _ _ _ _
                (union_spec _ _ _ _ _ HA HB (or_intror Hd) Hop))).
  - intros h A R h' HA Hop. split; [by eapply closure_clears|].
    exact (frag_single_accept _ _
             (op_frag _ _ _ _ _ (closure_spec _ _ _ _ HA Hop))).
  - intros h A R h' HA Hop. split; [by eapply zeroOrOne_clears|].
    exact (frag_single_accept _ _
             (op_frag _ _ _ _ _ (zeroOrOne_spec _ _ _ _ HA Hop))).
  - intros h A R h' HA Hop. split; [by eapply oneOrMore_clears|].
    exact (frag_single_accept _ _
             (op_frag _ _ _ _ _ (oneOrMore_spec _ _ _ _ HA Hop))).
  - intros tokens h0 st h Hloop A HA. apply frag_single_accept.
    by apply (toNFA_loop_stack _ _ _ _ _ (stack_nil h0) Hloop).
  - intros tree h0 R h Hc.
    destruct (compile_any_tree _ _ _ _ Hc) as (L & HF & _).
    by apply frag_single_accept.
Qed.

Lemma C6_witness :
  Frag ex_h2 ex_A ∧ Frag ex_h2 ex_B ∧ disjoint ex_h2 ex_A ex_B
  ∧ final (snd (concat ex_A ex_B ex_h2)) (end_ ex_A) = false
  ∧ single_accept (snd (concat ex_A ex_B ex_h2)) (fst (concat ex_A ex_B ex_h2)).
Proof.
  destruct ex_fragments as (HA & HB & Hd).
  split; [exact HA|]. split; [exact HB|]. split; [exact Hd|].
  exact (proj1 (proj2 (proj2 C6_single_accept_state))
           ex_h2 ex_A ex_B _ _ HA HB Hd (surjective_pairing _)).
Defined.

(** C7. The infix pattern [a\*] compiles, from any parser state and on any
    heap, to an automaton on which [recognize] returns true for the
    two-character word [a*] and false for every other word, among them
    [aaaa], [a] and the empty word. *)
Theorem C7_escaped_star_is_literal (g : globals) (h : heap) :
  ∃ nfa g' h',
    toNFAFromInfixExp (chars "a\*") g h = (Ok nfa, g', h')
    ∧ (∀ w, recognize h' nfa w = Some (bool_decide (w = chars "a*")))
    ∧ recognize h' nfa (chars "a*") = Some true
    ∧ recognize h' nfa (chars "aaaa") = Some false
    ∧ recognize h' nfa (chars "a") = Some false
    ∧ recognize h' nfa [] = Some false.
Proof.
  destruct (toNFAFromInfixExp_built (PExpr ex_escape) g h I)
    as (R & g' & h' & E & HR).
  exists R, g', h'. split; [exact E|].
  assert (∀ w, recognize h' R w = Some (bool_decide (w = chars "a*"))) as Hall.
  { intros w. destruct (recognize_spec h' R w) as (b & Eb & _).
    rewrite Eb. f_equal.
    pose proof (built_units_recognize _ _ _ _ w HR) as Hw. rewrite Eb in Hw.
    assert (den (PExpr ex_escape) w ↔ w = chars "a*") as Hden.
    { simpl. unfold lang_concat, lang_sym. split.
      - by intros (u & v & -> & -> & ->).
      - intros ->. by exists (chars "a"), (chars "*"). }
    rewrite Hden in Hw. case_bool_decide as Hd.
    - assert (Some b = Some true) as [= ->]; [|done].
      apply Hw. split; [done|]. by rewrite Hd.
    - destruct b; [|done]. destruct Hd. by apply Hw. }
  split; [exact Hall|]. by rewrite !Hall.
Qed.

(** C8. In the automaton either compiler returns, on any input and any heap
    (the tree compiler on any tree, the infix entry point on any pattern, the
    postfix compiler on any token stream), every state the start reaches has
    at most two epsilon edges and does not have both an epsilon edge and a
    symbol edge.  [addNextState] adds to [nextStates] only states without
    epsilon edge: a state that has one is expanded, never added. *)
Theorem C8_thompson_states :
  (∀ tree h0 R h, toNFAfromParseTree tree h0 = (Ok R, h) →
     thompson_states h R)
  ∧ (∀ infixExp g h0 R g' h,
       toNFAFromInfixExp infixExp g h0 = (Ok R, g', h) → thompson_states h R)
  ∧ (∀ tokens h0 R h, toNFA tokens h0 = (Some R, h) → thompson_states h R)
  ∧ (∀ fuel h state ns vis ns' vis',
       addNextState fuel h state ns vis = Some (ns', vis') →
       ∀ t, t ∈ ns' → t ∈ ns ∨ eps h t = []).
Proof.
  split; [|split; [|split]].
  - intros tree h0 R h Hc.
    destruct (compile_any_tree _ _ _ _ Hc) as (L & HF & _).
    by apply frag_thompson.
  - intros infixExp g h0 R g' h Hc.
    by eapply frag_thompson, toNFAFromInfixExp_any.
  - intros tokens h0 R h Hc. by eapply frag_thompson, toNFA_any.
  - intros fuel h state ns vis ns' vis' Hcall t Ht.
    destruct (addNextState_spec _ _ _ _ _ _ _ Hcall) as [(_ & _ & Hs & _) _].
    destruct (Hs t Ht) as [?|(r & _ & _ & ?)]; auto.
Qed.

Lemma C8_witness :
  toNFA (chars "ab|*c.") []
  = (Some {| start := 6; end_ := 9 |}, snd (toNFA (chars "ab|*c.") []))
  ∧ thompson_states (snd (toNFA (chars "ab|*c.") []))
      {| start := 6; end_ := 9 |}.
Proof.
  split; [reflexivity|].
  exact (proj1 (proj2 (proj2 C8_thompson_states)) (chars "ab|*c.") []
           {| start := 6; end_ := 9 |} _ eq_refl).
Defined.

(** C9.  On every token stream and every heap [toNFA] returns, without
    throwing: the source tests every popped operand before it uses it, so the
    model has no throwing outcome; what it returns is [undefined] or a
    fragment.  A token that finds too few operands is skipped and the loop
    goes on with the next token: a
    quantifier on an empty stack changes nothing; [|] or [.] on a stack of
    fewer than two fragments applies no operator and allocates nothing, and
    the loop goes on with an empty stack (the fragment that was alone on the
    stack has been popped).  So the streams ["*"] and ["a|"] compile to
    [undefined]. *)
Theorem C9_underflow_is_skipped :
  (∀ tokens h, ∃ r h',
     toNFA tokens h = (r, h') ∧ ∀ R, r = Some R → Frag h' R)
  ∧ (∀ m tokens h,
     toNFA_loop (chr (meta_char m) :: tokens) [] h = toNFA_loop tokens [] h)
  ∧ (∀ c st tokens h, c = js "|" ∨ c = js "." → length st < 2 →
       toNFA_loop (c :: tokens) st h = toNFA_loop tokens [] h)
  ∧ (∀ h, toNFA (chars "*") h = (None, h))
  ∧ (∀ h, fst (toNFA (chars "a|") h) = None).
Proof.
  split; [|split; [|split; [|split]]].
  - intros tokens h. destruct (toNFA tokens h) as [r h'] eqn:E.
    exists r, h'. split; [done|]. intros R ->. by eapply toNFA_any.
  - by intros [] tokens h.
  - intros c st tokens h [-> | ->] Hlen; destruct st as [|A [|B st]];
      try done; simpl in Hlen; lia.
  - done.
  - done.
Qed.

Lemma C9_witness :
  (js "|" = js "|" ∨ js "|" = js ".") ∧ length [ex_A] < 2
  ∧ toNFA_loop (js "|" :: codePoints (chars "b")) [ex_A] ex_h1
    = toNFA_loop (codePoints (chars "b")) [] ex_h1.
Proof.
  split; [left; reflexivity|]. split; [repeat constructor|].
  exact (proj1 (proj2 (proj2 C9_underflow_is_skipped))
           (js "|") [ex_A] (codePoints (chars "b")) ex_h1
           (or_introl eq_refl) (le_n 2)).
Defined.

(** C10, as stated, fails.  [pattern] and [pos] are variables of the
    module: a parse overwrites them and leaves them changed. *)
Lemma C10_counterexample :
  snd (toParseTree (chars "a") g0) = {| pattern := chars "a"; pos := 1 |}
  ∧ snd (toParseTree (chars "a") g0) ≠ g0.
Proof. split; [reflexivity|discriminate]. Qed.

(** C10, amended.  The scan position is state of the module, shared by all
    invocations of [toParseTree].  Each invocation sets it from its argument
    before it reads it, so the outcome does not depend on what an earlier
    invocation left behind; when it returns or throws, [pattern] holds its
    argument. *)
Theorem C10_scan_state_is_reset (regex : jsstring) (g1 g2 : globals) :
  toParseTree regex g1 = toParseTree regex g2
  ∧ pattern (snd (toParseTree regex g1)) = regex.
Proof.
  split; [reflexivity|].
  by destruct (toParseTree_post regex g1) as [Hpat _].
Qed.

(** * Further properties of the code *)

(** ** The simulation *)

(** X1. On every heap, every automaton and every word, [search] returns a
    boolean, and [recognize] returns the same.  The boolean is true exactly
    when the graph has a run of the simulation on the code points of the
    word: a path from the start state that takes epsilon edges, and takes
    the symbol edge of the next code point only from a state that has no
    epsilon edge, and that ends, the code points used up, in an accepting
    state that has no epsilon edge.  A state with both kinds of edge never
    takes its symbol edges, so on a graph with such states this is less
    than the ordinary paths.  Cycles of epsilon edges do not keep [search]
    from returning. *)
Theorem X1_search_decides_acceptance (h : heap) (nfa : NFA) (w : jsstring) :
  ∃ b, search h nfa w = Some b ∧ recognize h nfa w = Some b
       ∧ (b = true ↔ accepts h (start nfa) (codePoints w)).
Proof.
  destruct (search_spec h nfa w) as (b & E & Hb). by exists b.
Qed.

(** X2. On every heap, called with an empty [visited], [addNextState]
    returns, keeps what [nextStates] held, and adds to it exactly the states
    without epsilon edges that [state] reaches along epsilon edges. *)
Theorem X2_addNextState_adds_closure (h : heap) (s : ref) (ns : list ref) :
  ∃ ns' vis',
    addNextState (closure_fuel h) h s ns [] = Some (ns', vis')
    ∧ ∀ t, t ∈ ns' ↔ t ∈ ns ∨ eclosure h s t.
Proof.
  destruct (addNextState_closure_fuel h s ns) as (ns' & vis' & E).
  exists ns', vis'. split; [done|]. by eapply addNextState_closure.
Qed.

(** ** The two basic fragments *)

(** X3. The automaton of [fromEpsilon] matches the empty word and no
    other. *)
Theorem X3_fromEpsilon_matches_empty (h : heap) (w : jsstring) :
  ∃ b, recognize (snd (fromEpsilon h)) (fst (fromEpsilon h)) w = Some b
       ∧ (b = true ↔ w = []).
Proof.
  apply recognize_decides.
  rewrite (built_recognize _ _ _ _ w
             (built_op0 _ _ _ _
                (fromEpsilon_spec h _ _ (surjective_pairing _)))).
  apply codePoints_nil.
Qed.

(** X4. The automaton of [fromSymbol] for the string of one code unit
    matches the word made of that code unit and no other. *)
Theorem X4_fromSymbol_matches_symbol (c : cu) (h : heap) (w : jsstring) :
  ∃ b, recognize (snd (fromSymbol (str (chr c)) h))
         (fst (fromSymbol (str (chr c)) h)) w = Some b
       ∧ (b = true ↔ w = [c]).
Proof.
  apply recognize_decides.
  rewrite (built_recognize _ _ _ _ w
             (built_op0 _ _ _ _
                (fromSymbol_spec (str (chr c)) h _ _ (surjective_pairing _)))).
  unfold lang_sym. simpl. split.
  - intros E. by rewrite <- (mjoin_codePoints w), E.
  - by intros ->.
Qed.

(** X5. The automaton of [fromSymbol] for [undefined] matches no word: its
    edge is stored under the key [undefined], a string of nine code units,
    and the code points of a word are strings of one or two. *)
Theorem X5_fromSymbol_undefined_matches_nothing (h : heap) (w : jsstring) :
  recognize (snd (fromSymbol undefined h)) (fst (fromSymbol undefined h)) w
  = Some false.
Proof.
  destruct (recognize_decides _ _ w _
              (built_recognize _ _ _ _ w
                 (built_op0 _ _ _ _
                    (fromSymbol_spec undefined h _ _ (surjective_pairing _)))))
    as (b & E & Hb).
  rewrite E. f_equal. destruct b; [|done].
  pose proof (proj1 Hb eq_refl) as Hw. unfold lang_sym in Hw.
  pose proof (codePoints_short w) as Hs. rewrite Hw in Hs.
  apply Forall_cons in Hs as [Hs _]. simpl in Hs.
  vm_compute in Hs. lia.
Qed.

(** ** The operators *)

(** X6. For two fragments that share no state, not yet consumed:
    [concat A B] matches a word exactly when the word splits, between two
    code points, into a word [A] matched and a word [B] matched. *)
Theorem X6_concat_matches (h : heap) (A B : NFA) (w : jsstring)
    (R : NFA) (h' : heap) :
  Frag h A → Frag h B → disjoint h A B →
  concat A B h = (R, h') →
  ∃ b, recognize h' R w = Some b
       ∧ (b = true ↔
          ∃ u v, w = u ++ v ∧ codePoints w = codePoints u ++ codePoints v
                 ∧ recognize h A u = Some true
                 ∧ recognize h B v = Some true).
Proof.
  intros HA HB Hd Hop.
  destruct (concat_spec _ _ _ _ _ HA HB Hd Hop) as (HR & HL & _).
  apply recognize_decides.
  rewrite (recognize_lang _ _ _ HR), HL. by apply lang_concat_pieces.
Qed.

Lemma X6_witness :
  Frag ex_h2 ex_A ∧ Frag ex_h2 ex_B ∧ disjoint ex_h2 ex_A ex_B
  ∧ ∃ b, recognize (snd (concat ex_A ex_B ex_h2))
           (fst (concat ex_A ex_B ex_h2)) (chars "ab") = Some b
         ∧ (b = true ↔
            ∃ u v, chars "ab" = u ++ v
                   ∧ codePoints (chars "ab") = codePoints u ++ codePoints v
                   ∧ recognize ex_h2 ex_A u = Some true
                   ∧ recognize ex_h2 ex_B v = Some true).
Proof.
  destruct ex_fragments as (HA & HB & Hd).
  split; [exact HA|]. split; [exact HB|]. split; [exact Hd|].
  exact (X6_concat_matches ex_h2 ex_A ex_B (chars "ab")
           (fst (concat ex_A ex_B ex_h2)) (snd (concat ex_A ex_B ex_h2))
           HA HB Hd (surjective_pairing _)).
Defined.

(** X7. For a fragment not yet consumed: [zeroOrOne A] matches the empty
    word and the words [A] matched, and no other. *)
Theorem X7_zeroOrOne_matches (h : heap) (A : NFA) (w : jsstring)
    (R : NFA) (h' : heap) :
  Frag h A → zeroOrOne A h = (R, h') →
  ∃ b, recognize h' R w = Some b
       ∧ (b = true ↔ w = [] ∨ recognize h A w = Some true).
Proof.
  intros HA Hop.
  destruct (zeroOrOne_spec _ _ _ _ HA Hop) as (HR & HL & _).
  apply recognize_decides.
  rewrite (recognize_lang _ _ _ HR), HL. unfold lang_opt.
  by rewrite (recognize_lang h A _ HA), codePoints_nil.
Qed.

Lemma X7_witness :
  Frag ex_h2 ex_A
  ∧ ∃ b, recognize (snd (zeroOrOne ex_A ex_h2)) (fst (zeroOrOne ex_A ex_h2))
           (chars "a") = Some b
         ∧ (b = true ↔
            chars "a" = [] ∨ recognize ex_h2 ex_A (chars "a") = Some true).
Proof.
  destruct ex_fragments as (HA & _).
  split; [exact HA|].
  exact (X7_zeroOrOne_matches ex_h2 ex_A (chars "a")
           (fst (zeroOrOne ex_A ex_h2)) (snd (zeroOrOne ex_A ex_h2))
           HA (surjective_pairing _)).
Defined.

(** X8. For a fragment not yet consumed: [oneOrMore A] matches a word
    exactly when the word splits, between code points, into one or more
    words [A] matched. *)
Theorem X8_oneOrMore_matches (h : heap) (A : NFA) (w : jsstring)
    (R : NFA) (h' : heap) :
  Frag h A → oneOrMore A h = (R, h') →
  ∃ b, recognize h' R w = Some b
       ∧ (b = true ↔
          ∃ ws, ws ≠ [] ∧ w = mjoin ws
                ∧ codePoints w = mjoin (codePoints <$> ws)
                ∧ Forall (λ u, recognize h A u = Some true) ws).
Proof.
  intros HA Hop.
  destruct (oneOrMore_spec _ _ _ _ HA Hop) as (HR & HL & _).
  apply recognize_decides.
  rewrite (recognize_lang _ _ _ HR), HL. by apply lang_plus_pieces.
Qed.

Lemma X8_witness :
  Frag ex_h2 ex_A
  ∧ ∃ b, recognize (snd (oneOrMore ex_A ex_h2)) (fst (oneOrMore ex_A ex_h2))
           (chars "aa") = Some b
         ∧ (b = true ↔
            ∃ ws, ws ≠ [] ∧ chars "aa" = mjoin ws
                  ∧ codePoints (chars "aa") = mjoin (codePoints <$> ws)
                  ∧ Forall (λ u, recognize ex_h2 ex_A u = Some true) ws).
Proof.
  destruct ex_fragments as (HA & _).
  split; [exact HA|].
  exact (X8_oneOrMore_matches ex_h2 ex_A (chars "aa")
           (fst (oneOrMore ex_A ex_h2)) (snd (oneOrMore ex_A ex_h2))
           HA (surjective_pairing _)).
Defined.

(** X9. A fragment concatenated with itself matches no word: [concat A A]
    turns the one accepting state of [A] into a state that loops back to the
    start of [A]. *)
Theorem X9_concat_with_itself_matches_nothing (h : heap) (A : NFA)
    (w : jsstring) (R : NFA) (h' : heap) :
  Frag h A → concat A A h = (R, h') → recognize h' R w = Some false.
Proof.
  intros HA Hop. apply recognize_false. by eapply concat_self_rejects.
Qed.

Lemma X9_witness :
  Frag ex_h2 ex_A
  ∧ recognize (snd (concat ex_A ex_A ex_h2)) (fst (concat ex_A ex_A ex_h2))
      (chars "aa") = Some false.
Proof.
  destruct ex_fragments as (HA & _).
  split; [exact HA|].
  exact (X9_concat_with_itself_matches_nothing ex_h2 ex_A (chars "aa")
           (fst (concat ex_A ex_A ex_h2)) (snd (concat ex_A ex_A ex_h2))
           HA (surjective_pairing _)).
Defined.

(** ** The parser *)

(** X10. When [toParseTree] returns a tree, the labels of its leaves, from
    left to right, are what the cursor has passed over, position by
    position: the code units of the pattern, and [undefined] for a position
    past its end.  The cursor ends at most one position past the end; when
    it ends within the pattern, the leaves spell the consumed prefix. *)
Theorem X10_leaves_spell_consumed_text (regex : jsstring) (g : globals)
    (t : TreeNode) (g' : globals) :
  toParseTree regex g = (Ok t, g') →
  leaves t = peek_at regex <$> seq 0 (pos g')
  ∧ pos g' ≤ length regex + 1
  ∧ (pos g' ≤ length regex →
     leaves t = (λ c, str (chr c)) <$> take (pos g') regex).
Proof.
  intros E. pose proof (toParseTree_pos _ _ _ _ E) as Hpos.
  apply toParseTree_shape in E as (_ & _ & Hl & _).
  split; [done|]. split; [done|]. intros Hle.
  by rewrite Hl, peek_at_take.
Qed.

Lemma X10_witness :
  toParseTree (chars "(a|b)*c") g0
  = (Ok (tree_expr ex_star), {| pattern := chars "(a|b)*c"; pos := 7 |})
  ∧ leaves (tree_expr ex_star) = peek_at (chars "(a|b)*c") <$> seq 0 7
  ∧ 7 ≤ length (chars "(a|b)*c") + 1
  ∧ (7 ≤ length (chars "(a|b)*c") →
     leaves (tree_expr ex_star)
     = (λ c, str (chr c)) <$> take 7 (chars "(a|b)*c")).
Proof.
  split; [reflexivity|].
  exact (X10_leaves_spell_consumed_text (chars "(a|b)*c") g0 _ _ eq_refl).
Defined.

(** X11. When [toParseTree] returns a tree, it has consumed at least one
    position, and it has stopped at the end of the pattern or in front of a
    closing parenthesis: nothing else ends the outermost [expr]. *)
Theorem X11_parse_stops_at_end_or_paren (regex : jsstring) (g : globals)
    (t : TreeNode) (g' : globals) :
  toParseTree regex g = (Ok t, g') →
  pattern g' = regex ∧ 0 < pos g'
  ∧ (rest g' = [] ∨ ∃ r, rest g' = (")" : cu) :: r).
Proof.
  intros E. pose proof (toParseTree_post regex g) as [_ Hpost].
  rewrite E in Hpost. simpl in Hpost. destruct Hpost as [_ Hfol].
  apply toParseTree_shape in E as (Hp & Hpos & _).
  split; [done|]. split; [done|].
  destruct (rest g') as [|c r]; [by left|]. simpl in Hfol. subst c.
  right. by exists r.
Qed.

Lemma X11_witness :
  toParseTree (chars "a)b") g0
  = (Ok (tree_expr (ETerm (TFactor (FAtom (AChar (CLit "a")))))),
     {| pattern := chars "a)b"; pos := 1 |})
  ∧ pattern {| pattern := chars "a)b"; pos := 1 |} = chars "a)b"
  ∧ 0 < pos {| pattern := chars "a)b"; pos := 1 |}
  ∧ (rest {| pattern := chars "a)b"; pos := 1 |} = []
     ∨ ∃ r, rest {| pattern := chars "a)b"; pos := 1 |} = (")" : cu) :: r).
Proof.
  split; [reflexivity|].
  exact (X11_parse_stops_at_end_or_paren (chars "a)b") g0 _ _ eq_refl).
Defined.

(** X12. Text from an unmatched closing parenthesis on is ignored: for a
    well-formed derivation followed by [)] and any text, the infix entry
    point returns an automaton, the cursor rests on that parenthesis, and
    the automaton matches exactly the words without surrogate pair that
    are, as sequences of code units, in the language of the derivation. *)
Theorem X12_text_after_unmatched_paren_ignored (e : Expr) (r : jsstring)
    (g : globals) (h : heap) (w : jsstring) :
  wf_expr e →
  ∃ nfa g' h',
    toNFAFromInfixExp (yield_expr e ++ (")" : cu) :: r) g h = (Ok nfa, g', h')
    ∧ rest g' = (")" : cu) :: r
    ∧ ∃ b, recognize h' nfa w = Some b
           ∧ (b = true ↔ den_expr e w ∧ has_pair w = false).
Proof.
  intros Hwf.
  destruct (toNFAFromInfixExp_unmatched e r g h Hwf) as (R & g' & h' & E & Hr & HB).
  exists R, g', h'. split; [done|]. split; [done|].
  apply recognize_decides. by eapply built_units_recognize.
Qed.

Lemma X12_witness :
  wf_expr ex_plain
  ∧ ∃ nfa g' h',
      toNFAFromInfixExp (chars "ab|c)d*") g0 [] = (Ok nfa, g', h')
      ∧ rest g' = chars ")d*"
      ∧ ∃ b, recognize h' nfa (chars "ab") = Some b
             ∧ (b = true ↔ den_expr ex_plain (chars "ab")
                           ∧ has_pair (chars "ab") = false).
Proof.
  split; [exact I|].
  exact (X12_text_after_unmatched_paren_ignored ex_plain (chars "d*") g0 []
           (chars "ab") I).
Defined.

(** X13. A pattern that starts with a quantifier is rejected: the infix
    entry point throws "Unexpected meta char" with that character, the
    cursor at the start of the pattern, and the heap as it was. *)
Theorem X13_leading_quantifier_is_rejected (m : MetaChar) (r : jsstring)
    (g : globals) (h : heap) :
  toNFAFromInfixExp (meta_char m :: r) g h
  = (Throw (Error (js "Unexpected meta char " ++ chr (meta_char m))),
     {| pattern := meta_char m :: r; pos := 0 |}, h).
Proof.
  unfold toNFAFromInfixExp. by rewrite toParseTree_leading_meta.
Qed.

(** ** The entry points *)

(** X14. The infix entry point, on every text, from every parser state and
    on every heap, returns an automaton or throws one of the two errors of
    the parser.  When it returns, the automaton is a fragment made of states
    allocated by this call, and the states the heap had are as they were;
    when it throws, the heap is as it was.  The tree compiler never rejects
    a tree of the parser. *)
Theorem X14_infix_returns_or_parse_error (infixExp : jsstring)
    (g : globals) (h : heap) :
  ∃ r g' h',
    toNFAFromInfixExp infixExp g h = (r, g', h')
    ∧ match r with
      | Ok nfa =>
          Frag h' nfa
          ∧ (∀ q, reach h' (start nfa) q → length h ≤ q)
          ∧ extends h h'
      | Throw e => parse_error e g' ∧ h' = h
      | OutOfFuel => False
      end.
Proof.
  destruct (toNFAFromInfixExp_outcome infixExp g h) as (r & g' & h' & E & Hr).
  exists r, g', h'. split; [done|]. destruct r as [R|e|]; [|done..].
  destruct Hr as (L & HF & _ & Hnew & Hlen & Hsame). done.
Qed.

(** X15. Whatever the infix entry point or [createMatcher] does with a
    text, the states the heap had are as they were: both only allocate. *)
Theorem X15_infix_only_allocates (exp : jsstring) (g : globals) (h : heap) :
  extends h (snd (toNFAFromInfixExp exp g h))
  ∧ extends h (snd (createMatcher exp g h)).
Proof.
  split; [apply toNFAFromInfixExp_extends|apply createMatcher_extends].
Qed.

(** X16. Whatever the postfix compiler does with a token stream, well-formed
    or not, the states the heap had are as they were. *)
Theorem X16_postfix_only_allocates (tokens : jsstring) (h : heap) :
  extends h (snd (toNFA tokens h)).
Proof. apply toNFA_extends. Qed.

(** X17. A fragment keeps matching what it matched when the heap has only
    had states allocated on top of it. *)
Theorem X17_later_allocation_keeps_matches (h h' : heap) (A : NFA)
    (w : jsstring) :
  Frag h A → extends h h' → recognize h' A w = recognize h A w.
Proof. apply extends_recognize. Qed.

Lemma X17_witness :
  Frag ex_h2 ex_A
  ∧ extends ex_h2 (snd (toNFA (chars "xy|*") ex_h2))
  ∧ recognize (snd (toNFA (chars "xy|*") ex_h2)) ex_A (chars "a")
    = recognize ex_h2 ex_A (chars "a").
Proof.
  destruct ex_fragments as (HA & _).
  split; [exact HA|]. split; [apply toNFA_extends|].
  exact (X17_later_allocation_keeps_matches ex_h2 _ ex_A (chars "a")
           HA (toNFA_extends _ _)).
Defined.

(** X18. [createMatcher] on a pattern of the accepted surface returns a
    matcher, and the matcher returns true exactly on the words without
    surrogate pair that are, as sequences of code units, in the language of
    the pattern, now and whenever the heap has only had states allocated
    since: creating other matchers does not disturb it. *)
Theorem X18_matcher_decides_language (p : Pattern) (g : globals) (h : heap) :
  wf_pattern p →
  ∃ m g' h',
    createMatcher (yield p) g h = (Ok m, g', h')
    ∧ ∀ h'' w, extends h' h'' →
        ∃ b, m w h'' = Some b ∧ (b = true ↔ den p w ∧ has_pair w = false).
Proof.
  intros Hwf.
  destruct (createMatcher_built p g h Hwf) as (R & g' & h' & E & HB).
  eexists _, g', h'. split; [exact E|]. intros h'' w Hext. simpl.
  pose proof HB as (HF & _).
  rewrite (extends_recognize _ _ _ _ HF Hext).
  apply recognize_decides. by eapply built_units_recognize.
Qed.

Lemma X18_witness :
  wf_pattern (PExpr ex_star)
  ∧ ∃ m g' h',
      createMatcher (chars "(a|b)*c") g0 [] = (Ok m, g', h')
      ∧ ∀ h'' w, extends h' h'' →
          ∃ b, m w h'' = Some b
               ∧ (b = true ↔ den (PExpr ex_star) w ∧ has_pair w = false).
Proof.
  split; [exact I|].
  exact (X18_matcher_decides_language (PExpr ex_star) g0 [] I).
Defined.

(** X19. The infix entry point allocates at most two states for each
    code unit of the text, and two more. *)
Theorem X19_infix_allocates_linearly (infixExp : jsstring) (g : globals)
    (h : heap) :
  length (snd (toNFAFromInfixExp infixExp g h))
  ≤ length h + 2 * length infixExp + 2.
Proof.
  destruct (toNFAFromInfixExp infixExp g h) as [[r g'] h'] eqn:E.
  by eapply toNFAFromInfixExp_states.
Qed.

(** X20. The postfix compiler allocates at most two states for each code
    unit of the token stream (a token is one or two code units), and two
    states for the empty token stream. *)
Theorem X20_postfix_allocates_linearly (tokens : jsstring) (h : heap) :
  length (snd (toNFA tokens h)) ≤ length h + 2 * (length tokens `max` 1).
Proof. apply toNFA_length. Qed.

(** X21. The postfix compiler returns the top of its stack and ignores what
    is under it: for the postfix form of a derivation, no low surrogate
    among its literals, after any tokens at all, it returns an automaton
    that matches exactly the words without surrogate pair that are, as
    sequences of code units, in the language of the derivation. *)
Theorem X21_postfix_returns_top_of_stack (pre : jsstring) (e : Expr)
    (h : heap) (w : jsstring) :
  postfix_ok_expr e → Forall (λ c, is_low c = false) (postfix_expr e) →
  ∃ nfa h',
    toNFA (pre ++ postfix_expr e) h = (Some nfa, h')
    ∧ ∃ b, recognize h' nfa w = Some b
           ∧ (b = true ↔ den_expr e w ∧ has_pair w = false).
Proof.
  intros Hok Hlow.
  destruct (toNFA_top pre e h Hok Hlow) as (R & h' & E & HF & HL).
  exists R, h'. split; [done|].
  apply recognize_decides.
  by rewrite (recognize_lang _ _ _ HF), HL, units_codePoints.
Qed.

Lemma X21_witness :
  postfix_ok_expr ex_plain
  ∧ Forall (λ c, is_low c = false) (postfix_expr ex_plain)
  ∧ ∃ nfa h',
      toNFA (chars "x*y" ++ postfix_expr ex_plain) [] = (Some nfa, h')
      ∧ ∃ b, recognize h' nfa (chars "c") = Some b
             ∧ (b = true ↔ den_expr ex_plain (chars "c")
                           ∧ has_pair (chars "c") = false).
Proof.
  assert (Forall (λ c, is_low c = false) (postfix_expr ex_plain)) as Hlow.
  { repeat constructor. }
  split; [exact I|]. split; [exact Hlow|].
  exact (X21_postfix_returns_top_of_stack (chars "x*y") ex_plain []
           (chars "c") I Hlow).
Defined.

(** ** Surrogate pairs *)

(** X22. The matcher reads a surrogate pair as one symbol.  For a high
    surrogate [c] and a low surrogate [d]: the fragment of [c] matches the
    word [c], the fragment of [d] matches the word [d], and their
    concatenation, which is what the parser builds for the two code units
    of a character outside the Basic Multilingual Plane, does not match the
    word [c d]. *)
Theorem X22_surrogate_pair_is_one_symbol (c d : cu) (h : heap)
    (A : NFA) (h1 : heap) (B : NFA) (h2 : heap) (R : NFA) (h3 : heap) :
  is_high c = true → is_low d = true →
  fromSymbol (str (chr c)) h = (A, h1) →
  fromSymbol (str (chr d)) h1 = (B, h2) →
  concat A B h2 = (R, h3) →
  recognize h2 A [c] = Some true
  ∧ recognize h2 B [d] = Some true
  ∧ recognize h3 R [c; d] = Some false.
Proof.
  intros Hc Hd EA EB ER.
  pose proof (built_op0 _ _ _ _ (fromSymbol_spec _ _ _ _ EA)) as HA.
  pose proof (built_op0 _ _ _ _ (fromSymbol_spec _ _ _ _ EB)) as HB.
  destruct (built_disjoint _ _ _ _ _ _ _ HA HB) as [HA2 _].
  destruct (concat_built _ _ _ _ _ _ _ HA HB) as (R' & h3' & ER' & HR).
  rewrite ER in ER'. injection ER' as <- <-.
  split; [by apply (built_recognize _ _ _ _ [c] HA2)|].
  split; [by apply (built_recognize _ _ _ _ [d] HB)|].
  destruct (recognize_spec h3 R [c; d]) as (b & Eb & _).
  rewrite Eb. f_equal. destruct b; [|done].
  apply (built_recognize _ _ _ _ [c; d] HR) in Eb.
  rewrite codePoints_cons2, Hc, Hd in Eb.
  by destruct Eb as (u & v & E & -> & ->).
Qed.

Lemma X22_witness :
  is_high 0xD83D%N = true ∧ is_low 0xDE00%N = true
  ∧ recognize (snd ex_lo) (fst ex_hi) [0xD83D%N] = Some true
  ∧ recognize (snd ex_lo) (fst ex_lo) [0xDE00%N] = Some true
  ∧ recognize (snd (concat (fst ex_hi) (fst ex_lo) (snd ex_lo)))
      (fst (concat (fst ex_hi) (fst ex_lo) (snd ex_lo))) astral
    = Some false.
Proof.
  split; [reflexivity|]. split; [reflexivity|].
  exact (X22_surrogate_pair_is_one_symbol 0xD83D%N 0xDE00%N []
           (fst ex_hi) (snd ex_hi) (fst ex_lo) (snd ex_lo) _ _
           eq_refl eq_refl (surjective_pairing _) (surjective_pairing _)
           (surjective_pairing _)).
Defined.
